(** * Stock-prediction notebook: data pipeline and sequence construction

    A shallow embedding of the data-handling code of [code.ipynb]: the
    min-max normaliser, the ATR and RSI indicator columns, the row-dropping
    step, the baseline target construction, the sliding-window sequence
    builder, the chronological train/test splits and the hyper-parameter
    grid.  Model training itself (Keras, scikit-learn regression) is a
    black box and enters only as a section variable.

    Numbers.  The notebook computes on float64 columns.  A cell is modelled
    as [option Q]: [Some q] is a finite number, taken as an exact rational,
    and [None] is NaN.  Rounding and signed zeros are therefore outside the
    model.  Infinite values cannot reach the tables (MinMaxScaler rejects
    them); the one place where a division by zero occurs, the relative
    strength [gain / loss], is computed in the extended type [xnum].

    Exceptions.  A function that can raise returns [option]; [None] stands
    for the exception (KeyError, IndexError, ValueError). *)

From Stdlib Require Import QArith Qabs Qminmax Qround Lia Lqa.
From stdpp Require Import base option list strings.

#[local] Open Scope nat_scope.

(** ** Cells, rows and frames *)

(** A float64 cell: a finite number or NaN. *)
Abbreviation cell := (option Q).

Definition isna (c : cell) : bool :=
  match c with
  | None => true
  | Some _ => false
  end.

(** Arithmetic on cells: NaN is absorbing. *)
Definition lift2 (f : Q → Q → Q) (a b : cell) : cell :=
  match a, b with
  | Some x, Some y => Some (f x y)
  | _, _ => None
  end.

Definition cell_map (f : Q → Q) (a : cell) : cell :=
  match a with
  | Some x => Some (f x)
  | None => None
  end.

Definition cell_add : cell → cell → cell := lift2 Qplus.
Definition cell_sub : cell → cell → cell := lift2 Qminus.
Definition cell_mul : cell → cell → cell := lift2 Qmult.
(** Division of cells is used only with a divisor that is not zero. *)
Definition cell_div : cell → cell → cell := lift2 Qdiv.

(** Equality of cells up to the representation of the rational. *)
Definition cell_eq (a b : cell) : Prop :=
  match a, b with
  | Some x, Some y => (x == y)%Q
  | None, None => True
  | _, _ => False
  end.

(** A row of a DataFrame: its index label (the date, as a day number) and
    one cell per column. *)
Record Row : Type := mkRow { date : Z; cells : list cell }.

Record DataFrame : Type := mkDF { columns : list string; rows : list Row }.

(** [len(data)] *)
Definition len (data : DataFrame) : nat := length (rows data).

(** Every row has one cell per column. *)
Definition well_formed (data : DataFrame) : Prop :=
  Forall (λ r, length (cells r) = length (columns data)) (rows data).

(** Position of the first column called [name]. *)
Fixpoint index_of (name : string) (cols : list string) : option nat :=
  match cols with
  | [] => None
  | c :: cols' =>
      if String.eqb name c then Some 0
      else S <$> index_of name cols'
  end.

(** [row[name]]; [None] stands for the KeyError of a missing column. *)
Definition row_get (cols : list string) (r : Row) (name : string)
  : option cell :=
  i ← index_of name cols; cells r !! i.

(** [data.iloc[a:b]] for non-negative bounds: the slice is clipped at the
    end of the frame. *)
Definition iloc_slice (data : DataFrame) (a b : nat) : list Row :=
  take (b - a) (drop a (rows data)).

(** [data.iloc[i]]; [None] stands for the IndexError. *)
Definition iloc (data : DataFrame) (i : nat) : option Row := rows data !! i.

(** [data[name]], the column as a series. *)
Definition get_column (data : DataFrame) (name : string)
  : option (list cell) :=
  i ← index_of name (columns data);
  mapM (λ r, cells r !! i) (rows data).

(** [data[name] = series]: an existing column is overwritten in place, a
    new one is appended on the right.  The series comes from [data] itself,
    so it is aligned with the rows position by position. *)
Definition set_cell (pos : nat) (v : cell) (r : Row) : Row :=
  mkRow (date r) (<[pos := v]> (cells r)).

Definition append_cell (v : cell) (r : Row) : Row :=
  mkRow (date r) (cells r ++ [v]).

Definition set_column (data : DataFrame) (name : string) (s : list cell)
  : DataFrame :=
  match index_of name (columns data) with
  | Some pos => mkDF (columns data) (zip_with (set_cell pos) s (rows data))
  | None => mkDF (columns data ++ [name]) (zip_with append_cell s (rows data))
  end.

(** The row-wise effect of [set_column]. *)
Definition put_cell (cols : list string) (name : string) (v : cell) (r : Row)
  : Row :=
  match index_of name cols with
  | Some pos => set_cell pos v r
  | None => append_cell v r
  end.

(** Position of the written column in the new header. *)
Definition written_pos (cols : list string) (name : string) : nat :=
  default (length cols) (index_of name cols).

(** [data.drop(columns=names)]: every column carrying one of the labels is
    removed; a label that names no column is a KeyError. *)
Definition keep_mask (names cols : list string) : list bool :=
  (λ c, negb (existsb (String.eqb c) names)) <$> cols.

Fixpoint select {A} (mask : list bool) (l : list A) : list A :=
  match mask, l with
  | b :: mask', x :: l' => if b then x :: select mask' l' else select mask' l'
  | _, _ => []
  end.

Definition drop_columns (data : DataFrame) (names : list string)
  : option DataFrame :=
  if forallb (λ n, bool_decide (is_Some (index_of n (columns data)))) names
  then
    let mask := keep_mask names (columns data) in
    Some (mkDF (select mask (columns data))
               ((λ r, mkRow (date r) (select mask (cells r))) <$> rows data))
  else None.

(** [data.dropna()]: a row survives when none of its cells is NaN. *)
Definition row_complete (r : Row) : bool :=
  forallb (λ c, negb (isna c)) (cells r).

Definition dropna (data : DataFrame) : DataFrame :=
  mkDF (columns data) (List.filter row_complete (rows data)).

(** A frame without NaN. *)
Definition no_missing (data : DataFrame) : Prop :=
  Forall (λ r, row_complete r = true) (rows data).

(** ** Series operations used by the indicator engine *)

(** [s.shift()]: every value moves one row down, the first row is NaN. *)
Definition shift (s : list cell) : list cell := take (length s) (None :: s).

(** [s.shift(-1)]: every value moves one row up, the last row is NaN. *)
Definition shift_back (s : list cell) : list cell :=
  take (length s) (drop 1 s ++ [None]).

Definition series_sub (a b : list cell) : list cell := zip_with cell_sub a b.
Definition series_abs (a : list cell) : list cell := cell_map Qabs <$> a.
Definition series_neg (a : list cell) : list cell := cell_map Qopp <$> a.

(** [s.diff()] *)
Definition diff (s : list cell) : list cell := series_sub s (shift s).

(** [s.where(cond, other)]: a value is kept where the condition holds; a
    comparison with NaN is false, so NaN is replaced as well. *)
Definition where_ (cond : Q → bool) (other : Q) (s : list cell) : list cell :=
  (λ c, match c with
        | Some q => if cond q then Some q else Some other
        | None => Some other
        end) <$> s.

Definition Qlt_bool (x y : Q) : bool := negb (Qle_bool y x).

(** [nanmin] and [nanmax]: the extremum of the values that are not NaN,
    NaN when there is none. *)
Definition nan_fold (f : Q → Q → Q) (xs : list cell) : cell :=
  foldr (λ c acc, match c, acc with
                  | Some x, Some m => Some (f x m)
                  | Some x, None => Some x
                  | None, _ => acc
                  end) None xs.

Definition nanmin : list cell → cell := nan_fold Qmin.
Definition nanmax : list cell → cell := nan_fold Qmax.

(** [pd.concat([a, b, c], axis=1).max(axis=1)]: the row-wise maximum that
    skips NaN. *)
Fixpoint max_axis1 (a b c : list cell) : list cell :=
  match a, b, c with
  | x :: a', y :: b', z :: c' => nanmax [x; y; z] :: max_axis1 a' b' c'
  | _, _, _ => []
  end.

Definition Qsum (l : list Q) : Q := foldr Qplus 0%Q l.

(** The values of a window that are not NaN. *)
Definition observed (win : list cell) : list Q := omap id win.

(** [s.rolling(window=w).mean()]: at row [t] the window holds the rows
    [t-w+1 .. t] that exist; with the default [min_periods = w] the result
    is NaN unless the window holds [w] observed values. *)
Definition rolling_window (w : nat) (s : list cell) (t : nat) : list cell :=
  drop (S t - w) (take (S t) s).

Definition window_mean (min_periods : nat) (win : list cell) : cell :=
  let obs := observed win in
  if length obs <? min_periods then None
  else Some (Qsum obs / inject_Z (Z.of_nat (length obs)))%Q.

Definition rolling_mean (w : nat) (s : list cell) : list cell :=
  (λ t, window_mean w (rolling_window w s t)) <$> seq 0 (length s).

(** ** Indicator engine: ATR_14 *)

Definition true_range (high low close : list cell) : list cell :=
  let high_low := series_sub high low in
  let high_close := series_abs (series_sub high (shift close)) in
  let low_close := series_abs (series_sub low (shift close)) in
  max_axis1 high_low high_close low_close.

Definition ATR_14 (normalized_data : DataFrame) : option (list cell) :=
  high ← get_column normalized_data "High";
  low ← get_column normalized_data "Low";
  close ← get_column normalized_data "Close";
  Some (rolling_mean 14 (true_range high low close)).

(** The true range of one day as the cell computes it: the greatest of
    high minus low, |high minus previous close| and |low minus previous
    close|; on the first day, which has no previous close, the two
    differences with it are NaN and the maximum skips them. *)
Definition true_range_of (h l : Q) (prev_close : option Q) : Q :=
  match prev_close with
  | Some pc => Qmax (h - l) (Qmax (Qabs (h - pc)) (Qabs (l - pc)))
  | None => (h - l)%Q
  end.

Definition prev_close_of (closes : list Q) (k : nat) : option Q :=
  match k with
  | 0 => None
  | S k' => closes !! k'
  end.

Definition day_true_range (highs lows closes : list Q) (k : nat) : Q :=
  true_range_of (nth k highs 0%Q) (nth k lows 0%Q) (prev_close_of closes k).

(** The arithmetic mean of [f] over the 14 rows that end at row [t]. *)
Definition mean_of_last_14 (f : nat → Q) (t : nat) : Q :=
  (Qsum (f <$> seq (t - 13) 14) / 14)%Q.

(** The true range in the words of the specification: the maximum of
    high minus low, high minus previous close, and low minus previous
    close (no absolute values). *)
Definition spec_true_range (highs lows closes : list Q) (k : nat) : Q :=
  let h := nth k highs 0%Q in
  let l := nth k lows 0%Q in
  let pc := nth (k - 1) closes 0%Q in
  Qmax (h - l) (Qmax (h - pc) (l - pc)).

(** ** Indicator engine: RSI_14 *)

(** A float64 with its special values: the result of a division. *)
Inductive xnum : Type :=
  | XNum (q : Q)
  | XInf (negative : bool)
  | XNaN.

Definition of_cell (c : cell) : xnum :=
  match c with
  | Some q => XNum q
  | None => XNaN
  end.

Definition xadd (a b : xnum) : xnum :=
  match a, b with
  | XNaN, _ | _, XNaN => XNaN
  | XNum x, XNum y => XNum (x + y)%Q
  | XInf s, XNum _ | XNum _, XInf s => XInf s
  | XInf s, XInf s' => if Bool.eqb s s' then XInf s else XNaN
  end.

Definition xneg (a : xnum) : xnum :=
  match a with
  | XNum x => XNum (- x)%Q
  | XInf s => XInf (negb s)
  | XNaN => XNaN
  end.

Definition xsub (a b : xnum) : xnum := xadd a (xneg b).

Definition xdiv (a b : xnum) : xnum :=
  match a, b with
  | XNaN, _ | _, XNaN => XNaN
  | XNum x, XNum y =>
      if Qeq_bool y 0 then
        if Qeq_bool x 0 then XNaN else XInf (Qlt_bool x 0)
      else XNum (x / y)%Q
  | XNum _, XInf _ => XNum 0%Q
  | XInf s, XNum y => XInf (xorb s (Qlt_bool y 0))
  | XInf _, XInf _ => XNaN
  end.

(** The two rolling averages of the RSI cell and their quotient. *)
Definition gain (close : list cell) : list cell :=
  let delta := diff close in
  rolling_mean 14 (where_ (λ q, Qlt_bool 0 q) 0%Q delta).

Definition loss (close : list cell) : list cell :=
  let delta := diff close in
  rolling_mean 14 (series_neg (where_ (λ q, Qlt_bool q 0) 0%Q delta)).

Definition rs (close : list cell) : list xnum :=
  zip_with xdiv (of_cell <$> gain close) (of_cell <$> loss close).

(** [100 - (100 / (1 + rs))] *)
Definition rsi_of_rs (r : xnum) : xnum :=
  xsub (XNum 100%Q) (xdiv (XNum 100%Q) (xadd (XNum 1%Q) r)).



(** ** Normalizer: scikit-learn's MinMaxScaler with feature range (0, 1)

    The fitted attributes are the documented ones: [data_min_] and
    [data_max_] ignore NaN, [scale_ = 1 / (data_max_ - data_min_)] with the
    range of a constant column replaced by 1, and
    [min_ = 0 - data_min_ * scale_]. *)

Record MinMaxScaler : Type := mkScaler {
  data_min_ : list cell;
  data_max_ : list cell;
  data_range_ : list cell;
  scale_ : list cell;
  min_ : list cell
}.

(** A 2-D array, row by row. *)
Abbreviation array2 := (list (list cell)).

(** Column [j] of an array. *)
Definition column (j : nat) (X : array2) : list cell :=
  (λ row : list cell, default None (row !! j)) <$> X.

Definition handle_zeros_in_scale (r : Q) : Q :=
  if Qeq_bool r 0 then 1%Q else r.

(** [scaler.fit(X)]; an array without samples or without features is a
    ValueError. *)
Definition fit (X : array2) : option MinMaxScaler :=
  match X with
  | [] => None
  | row0 :: _ =>
      let n_features := length row0 in
      if n_features =? 0 then None
      else
        let data_min := (λ j, nanmin (column j X)) <$> seq 0 n_features in
        let data_max := (λ j, nanmax (column j X)) <$> seq 0 n_features in
        let data_range := zip_with cell_sub data_max data_min in
        let scale :=
          (λ r, cell_div (Some 1%Q) (cell_map handle_zeros_in_scale r))
            <$> data_range in
        let min := zip_with (λ m s, cell_sub (Some 0%Q) (cell_mul m s))
                     data_min scale in
        Some (mkScaler data_min data_max data_range scale min)
  end.

(** [X *= scale_; X += min_], broadcast over the rows. *)
Definition transform (scaler : MinMaxScaler) (X : array2) : array2 :=
  (λ row, zip_with cell_add (zip_with cell_mul row (scale_ scaler))
            (min_ scaler)) <$> X.

(** [X -= min_; X /= scale_] *)
Definition inverse_transform (scaler : MinMaxScaler) (X : array2) : array2 :=
  (λ row, zip_with cell_div (zip_with cell_sub row (min_ scaler))
            (scale_ scaler)) <$> X.

Definition fit_transform (X : array2) : option (MinMaxScaler * array2) :=
  scaler ← fit X; Some (scaler, transform scaler X).

(** [data.values]: the cells without header and index. *)
Definition values (data : DataFrame) : array2 := cells <$> rows data.

(** [pd.DataFrame(values, columns=data.columns, index=data.index)] *)
Definition with_values (data : DataFrame) (values : array2) : DataFrame :=
  mkDF (columns data)
       (zip_with (λ r v, mkRow (date r) v) (rows data) values).

(** The normalizer cell: the fitted scaler and [normalized_data]. *)
Definition normalize (apple_data : DataFrame)
  : option (MinMaxScaler * DataFrame) :=
  fitted ← fit_transform (values apple_data);
  Some (fitted.1, with_values apple_data fitted.2).

(** ** Post-normalizer: the indicator columns *)

Definition indicators_to_normalize : list string :=
  ["SMA_5"; "SMA_10"; "SMA_20"; "EMA_10"; "RSI_14"; "Volatility_10"; "ATR_14"].

(** Every indicator column of the row holds a number. *)
Definition indicators_defined (cols : list string) (r : Row) : bool :=
  forallb (λ name, match row_get cols r name with
                   | Some (Some _) => true
                   | _ => false
                   end) indicators_to_normalize.

(** ** Baseline stage *)

(** The two statements that change the global [data] in place:
    [data['Target'] = data['Close'].shift(-1)] and
    [data.dropna(inplace=True)]. *)
Definition add_target (data : DataFrame) : option DataFrame :=
  close ← get_column data "Close";
  Some (dropna (set_column data "Target" (shift_back close))).

(** The frame after the baseline cell, written out for a frame without
    NaN whose Close column is [close]. *)
Definition with_target (data : DataFrame) (close : list cell) : DataFrame :=
  mkDF (columns (set_column data "Target" (shift_back close)))
       (zip_with (put_cell (columns data) "Target") (drop 1 close) (rows data)).

(** [X = data.drop(columns=['Close', 'Target'])] and [y = data['Target']] *)
Definition baseline_features (data : DataFrame)
  : option (DataFrame * list cell) :=
  X ← drop_columns data ["Close"; "Target"];
  y ← get_column data "Target";
  Some (X, y).

(** ** Train/test splits *)

(** [int(x)]: truncation towards zero.  The products [n * 0.2] and
    [n * 0.8] below are taken exactly; for every length below 2^52 the
    float64 products round to values with the same ceiling and the same
    integer part. *)
Definition py_int (x : Q) : Z := Z.quot (Qnum x) (Zpos (Qden x)).

(** scikit-learn's [_validate_shuffle_split] for a float [test_size] and
    no [train_size]: [n_test = ceil(test_size * n_samples)],
    [n_train = n_samples - n_test], and an empty training set is a
    ValueError. *)
Definition validate_shuffle_split (n_samples : nat) (test_size : Q)
  : option (nat * nat) :=
  if Qlt_bool 0 test_size && Qlt_bool test_size 1 then
    let n_test := Qceiling (test_size * inject_Z (Z.of_nat n_samples)) in
    let n_train := (Z.of_nat n_samples - n_test)%Z in
    if (n_train =? 0)%Z then None
    else Some (Z.to_nat n_train, Z.to_nat n_test)
  else None.

(** [train_test_split(X, y, test_size=test_size, shuffle=False)] *)
Definition train_test_split {A B} (X : list A) (y : list B) (test_size : Q)
  : option (list A * list A * list B * list B) :=
  if length X =? length y then
    sizes ← validate_shuffle_split (length X) test_size;
    let n_train := sizes.1 in
    let n_test := sizes.2 in
    Some (take n_train X, take n_test (drop n_train X),
          take n_train y, take n_test (drop n_train y))
  else None.

(** The split of the sequence cells:
    [train_size = int(len(X) * 0.8)], [X[:train_size]], [X[train_size:]]. *)
Definition train_size_of (n : nat) : nat :=
  Z.to_nat (py_int (inject_Z (Z.of_nat n) * (8 # 10))%Q).

Definition split_sequences {A B} (X : list A) (y : list B)
  : list A * list A * list B * list B :=
  let train_size := train_size_of (length X) in
  (take train_size X, drop train_size X, take train_size y, drop train_size y).

(** The rows are in chronological order: the index labels increase. *)
Definition chronological (l : list Row) : Prop :=
  ∀ i j a b, i < j → l !! i = Some a → l !! j = Some b → (date a < date b)%Z.

(** ** Sliding windows: [create_sequences] *)

(** A window is the [.values] of a slice: the cells without the index.
    Window sizes are natural numbers (the notebook uses 10, 20 and 30);
    [np.array] of the collected lists is the list itself. *)
Abbreviation window := (list (list cell)).

(** The [for] loop over the remaining indices, with the two lists
    [sequences] and [targets] that it appends to. *)
Fixpoint create_sequences_loop (data : DataFrame) (window_size : nat)
    (range : list nat) (sequences : list window) (targets : list cell)
  : option (list window * list cell) :=
  match range with
  | [] => Some (sequences, targets)
  | i :: range' =>
      let seq := cells <$> iloc_slice data i (i + window_size) in
      r ← iloc data (i + window_size);
      target ← row_get (columns data) r "Close";
      create_sequences_loop data window_size range'
        (sequences ++ [seq]) (targets ++ [target])
  end.

Definition create_sequences (data : DataFrame) (window_size : nat)
  : option (list window * list cell) :=
  create_sequences_loop data window_size
    (seq 0 (len data - window_size)) [] [].

(** ** Hyper-parameter search *)

Record Result : Type := mkResult {
  model : string;
  r_window_size : nat;
  units : nat;
  batch_size : nat;
  learning_rate : Q;
  mse : cell
}.

Definition window_sizes : list nat := [10; 20; 30].
Definition units_options : list nat := [32; 64; 128].
Definition batch_sizes : list nat := [32; 64].
Definition learning_rates : list Q := [(1 # 1000)%Q; (5 # 10000)%Q].

(** [itertools.product] of four lists: the rightmost list varies fastest. *)
Definition product4 {A B C D} (la : list A) (lb : list B) (lc : list C)
    (ld : list D) : list (A * B * C * D) :=
  a ← la; b ← lb; c ← lc; d ← ld; [(a, b, c, d)].

Definition hyperparameters : list (nat * nat * nat * Q) :=
  product4 window_sizes units_options batch_sizes learning_rates.

Section GridSearch.

(** Building a network for the input shape of [X_train] with the given
    units and learning rate, fitting it for five epochs with the given
    batch size and evaluating it on the test set: arguments
    [X_train y_train X_test y_test units batch_size learning_rate];
    [None] when Keras raises. *)
Variable train_lstm train_gru :
  list window → list cell → list window → list cell →
  nat → nat → Q → option cell.

Fixpoint grid_search_loop (data : DataFrame)
    (combos : list (nat * nat * nat * Q)) (results : list Result)
  : option (list Result) :=
  match combos with
  | [] => Some results
  | (window_size, units, batch_size, learning_rate) :: combos' =>
      Xy ← create_sequences data window_size;
      let '(X_train, X_test, y_train, y_test) := split_sequences Xy.1 Xy.2 in
      lstm_mse ← train_lstm X_train y_train X_test y_test
                   units batch_size learning_rate;
      gru_mse ← train_gru X_train y_train X_test y_test
                  units batch_size learning_rate;
      let results :=
        results ++ [mkResult "LSTM" window_size units batch_size
                      learning_rate lstm_mse] in
      let results :=
        results ++ [mkResult "GRU" window_size units batch_size
                      learning_rate gru_mse] in
      grid_search_loop data combos' results
  end.

Definition grid_search (data : DataFrame) : option (list Result) :=
  grid_search_loop data hyperparameters [].

End GridSearch.

(** The hyper-parameters of a results entry, without its score. *)
Definition config_of (r : Result) : string * nat * nat * nat * Q :=
  (model r, r_window_size r, units r, batch_size r, learning_rate r).

Definition config_eqb (a b : string * nat * nat * nat * Q) : bool :=
  let '(m, w, u, b0, lr) := a in
  let '(m', w', u', b0', lr') := b in
  String.eqb m m' && (w =? w') && (u =? u') && (b0 =? b0') && Qeq_bool lr lr'.

(** The two entries that one pass of the search loop appends, without
    their scores. *)
Definition configs_of_combo (c : nat * nat * nat * Q)
  : list (string * nat * nat * nat * Q) :=
  let '(w, u, b, lr) := c in [("LSTM", w, u, b, lr); ("GRU", w, u, b, lr)].

(** Number of entries of the results table with a given configuration. *)
Definition count_config (c : string * nat * nat * nat * Q)
    (results : list Result) : nat :=
  length (List.filter (λ r, config_eqb c (config_of r)) results).

(** ** Example tables *)

(** A table of the post-normalizer's input with three days: on the second
    day the volume is missing while every indicator has a value; on the
    third day an indicator is missing. *)
Definition indicator_columns_example : list string :=
  ["Close"; "Volume"; "SMA_5"; "SMA_10"; "SMA_20"; "EMA_10"; "RSI_14";
   "Volatility_10"; "ATR_14"].

Definition half : cell := Some (1 # 2)%Q.

Definition day1 : Row :=
  mkRow 1 [half; half; half; half; half; half; half; half; half].
Definition day2 : Row :=
  mkRow 2 [half; None; half; half; half; half; half; half; half].
Definition day3 : Row :=
  mkRow 3 [half; half; half; half; half; half; None; half; half].

Definition missing_volume_example : DataFrame :=
  mkDF indicator_columns_example [day1; day2; day3].

(** Fifteen days of normalized prices.  Day 9 is a spike; on day 10 the
    price is back, so that the high and the low of day 10 both lie below
    the close of day 9. *)
Definition quiet_day (d : Z) : Row :=
  mkRow d [Some (1 # 2)%Q; Some (2 # 5)%Q; Some (9 # 20)%Q].
Definition spike_day (d : Z) : Row :=
  mkRow d [Some 1%Q; Some (9 # 10)%Q; Some (19 # 20)%Q].

Definition gap_example : DataFrame :=
  mkDF ["High"; "Low"; "Close"]
    ((quiet_day <$> [0; 1; 2; 3; 4; 5; 6; 7; 8]%Z)
       ++ [spike_day 9]
       ++ (quiet_day <$> [10; 11; 12; 13; 14]%Z)).

Definition gap_highs : list Q :=
  replicate 9 (1 # 2)%Q ++ [1%Q] ++ replicate 5 (1 # 2)%Q.
Definition gap_lows : list Q :=
  replicate 9 (2 # 5)%Q ++ [(9 # 10)%Q] ++ replicate 5 (2 # 5)%Q.
Definition gap_closes : list Q :=
  replicate 9 (9 # 20)%Q ++ [(19 # 20)%Q] ++ replicate 5 (9 # 20)%Q.

(** Five days of a post-normalized dataset, without NaN. *)
Definition price_row (d : Z) (open_ close volume : Q) : Row :=
  mkRow d [Some open_; Some close; Some volume].

Definition five_days : DataFrame :=
  mkDF ["Open"; "Close"; "Volume"]
    [price_row 1 (1 # 10) (2 # 10) (5 # 10);
     price_row 2 (2 # 10) (3 # 10) (4 # 10);
     price_row 3 (3 # 10) (5 # 10) (9 # 10);
     price_row 4 (5 # 10) (4 # 10) (1 # 10);
     price_row 5 (4 # 10) (7 # 10) (3 # 10)]%Q.

(** A loaded table of three days and two columns with one missing entry. *)
Definition raw_frame : DataFrame :=
  mkDF ["Close"; "Volume"]
    [mkRow 1 [Some 1; Some 10];
     mkRow 2 [Some 3; None];
     mkRow 3 [Some 2; Some 30]]%Q.

(** Forty days with a Close column only. *)
Definition forty_days : DataFrame :=
  mkDF ["Close"]
    ((λ i, mkRow (Z.of_nat i) [Some (inject_Z (Z.of_nat i) / 100)%Q])
       <$> seq 0 40).

(** A stand-in for training that scores every model with zero. *)
Definition constant_score
    (X_train : list window) (y_train : list cell)
    (X_test : list window) (y_test : list cell)
    (units batch_size : nat) (learning_rate : Q) : option cell :=
  Some (Some 0%Q).

(** * Further cells of the notebook *)

(** ** Indicator engine: the moving averages *)

(** [close.rolling(window=k).mean()], for the columns SMA_5, SMA_10 and
    SMA_20. *)
Definition SMA (window : nat) (close : list cell) : list cell :=
  rolling_mean window close.

(** [close.ewm(span=span, adjust=False).mean()], after the loop of pandas'
    [ewm] aggregation with [ignore_na=False] and the default
    [min_periods=0]: [weighted] is the running average, [old_wt] the
    weight it carries, [nobs] the number of observations so far.  Between
    two observations the old weight decays at every row; a row without an
    observation repeats the running average. *)
Record ewm_state : Type := mkEwm { weighted : cell; old_wt : Q; nobs : nat }.

Definition is_observation (cur : cell) : nat := if isna cur then 0 else 1.

Definition ewm_step (alpha : Q) (st : ewm_state) (cur : cell) : ewm_state :=
  let nobs := nobs st + is_observation cur in
  match weighted st, cur with
  | Some w, Some x =>
      let old_wt := (old_wt st * (1 - alpha))%Q in
      let new_wt := alpha in
      let w' := if Qeq_bool w x then w
                else ((old_wt * w + new_wt * x) / (old_wt + new_wt))%Q in
      mkEwm (Some w') 1%Q nobs
  | Some w, None => mkEwm (Some w) (old_wt st * (1 - alpha))%Q nobs
  | None, Some x => mkEwm (Some x) (old_wt st) nobs
  | None, None => mkEwm None (old_wt st) nobs
  end.

Definition ewm_output (minp : nat) (st : ewm_state) : cell :=
  if minp <=? nobs st then weighted st else None.

Fixpoint ewm_loop (alpha : Q) (minp : nat) (st : ewm_state)
    (vals : list cell) : list cell :=
  match vals with
  | [] => []
  | cur :: vals' =>
      let st' := ewm_step alpha st cur in
      ewm_output minp st' :: ewm_loop alpha minp st' vals'
  end.

Definition ewm_mean (span : Q) (vals : list cell) : list cell :=
  let com := ((span - 1) / 2)%Q in
  let alpha := (1 / (1 + com))%Q in
  let minp := 1 in
  match vals with
  | [] => []
  | v0 :: vals' =>
      let st := mkEwm v0 1%Q (is_observation v0) in
      ewm_output minp st :: ewm_loop alpha minp st vals'
  end.

Definition EMA_10 (close : list cell) : list cell := ewm_mean 10 close.

(** What the [ewm] loop keeps: the running average exists exactly when
    there was an observation; the old weight is not negative; and the
    running average lies within the bounds of the observations. *)
Definition ewm_counted (st : ewm_state) : Prop :=
  weighted st = None ↔ nobs st = 0.

Definition ewm_invariant (lo hi : Q) (st : ewm_state) : Prop :=
  (0 <= old_wt st)%Q
  ∧ ewm_counted st
  ∧ ∀ w, weighted st = Some w → (lo <= w <= hi)%Q.

(** ** Indicator engine: the daily moves behind RSI_14 *)




(** ** Post-normalizer: rescaling the indicator columns *)

(** The positions of a list of labels; a label that names no column is a
    KeyError. *)
Definition positions (cols names : list string) : option (list nat) :=
  mapM (λ n, index_of n cols) names.

(** [data[names].values]: the chosen columns, in the order of [names]. *)
Definition select_values (data : DataFrame) (idxs : list nat)
  : option array2 :=
  mapM (λ r, mapM (λ i, cells r !! i) idxs) (rows data).

(** [data[names] = values]: column [k] of the array goes to the column
    called [names[k]], row by row. *)
Definition write_cells (idxs : list nat) (v : list cell) (cs : list cell)
  : list cell :=
  foldl (λ cs iv, <[iv.1 := iv.2]> cs) cs (zip idxs v).

Definition assign_values (data : DataFrame) (idxs : list nat)
    (vals : array2) : DataFrame :=
  mkDF (columns data)
       (zip_with (λ r v, mkRow (date r) (write_cells idxs v (cells r)))
          (rows data) vals).

(** The post-normalizer cell: rows with NaN are dropped, then the seven
    indicator columns are rescaled by a fresh scaler and written back. *)
Definition post_normalize (data_with_indicators : DataFrame)
  : option (MinMaxScaler * DataFrame) :=
  let data := dropna data_with_indicators in
  idxs ← positions (columns data) indicators_to_normalize;
  X ← select_values data idxs;
  fitted ← fit_transform X;
  Some (fitted.1, assign_values data idxs fitted.2).

(** ** Error metrics of the baseline cell *)

(** scikit-learn's [mean_squared_error] and [mean_absolute_error] on two
    one-dimensional inputs of numbers: a ValueError for inputs of
    different lengths or without samples. *)
Definition mean_of_errors (f : Q → Q) (y_true y_pred : list Q) : option Q :=
  if (length y_true =? length y_pred) && (0 <? length y_true) then
    Some (Qsum (f <$> zip_with Qminus y_true y_pred)
          / inject_Z (Z.of_nat (length y_true)))%Q
  else None.

Definition mean_squared_error : list Q → list Q → option Q :=
  mean_of_errors (λ d, d * d)%Q.

Definition mean_absolute_error : list Q → list Q → option Q :=
  mean_of_errors Qabs.

(** ** The Keras metric object of the sequence cell *)

(** [tf.keras.metrics.MeanAbsoluteError()]: a mean metric with the two
    weights [total] and [count], both zero at creation.  A call
    [mae_metric(y_true, y_pred)] first updates the state (the mean
    absolute error of the call, a scalar once the last axis of the
    predictions is squeezed, is added to [total], and [count] grows by
    one) and then returns [total / count], zero for a zero count.  Nothing
    resets the state between calls.  The mean of no value is NaN.  The
    cell passes one prediction per test target; inputs of different
    lengths are not modelled further and count as an error. *)
Record MeanMetric : Type := mkMean { total : cell; count : Q }.

Definition new_mean_metric : MeanMetric := mkMean (Some 0%Q) 0%Q.

Definition absolute_error_mean (y_true y_pred : list Q) : cell :=
  match y_true with
  | [] => None
  | _ => Some (Qsum (Qabs <$> zip_with Qminus y_pred y_true)
               / inject_Z (Z.of_nat (length y_true)))%Q
  end.

Definition update_state (m : MeanMetric) (y_true y_pred : list Q)
  : option MeanMetric :=
  if length y_true =? length y_pred then
    Some (mkMean (cell_add (total m) (absolute_error_mean y_true y_pred))
                 (count m + 1)%Q)
  else None.

Definition result (m : MeanMetric) : cell :=
  if Qeq_bool (count m) 0 then Some 0%Q
  else cell_div (total m) (Some (count m)).

Definition metric_call (m : MeanMetric) (y_true y_pred : list Q)
  : option (MeanMetric * cell) :=
  m' ← update_state m y_true y_pred; Some (m', result m').

(** The lines [lstm_mae = mae_metric(y_test, lstm_predictions)] and
    [gru_mae = mae_metric(y_test, gru_predictions)] on one metric
    object. *)
Definition report_maes (y_test lstm_predictions gru_predictions : list Q)
  : option (cell * cell) :=
  let mae_metric := new_mean_metric in
  first ← metric_call mae_metric y_test lstm_predictions;
  second ← metric_call first.1 y_test gru_predictions;
  Some (first.2, second.2).

(** ** Batches of the sequence cell *)

(** [tf.data.Dataset.from_tensor_slices((X, y))]: one element per sample;
    inputs of different lengths are an error. *)
Definition from_tensor_slices {A B} (X : list A) (y : list B)
  : option (list (A * B)) :=
  if length X =? length y then Some (zip X y) else None.

(** [dataset.batch(batch_size)]: consecutive batches of [batch_size]
    elements, the last one with what is left; a batch size of zero is an
    error. *)
Definition batch {A} (batch_size : nat) (dataset : list A)
  : option (list (list A)) :=
  if batch_size =? 0 then None
  else
    let n_batches := (length dataset + batch_size - 1) / batch_size in
    Some ((λ k, take batch_size (drop (k * batch_size) dataset))
            <$> seq 0 n_batches).

(** ** The null report of the loader *)

(** [data.isnull().sum()]: the number of NaN of each column. *)
Definition isnull_sum (data : DataFrame) : list nat :=
  (λ j, length (List.filter isna (column j (values data))))
    <$> seq 0 (length (columns data)).

(** ** Further example inputs *)

(** A close column with a missing first entry and a gap. *)
Definition closes_with_gap : list cell :=
  [None; Some (2 # 10); None; Some (3 # 10); Some (4 # 10); Some (1 # 10)]%Q.

(** Four days of the post-normalizer's input: the RSI of the first day is
    still missing, the other days are complete. *)
Definition indicator_row (d : Z) (close volume sma ema : Q) (rsi : cell)
  : Row :=
  mkRow d [Some close; Some volume; Some sma; Some sma; Some sma; Some ema;
           rsi; Some (1 # 100)%Q; Some ema].

Definition indicator_example : DataFrame :=
  mkDF indicator_columns_example
    [indicator_row 1 (1 # 10) (5 # 10) (1 # 10) (1 # 10) None;
     indicator_row 2 (3 # 10) (4 # 10) (2 # 10) (3 # 20) (Some 100);
     indicator_row 3 (2 # 10) (9 # 10) (2 # 10) (1 # 5) (Some 60);
     indicator_row 4 (6 # 10) (1 # 10) (3 # 10) (2 # 5) (Some 75)]%Q.


(** Two features of three samples, the first one constant. *)
Definition constant_feature_example : array2 :=
  [[Some (1 # 2); Some 1]; [Some (1 # 2); Some 3]; [Some (1 # 2); None]]%Q.

(** Targets and two sets of predictions. *)
Definition targets_example : list Q := [1; 2; 3]%Q.
Definition first_predictions_example : list Q := [1; 3; 5]%Q.
Definition second_predictions_example : list Q := [1; 2; 3]%Q.

(** Whether every number of a list of cells lies in [[lo, hi]]. *)
Definition cells_within (lo hi : Q) (l : list cell) : bool :=
  forallb (λ c, match c with
                | Some q => Qle_bool lo q && Qle_bool q hi
                | None => true
                end) l.

(** * Properties *)

(** ** Column lookup *)

Lemma index_of_lt name cols i :
  index_of name cols = Some i → i < length cols.
Proof.
  revert i. induction cols as [|c cols IH]; intros i; simpl; [done|].
  destruct (String.eqb name c).
  - intros [= <-]. lia.
  - destruct (index_of name cols) as [j|]; simpl; [|done].
    intros [= <-]. specialize (IH j eq_refl). lia.
Qed.

Lemma index_of_lookup name cols i :
  index_of name cols = Some i → cols !! i = Some name.
Proof.
  revert i. induction cols as [|c cols IH]; intros i; simpl; [done|].
  destruct (String.eqb_spec name c) as [->|Hne].
  - by intros [= <-].
  - destruct (index_of name cols) as [j|]; simpl; [|done].
    intros [= <-]. by apply IH.
Qed.

Lemma row_get_is_Some data r name i :
  well_formed data →
  r ∈ rows data →
  index_of name (columns data) = Some i →
  ∃ c, row_get (columns data) r name = Some c ∧ cells r !! i = Some c.
Proof.
  intros Hwf Hr Hi. unfold row_get. rewrite Hi. simpl.
  unfold well_formed in Hwf. rewrite Forall_forall in Hwf.
  specialize (Hwf r Hr). apply index_of_lt in Hi.
  destruct (lookup_lt_is_Some_2 (cells r) i) as [c Hc]; [lia|].
  exists c. by rewrite Hc.
Qed.

(** ** The sequence builder *)

(** The loop, started with the lists [ss] and [ts] on the indices
    [seq a n] that stay inside the frame, appends one window and one
    target per index. *)
Lemma create_sequences_loop_spec data window_size cpos n a ss ts :
  well_formed data →
  index_of "Close" (columns data) = Some cpos →
  (n = 0 ∨ a + n + window_size ≤ len data) →
  ∃ ss' ts',
    create_sequences_loop data window_size (seq a n) ss ts
      = Some (ss ++ ss', ts ++ ts')
    ∧ length ss' = n ∧ length ts' = n
    ∧ ∀ k, k < n →
        ss' !! k
          = Some (cells <$> take window_size (drop (a + k) (rows data)))
        ∧ ∃ r c, rows data !! (a + k + window_size) = Some r
                 ∧ cells r !! cpos = Some c
                 ∧ ts' !! k = Some c.
Proof.
  intros Hwf Hc. revert a ss ts.
  induction n as [|n IH]; intros a ss ts Hlen; simpl.
  - exists [], []. rewrite !app_nil_r. repeat split; intros; lia.
  - unfold iloc.
    destruct (lookup_lt_is_Some_2 (rows data) (a + window_size))
      as [r Hr]; [unfold len in Hlen; lia|].
    rewrite Hr. simpl.
    destruct (row_get_is_Some data r "Close" cpos) as (c & Hg & Hcell);
      [done|by eapply list_elem_of_lookup_2|done|].
    rewrite Hg. simpl.
    destruct (IH (S a)
      (ss ++ [cells <$> iloc_slice data a (a + window_size)])
      (ts ++ [c])) as (ss' & ts' & Heq & Hls & Hlt & Hk); [lia|].
    eexists (_ :: ss'), (c :: ts').
    rewrite Heq, <- !app_assoc. simpl.
    split; [done|]. split; [lia|]. split; [lia|].
    intros [|k] Hlt'.
    + simpl. rewrite Nat.add_0_r. unfold iloc_slice.
      replace (a + window_size - a) with window_size by lia.
      split; [done|]. by exists r, c.
    + simpl. replace (a + S k) with (S a + k) by lia.
      apply Hk. lia.
Qed.

(** What [create_sequences] returns on a frame with a Close column. *)
Lemma create_sequences_result data window_size cpos :
  well_formed data →
  index_of "Close" (columns data) = Some cpos →
  ∃ X y,
    create_sequences data window_size = Some (X, y)
    ∧ length X = len data - window_size
    ∧ length y = len data - window_size
    ∧ ∀ i, i < len data - window_size →
        X !! i = Some (cells <$> take window_size (drop i (rows data)))
        ∧ ∃ r c, rows data !! (i + window_size) = Some r
                 ∧ cells r !! cpos = Some c
                 ∧ y !! i = Some c.
Proof.
  intros Hwf Hc. unfold create_sequences.
  destruct (create_sequences_loop_spec data window_size cpos
              (len data - window_size) 0 [] [] Hwf Hc)
    as (X & y & Heq & HX & Hy & Hk); [lia|].
  exists X, y. split; [done|]. split; [done|]. split; [done|].
  intros i Hi. apply (Hk i Hi).
Qed.

(** Row [j] of the window that starts at row [i]. *)
Lemma window_lookup data w i j :
  i + w ≤ len data → j < w →
  (cells <$> take w (drop i (rows data))) !! j
    = cells <$> rows data !! (i + j).
Proof.
  intros Hlen Hj.
  rewrite list_lookup_fmap. rewrite lookup_take_lt by lia.
  by rewrite lookup_drop.
Qed.

(** C4. For a frame [d] with a Close column and a window size [w] with
    [0 < w < len d], [create_sequences d w] returns exactly [len d - w]
    sequences and as many targets; sequence [i] has [w] rows, which are
    the rows [i .. i + w - 1] of [d] in order, and target [i] is the Close
    value of row [i + w]. *)
Theorem create_sequences_windows (d : DataFrame) (w : nat) :
  well_formed d →
  is_Some (index_of "Close" (columns d)) →
  0 < w < len d →
  ∃ X y,
    create_sequences d w = Some (X, y)
    ∧ length X = len d - w
    ∧ length y = len d - w
    ∧ ∀ i, i < len d - w →
        ∃ s r,
          X !! i = Some s
          ∧ length s = w
          ∧ (∀ j, j < w → s !! j = cells <$> rows d !! (i + j))
          ∧ rows d !! (i + w) = Some r
          ∧ is_Some (y !! i)
          ∧ y !! i = row_get (columns d) r "Close".
Proof.
  intros Hwf [cpos Hc] Hw.
  destruct (create_sequences_result d w cpos Hwf Hc)
    as (X & y & Heq & HX & Hy & Hk).
  exists X, y. repeat (split; [done|]).
  intros i Hi. destruct (Hk i Hi) as (HXi & r & c & Hr & Hcell & Hyi).
  exists (cells <$> take w (drop i (rows d))), r.
  split; [done|]. split.
  { rewrite length_fmap, length_take, length_drop. unfold len in *. lia. }
  split.
  { intros j Hj. apply window_lookup; lia. }
  split; [done|]. unfold row_get. rewrite Hc. simpl.
  rewrite Hyi, Hcell. eauto.
Qed.

(** ** Writing a column *)

Lemma set_column_rows data name s :
  rows (set_column data name s)
    = zip_with (put_cell (columns data) name) s (rows data).
Proof.
  unfold set_column, put_cell.
  by destruct (index_of name (columns data)).
Qed.

Lemma index_of_app_Some name cols more i :
  index_of name cols = Some i → index_of name (cols ++ more) = Some i.
Proof.
  revert i. induction cols as [|c cols IH]; intros i; simpl; [done|].
  destruct (String.eqb name c); [done|].
  destruct (index_of name cols) as [j|]; simpl; [|done].
  intros [= <-]. by rewrite (IH j).
Qed.

Lemma index_of_app_None name cols :
  index_of name cols = None →
  index_of name (cols ++ [name]) = Some (length cols).
Proof.
  induction cols as [|c cols IH]; simpl.
  - by rewrite String.eqb_refl.
  - destruct (String.eqb name c); [done|].
    destruct (index_of name cols); simpl; [done|].
    intros _. by rewrite IH.
Qed.

Lemma index_of_app_other name other cols :
  name ≠ other →
  index_of name (cols ++ [other]) = index_of name cols.
Proof.
  intros Hne. induction cols as [|c cols IH]; simpl.
  - by destruct (String.eqb_spec name other).
  - destruct (String.eqb name c); [done|]. by rewrite IH.
Qed.

Lemma set_column_index_of data name s :
  index_of name (columns (set_column data name s))
    = Some (written_pos (columns data) name).
Proof.
  unfold set_column, written_pos.
  destruct (index_of name (columns data)) as [pos|] eqn:Hi; simpl; [done|].
  by apply index_of_app_None.
Qed.

Lemma set_column_index_of_other data name s other :
  other ≠ name →
  index_of other (columns (set_column data name s))
    = index_of other (columns data).
Proof.
  intros Hne. unfold set_column.
  destruct (index_of name (columns data)); simpl; [done|].
  by apply index_of_app_other.
Qed.

Lemma set_column_elem_of_other data name s other :
  other ≠ name →
  other ∈ columns (set_column data name s) ↔ other ∈ columns data.
Proof.
  intros Hne. unfold set_column.
  destruct (index_of name (columns data)); simpl; [done|].
  rewrite elem_of_app, list_elem_of_singleton. tauto.
Qed.

Lemma put_cell_length cols name v r :
  length (cells r) = length cols →
  length (cells (put_cell cols name v r))
    = match index_of name cols with
      | Some _ => length cols
      | None => S (length cols)
      end.
Proof.
  intros Hlen. unfold put_cell.
  destruct (index_of name cols); simpl.
  - by rewrite length_insert.
  - rewrite length_app. simpl. lia.
Qed.

Lemma put_cell_written cols name v r :
  length (cells r) = length cols →
  cells (put_cell cols name v r) !! written_pos cols name = Some v.
Proof.
  intros Hlen. unfold put_cell, written_pos.
  destruct (index_of name cols) as [pos|] eqn:Hi; simpl.
  - apply list_lookup_insert_eq. apply index_of_lt in Hi. lia.
  - rewrite lookup_app_r by lia. by rewrite Hlen, Nat.sub_diag.
Qed.

Lemma put_cell_other cols name v r i other :
  length (cells r) = length cols →
  other ≠ name →
  index_of other cols = Some i →
  cells (put_cell cols name v r) !! i = cells r !! i.
Proof.
  intros Hlen Hne Hi. unfold put_cell.
  destruct (index_of name cols) as [pos|] eqn:Hpos; simpl.
  - apply list_lookup_insert_ne. intros ->.
    apply index_of_lookup in Hi, Hpos. congruence.
  - apply lookup_app_l. apply index_of_lt in Hi. lia.
Qed.

Lemma put_cell_date cols name v r : date (put_cell cols name v r) = date r.
Proof. unfold put_cell. by destruct (index_of name cols). Qed.

Lemma forallb_insert {A} (f : A → bool) l i x :
  i < length l → forallb f l = true →
  forallb f (<[i := x]> l) = f x.
Proof.
  revert i. induction l as [|a l IH]; intros i Hi; simpl in *; [lia|].
  intros [Ha Hl]%andb_true_iff. destruct i as [|i]; simpl.
  - by rewrite Hl, andb_true_r.
  - rewrite Ha. simpl. apply IH; [lia|done].
Qed.

Lemma put_cell_complete cols name v r :
  length (cells r) = length cols →
  row_complete r = true →
  row_complete (put_cell cols name v r) = negb (isna v).
Proof.
  intros Hlen Hr. unfold put_cell, row_complete in *.
  destruct (index_of name cols) as [pos|] eqn:Hpos; simpl.
  - rewrite forallb_insert; [done| |done].
    apply index_of_lt in Hpos. lia.
  - rewrite forallb_app, Hr. simpl. by rewrite andb_true_r.
Qed.

(** ** The baseline stage *)

(** The Close column of a well-formed frame. *)
Lemma get_column_Some data name pos :
  well_formed data →
  index_of name (columns data) = Some pos →
  ∃ s, get_column data name = Some s
       ∧ length s = len data
       ∧ ∀ t r, rows data !! t = Some r → cells r !! pos = s !! t.
Proof.
  intros Hwf Hpos. unfold get_column. rewrite Hpos. simpl.
  destruct (mapM_is_Some_2 (λ r, cells r !! pos) (rows data)) as [s Hs].
  { eapply Forall_impl; [exact Hwf|]. intros r Hr. simpl in *.
    apply lookup_lt_is_Some_2. apply index_of_lt in Hpos. lia. }
  exists s. split; [done|].
  pose proof (mapM_Some_1 _ _ _ Hs) as HF.
  split; [symmetry; by eapply Forall2_length|].
  intros t r Hr.
  destruct (Forall2_lookup_l _ _ _ _ _ HF Hr) as (c & Hc & Hrc).
  by rewrite Hc.
Qed.

Lemma row_complete_lookup r i c :
  row_complete r = true → cells r !! i = Some c → isna c = false.
Proof.
  unfold row_complete. rewrite forallb_forall. intros Hall Hc.
  apply negb_true_iff, Hall, list_elem_of_In.
  by eapply list_elem_of_lookup_2.
Qed.

(** Dropping the rows with NaN after a column was written whose last
    value only is NaN. *)
Lemma filter_put_cell cols name vs l :
  length l = S (length vs) →
  Forall (λ v, isna v = false) vs →
  Forall (λ r, length (cells r) = length cols) l →
  Forall (λ r, row_complete r = true) l →
  List.filter row_complete (zip_with (put_cell cols name) (vs ++ [None]) l)
    = zip_with (put_cell cols name) vs l.
Proof.
  revert l. induction vs as [|v vs IH]; intros [|r l] Hlen Hvs Hwf Hl;
    simpl in *; try lia.
  - destruct l; [|simpl in *; lia]. simpl.
    inversion Hwf; inversion Hl; subst.
    by rewrite put_cell_complete.
  - inversion Hvs; inversion Hwf; inversion Hl; subst.
    rewrite put_cell_complete by done.
    match goal with H : isna v = false |- _ => rewrite H end. simpl.
    f_equal. apply IH; [lia|done..].
Qed.

Lemma shift_back_snoc (s : list cell) :
  s ≠ [] → shift_back s = drop 1 s ++ [None].
Proof.
  intros Hs. unfold shift_back. apply take_ge.
  destruct s; [done|]. rewrite length_app, length_drop. simpl. lia.
Qed.

(** The frame left in [data] by the baseline cell: the header gains the
    Target column, the last row is gone, and row [t] is row [t] of the
    input with the Close value of row [t + 1] written as its Target. *)
Lemma add_target_result data cpos :
  well_formed data →
  no_missing data →
  index_of "Close" (columns data) = Some cpos →
  ∃ close,
    get_column data "Close" = Some close
    ∧ length close = len data
    ∧ (∀ t r, rows data !! t = Some r → cells r !! cpos = close !! t)
    ∧ add_target data
        = Some (mkDF (columns (set_column data "Target" (shift_back close)))
                  (zip_with (put_cell (columns data) "Target")
                     (drop 1 close) (rows data))).
Proof.
  intros Hwf Hnm Hc.
  destruct (get_column_Some data "Close" cpos Hwf Hc)
    as (close & Hclose & Hlen & Hlook).
  exists close. repeat (split; [done|]).
  unfold add_target. rewrite Hclose. simpl. unfold dropna.
  rewrite set_column_rows. do 2 f_equal.
  destruct (decide (close = [])) as [->|Hne].
  { simpl in Hlen. unfold len in Hlen. symmetry in Hlen.
    apply length_zero_iff_nil in Hlen. by rewrite Hlen. }
  rewrite shift_back_snoc by done.
  apply filter_put_cell; [| |done..].
  - rewrite length_drop. unfold len in Hlen.
    destruct close; [done|]. simpl in *. lia.
  - apply Forall_lookup. intros i v Hv. rewrite lookup_drop in Hv.
    destruct (lookup_lt_is_Some_2 (rows data) (1 + i)) as [r Hr].
    { apply lookup_lt_Some in Hv. unfold len in Hlen. lia. }
    rewrite <- (Hlook _ _ Hr) in Hv.
    eapply row_complete_lookup; [|exact Hv].
    unfold no_missing in Hnm. rewrite Forall_lookup in Hnm. by eapply Hnm.
Qed.

Lemma with_target_len data close :
  length close = len data → len (with_target data close) = len data - 1.
Proof.
  intros Hlen. unfold with_target, len in *. simpl.
  rewrite length_zip_with, length_drop. lia.
Qed.

Lemma with_target_row data close t :
  length close = len data →
  t + 1 < len data →
  ∃ r v, rows data !! t = Some r
         ∧ close !! (t + 1) = Some v
         ∧ rows (with_target data close) !! t
             = Some (put_cell (columns data) "Target" v r).
Proof.
  intros Hlen Ht. unfold len in *.
  destruct (lookup_lt_is_Some_2 (rows data) t) as [r Hr]; [lia|].
  destruct (lookup_lt_is_Some_2 close (t + 1)) as [v Hv]; [lia|].
  exists r, v. repeat (split; [done|]).
  unfold with_target. simpl. rewrite lookup_zip_with, lookup_drop.
  replace (1 + t) with (t + 1) by lia. by rewrite Hv, Hr.
Qed.

Lemma with_target_well_formed data close :
  well_formed data → well_formed (with_target data close).
Proof.
  intros Hwf. unfold well_formed, with_target. simpl.
  apply Forall_lookup. intros i r' Hr'.
  apply lookup_zip_with_Some in Hr' as (v & r & -> & _ & Hr).
  unfold well_formed in Hwf. rewrite Forall_lookup in Hwf.
  rewrite put_cell_length by by eapply Hwf.
  unfold set_column.
  destruct (index_of "Target" (columns data)); simpl; [done|].
  rewrite length_app. simpl. lia.
Qed.

Lemma window_last data w i :
  0 < w → i + w ≤ len data →
  last (cells <$> take w (drop i (rows data)))
    = cells <$> rows data !! (i + w - 1).
Proof.
  intros Hw Hlen. rewrite last_lookup.
  rewrite length_fmap, length_take, length_drop.
  unfold len in Hlen.
  replace (Init.Nat.pred (w `min` (length (rows data) - i))) with (w - 1)
    by lia.
  rewrite window_lookup by (unfold len; lia).
  f_equal. f_equal. lia.
Qed.

(** C1. Let [data] be the frame left by the baseline cell on a dataset
    without NaN (Target column written from the next row's Close, last row
    dropped).  For every window size [w] with [0 < w < len data],
    [create_sequences data w] succeeds, every row of every sequence has
    one entry per column of [data], the Target column included, and for
    every index [i] the Target entry of the last row of sequence [i] is
    the regression target [y[i]]. *)
Theorem sequences_contain_their_target (data0 : DataFrame) (w : nat) :
  well_formed data0 →
  no_missing data0 →
  is_Some (index_of "Close" (columns data0)) →
  0 < w < len data0 - 1 →
  ∃ data tpos X y,
    add_target data0 = Some data
    ∧ len data = len data0 - 1
    ∧ index_of "Target" (columns data) = Some tpos
    ∧ create_sequences data w = Some (X, y)
    ∧ length X = len data - w
    ∧ ∀ i, i < len data - w →
        ∃ s last_row target,
          X !! i = Some s
          ∧ Forall (λ row, length row = length (columns data)) s
          ∧ last s = Some last_row
          ∧ last_row !! tpos = Some target
          ∧ y !! i = Some target.
Proof.
  intros Hwf Hnm [cpos Hc] Hw.
  destruct (add_target_result data0 cpos Hwf Hnm Hc)
    as (close & Hclose & Hlen & Hlook & Hadd).
  fold (with_target data0 close) in Hadd.
  pose proof (with_target_well_formed data0 close Hwf) as Hwf'.
  pose proof (with_target_len data0 close Hlen) as Hlen'.
  pose proof (λ t, with_target_row data0 close t Hlen) as Hrows.
  assert (Hc' : index_of "Close" (columns (with_target data0 close))
                = Some cpos).
  { unfold with_target. simpl. by rewrite set_column_index_of_other. }
  assert (Ht' : index_of "Target" (columns (with_target data0 close))
                = Some (written_pos (columns data0) "Target"))
    by apply set_column_index_of.
  remember (with_target data0 close) as data eqn:Hdata. clear Hdata.
  destruct (create_sequences_result data w cpos Hwf' Hc')
    as (X & y & Heq & HX & Hy & Hk).
  exists data, (written_pos (columns data0) "Target"), X, y.
  repeat (split; [done|]).
  intros i Hi. destruct (Hk i Hi) as (HXi & r & c & Hr & Hcell & Hyi).
  destruct (Hrows (i + w - 1)) as (r0 & v & Hr0 & Hv & Hrow); [lia|].
  exists (cells <$> take w (drop i (rows data))),
    (cells (put_cell (columns data0) "Target" v r0)), v.
  split; [done|]. split.
  { apply Forall_fmap. eapply Forall_impl.
    - apply Forall_take, Forall_drop, Hwf'.
    - done. }
  split.
  { rewrite window_last by lia. by rewrite Hrow. }
  split.
  { apply put_cell_written.
    unfold well_formed in Hwf. rewrite Forall_lookup in Hwf.
    by eapply Hwf. }
  (* the target is the Close value of row [i + w], which the row before
     it carries in its Target column *)
  rewrite Hyi. f_equal.
  destruct (Hrows (i + w)) as (r1 & v1 & Hr1 & Hv1 & Hrow1); [lia|].
  rewrite Hr in Hrow1. injection Hrow1 as ->.
  rewrite (put_cell_other _ _ _ _ cpos "Close") in Hcell; [|..|done].
  - rewrite (Hlook _ _ Hr1) in Hcell.
    replace (i + w - 1 + 1) with (i + w) in Hv by lia. congruence.
  - unfold well_formed in Hwf. rewrite Forall_lookup in Hwf. by eapply Hwf.
  - done.
Qed.

(** ** Dropping columns *)

Lemma elem_of_select_keep names cols name :
  name ∈ select (keep_mask names cols) cols
  ↔ name ∈ cols ∧ existsb (String.eqb name) names = false.
Proof.
  induction cols as [|c cols IH]; simpl.
  - split; [intros H%elem_of_nil|intros [H%elem_of_nil _]]; done.
  - destruct (existsb (String.eqb c) names) eqn:Hc; simpl.
    + rewrite IH, elem_of_cons. split; [tauto|].
      intros [[->|Hin] Hn]; [congruence|done].
    + rewrite !elem_of_cons, IH. split; [|tauto].
      intros [->|[Hin Hn]]; [split; [by left|done]|split; [by right|done]].
Qed.

Lemma select_row_get names cols (cs : list cell) name :
  length cs = length cols →
  existsb (String.eqb name) names = false →
  (index_of name (select (keep_mask names cols) cols)
     ≫= λ i, select (keep_mask names cols) cs !! i)
  = (index_of name cols ≫= λ i, cs !! i).
Proof.
  intros Hlen Hname. revert cs Hlen.
  induction cols as [|c cols IH]; intros [|x cs] Hlen; simpl in *;
    try done.
  injection Hlen as Hlen. specialize (IH cs Hlen).
  destruct (existsb (String.eqb c) names) eqn:Hc; simpl.
  - destruct (String.eqb_spec name c) as [->|Hne]; [congruence|].
    rewrite IH. by destruct (index_of name cols).
  - destruct (String.eqb_spec name c) as [->|Hne]; [done|].
    destruct (index_of name (select (keep_mask names cols) cols));
      destruct (index_of name cols); simpl in *; done.
Qed.

Lemma drop_columns_Some data names :
  Forall (λ n, is_Some (index_of n (columns data))) names →
  drop_columns data names
    = Some (mkDF (select (keep_mask names (columns data)) (columns data))
              ((λ r, mkRow (date r)
                       (select (keep_mask names (columns data)) (cells r)))
                 <$> rows data)).
Proof.
  intros Hall. unfold drop_columns.
  replace (forallb _ names) with true; [done|].
  symmetry. apply forallb_forall. intros n Hn%list_elem_of_In.
  rewrite Forall_forall in Hall. by apply bool_decide_eq_true_2, Hall.
Qed.

(** C3. In the baseline stage, on a post-normalized dataset (well formed,
    without NaN, with a Close column): the frame keeps every row but the
    last; for every row [t] but the last the target [y[t]] is the Close
    value of row [t + 1]; and the feature row [t] carries the index label
    of row [t] and, for each of its columns, the value row [t] has in that
    column.  The feature columns are the columns of the dataset other than
    Close and Target. *)
Theorem baseline_target_is_next_close (data0 : DataFrame) :
  well_formed data0 →
  no_missing data0 →
  is_Some (index_of "Close" (columns data0)) →
  ∃ data X y,
    add_target data0 = Some data
    ∧ baseline_features data = Some (X, y)
    ∧ len data = len data0 - 1
    ∧ len X = len data0 - 1
    ∧ length y = len data0 - 1
    ∧ (∀ name, name ∈ columns X
         ↔ name ∈ columns data0 ∧ name ≠ "Close" ∧ name ≠ "Target")
    ∧ ∀ t, t + 1 < len data0 →
        ∃ r r_next rX next_close,
          rows data0 !! t = Some r
          ∧ rows data0 !! (t + 1) = Some r_next
          ∧ row_get (columns data0) r_next "Close" = Some next_close
          ∧ y !! t = Some next_close
          ∧ rows X !! t = Some rX
          ∧ date rX = date r
          ∧ ∀ name, name ∈ columns X →
              row_get (columns X) rX name = row_get (columns data0) r name.
Proof.
  intros Hwf Hnm [cpos Hc].
  destruct (add_target_result data0 cpos Hwf Hnm Hc)
    as (close & Hclose & Hlen & Hlook & Hadd).
  fold (with_target data0 close) in Hadd.
  pose proof (with_target_well_formed data0 close Hwf) as Hwf'.
  pose proof (with_target_len data0 close Hlen) as Hlen'.
  pose proof (λ t, with_target_row data0 close t Hlen) as Hrows.
  assert (Hidx : ∀ name, name ≠ "Target" →
            index_of name (columns (with_target data0 close))
              = index_of name (columns data0)).
  { intros name Hne. unfold with_target. simpl.
    by rewrite set_column_index_of_other. }
  assert (Hmem : ∀ name, name ≠ "Target" →
            name ∈ columns (with_target data0 close)
            ↔ name ∈ columns data0).
  { intros name Hne. unfold with_target. simpl.
    by apply set_column_elem_of_other. }
  assert (Ht' : index_of "Target" (columns (with_target data0 close))
                = Some (written_pos (columns data0) "Target"))
    by apply set_column_index_of.
  remember (with_target data0 close) as data eqn:Hdata. clear Hdata.
  assert (Hc' : index_of "Close" (columns data) = Some cpos)
    by by rewrite Hidx.
  destruct (get_column_Some data "Target" _ Hwf' Ht')
    as (y & Hy & Hylen & Hylook).
  assert (HX := drop_columns_Some data ["Close"; "Target"]
                  ltac:(repeat constructor; eauto)).
  eexists data, _, y. split; [done|]. split.
  { unfold baseline_features. rewrite HX. simpl. by rewrite Hy. }
  split; [done|]. split.
  { unfold len at 1. simpl. rewrite length_fmap. exact Hlen'. }
  split; [lia|]. split.
  { intros name. simpl. rewrite elem_of_select_keep. simpl.
    rewrite !orb_false_r, orb_false_iff, !String.eqb_neq.
    split; intros (Hin & HnC & HnT); (split; [|done]).
    - by apply Hmem in Hin.
    - by apply Hmem. }
  intros t Ht.
  destruct (Hrows t Ht) as (r & v & Hr & Hv & Hrow).
  destruct (lookup_lt_is_Some_2 (rows data0) (t + 1)) as [r_next Hrn];
    [unfold len in Ht; lia|].
  assert (Hlr : length (cells r) = length (columns data0)).
  { unfold well_formed in Hwf. rewrite Forall_lookup in Hwf. by eapply Hwf. }
  eexists r, r_next, _, v.
  split; [done|]. split; [done|]. split.
  { unfold row_get. rewrite Hc. simpl. rewrite (Hlook _ _ Hrn). done. }
  split.
  { rewrite <- (Hylook _ _ Hrow). by apply put_cell_written. }
  split.
  { simpl. rewrite list_lookup_fmap, Hrow. done. }
  split.
  { simpl. apply put_cell_date. }
  intros name Hname. simpl in Hname.
  apply elem_of_select_keep in Hname as [Hin Hkeep]. simpl in Hkeep.
  rewrite !orb_false_r, orb_false_iff, !String.eqb_neq in Hkeep.
  destruct Hkeep as [HnC HnT].
  unfold row_get at 1. simpl.
  rewrite select_row_get.
  - rewrite Hidx by done. unfold row_get.
    destruct (index_of name (columns data0)) as [i|] eqn:Hi; simpl; [|done].
    by apply (put_cell_other _ _ _ _ _ name).
  - unfold well_formed in Hwf'. rewrite Forall_lookup in Hwf'.
    by eapply Hwf'.
  - simpl. rewrite !orb_false_r, orb_false_iff, !String.eqb_neq. done.
Qed.

(** ** The row-dropping step *)

Lemma row_complete_spec r :
  row_complete r = true ↔ ∀ c, c ∈ cells r → isna c = false.
Proof.
  unfold row_complete. rewrite forallb_forall. split.
  - intros H c Hc%list_elem_of_In. by apply negb_true_iff, H.
  - intros H c Hc%list_elem_of_In. by apply negb_true_iff, H.
Qed.

Lemma filter_sublist {A} (f : A → bool) (l : list A) :
  sublist (List.filter f l) l.
Proof.
  induction l as [|a l IH]; simpl; [constructor|].
  destruct (f a); by constructor.
Qed.

(** Every selection of complete rows of [l], in the order of [l], is
    found, in that order, among the rows that the filter keeps. *)
Lemma sublist_filter_complete (k l : list Row) :
  sublist k l →
  Forall (λ r, row_complete r = true) k →
  sublist k (List.filter row_complete l).
Proof.
  induction 1 as [|r k l Hs IH|r k l Hs IH]; intros Hk; simpl.
  - constructor.
  - inversion Hk as [|? ? Hr Hk']; subst. rewrite Hr.
    constructor. by apply IH.
  - destruct (row_complete r); [constructor|]; by apply IH.
Qed.

(** C7 (as amended). The row-dropping step keeps the header; it retains
    exactly the rows in which every value, of every column, is a number:
    the retained rows are those rows in their original order, and any
    selection of complete rows of the input, taken in order, is retained
    in that order.  Its output holds no NaN. *)
Theorem dropna_keeps_complete_rows (data : DataFrame) :
  columns (dropna data) = columns data
  ∧ (∀ r, r ∈ rows (dropna data)
        ↔ r ∈ rows data ∧ ∀ c, c ∈ cells r → isna c = false)
  ∧ sublist (rows (dropna data)) (rows data)
  ∧ (∀ k, sublist k (rows data) →
          Forall (λ r, row_complete r = true) k →
          sublist k (rows (dropna data)))
  ∧ no_missing (dropna data).
Proof.
  unfold dropna, no_missing. simpl.
  split; [done|]. split.
  { intros r. rewrite list_elem_of_In, filter_In, <- list_elem_of_In.
    by rewrite row_complete_spec. }
  split; [apply filter_sublist|].
  split; [intros k Hs Hk; by apply sublist_filter_complete|].
  apply Forall_forall. intros r Hr%list_elem_of_In.
  by apply filter_In in Hr as [_ Hr].
Qed.

(** C7 as stated fails: a row of the input in which every indicator value
    is defined, but the volume is not, is dropped. *)
Lemma dropna_drops_row_with_defined_indicators :
  day2 ∈ rows missing_volume_example
  ∧ indicators_defined (columns missing_volume_example) day2 = true
  ∧ (day2 ∉ rows (dropna missing_volume_example))
  ∧ (¬ ∀ r, r ∈ rows missing_volume_example →
          (r ∈ rows (dropna missing_volume_example)
           ↔ indicators_defined (columns missing_volume_example) r = true)).
Proof.
  assert (Hin : day2 ∈ rows missing_volume_example).
  { simpl. apply elem_of_cons. right. apply elem_of_cons. by left. }
  assert (Hout : day2 ∉ rows (dropna missing_volume_example)).
  { simpl. intros H. apply elem_of_cons in H as [H|H]; [discriminate|].
    by apply elem_of_nil in H. }
  split; [done|]. split; [reflexivity|]. split; [done|].
  intros Hall. apply Hout, (Hall day2 Hin). reflexivity.
Qed.

(** ** Train/test splits *)

(** [n - ceil(0.2 n) = floor(0.8 n)] *)
Lemma validate_shuffle_split_sizes n :
  2 ≤ n →
  validate_shuffle_split n (2 # 10)
    = Some (4 * n / 5, n - 4 * n / 5).
Proof.
  intros Hn. unfold validate_shuffle_split.
  change (Qlt_bool 0 (2 # 10) && Qlt_bool (2 # 10) 1) with true.
  cbv beta iota.
  assert (Hceil : Qceiling ((2 # 10) * inject_Z (Z.of_nat n))
                  = (Z.of_nat n - Z.of_nat (4 * n / 5))%Z).
  { unfold Qceiling, Qfloor, Qopp, Qmult, inject_Z. cbn [Qnum Qden].
    rewrite Nat2Z.inj_div, Nat2Z.inj_mul.
    change (Z.pos (10 * 1)) with 10%Z. change (Z.of_nat 4) with 4%Z.
    change (Z.of_nat 5) with 5%Z.
    generalize (Z.of_nat n). intros z. Z.div_mod_to_equations. lia. }
  rewrite Hceil.
  assert (Hk : 4 * n / 5 < n).
  { apply Nat.Div0.div_lt_upper_bound. lia. }
  assert (Hk0 : 0 < 4 * n / 5).
  { apply Nat.div_str_pos. lia. }
  destruct (Z.eqb_spec (Z.of_nat n - (Z.of_nat n - Z.of_nat (4 * n / 5))) 0);
    [lia|].
  f_equal. f_equal; lia.
Qed.

(** [int(n * 0.8) = floor(0.8 n)] *)
Lemma train_size_of_floor n : train_size_of n = 4 * n / 5.
Proof.
  unfold train_size_of, py_int, Qmult, inject_Z. cbn [Qnum Qden].
  rewrite Z.quot_div_nonneg by lia.
  apply Nat2Z.inj. rewrite Z2Nat.id by (apply Z.div_pos; lia).
  rewrite Nat2Z.inj_div, Nat2Z.inj_mul.
  change (Z.pos (1 * 10)) with 10%Z. change (Z.of_nat 4) with 4%Z.
  change (Z.of_nat 5) with 5%Z.
  generalize (Z.of_nat n). intros z. Z.div_mod_to_equations. lia.
Qed.

(** A prefix split keeps the order: whatever is in the prefix stands, in
    the whole, before whatever is in the rest. *)
Lemma prefix_split_order {A} (X : list A) k i j a b :
  take k X !! i = Some a → drop k X !! j = Some b →
  ∃ p q, p < q ∧ X !! p = Some a ∧ X !! q = Some b.
Proof.
  intros Ha Hb. exists i, (k + j).
  apply lookup_take_Some in Ha as [Ha Hi].
  rewrite lookup_drop in Hb. split; [lia|done].
Qed.

(** C9. Both kinds of split are chronological prefix splits.  The baseline
    call [train_test_split(X, y, test_size=0.2, shuffle=False)], on at
    least two samples, returns the first [floor(0.8 n)] samples as the
    training set and all the remaining ones, in order, as the test set.
    The sequence cells put the first [floor(0.8 n)] sequences in the
    training set and the rest in the test set.  Hence the training set
    followed by the test set is the data, every training example stands
    before every test example, and, when the rows are in chronological
    order, every training row is dated before every test row. *)
Theorem splits_are_chronological_prefixes
    {A B} (X : list A) (y : list B) :
  length X = length y →
  let k := 4 * length X / 5 in
  (2 ≤ length X →
   train_test_split X y (2 # 10)
     = Some (take k X, drop k X, take k y, drop k y))
  ∧ split_sequences X y = (take k X, drop k X, take k y, drop k y)
  ∧ take k X ++ drop k X = X
  ∧ take k y ++ drop k y = y
  ∧ (∀ i j a b, take k X !! i = Some a → drop k X !! j = Some b →
       ∃ p q, p < q ∧ X !! p = Some a ∧ X !! q = Some b)
  ∧ (∀ rows_of : A → Row, chronological (rows_of <$> X) →
       ∀ a b, a ∈ take k X → b ∈ drop k X →
         (date (rows_of a) < date (rows_of b))%Z).
Proof.
  intros Hlen k. split.
  { intros Hn. unfold train_test_split.
    rewrite Hlen, Nat.eqb_refl, <- Hlen.
    rewrite validate_shuffle_split_sizes by done.
    cbn [mbind option_bind fst snd]. fold k.
    assert (Hk : k ≤ length X) by (apply Nat.Div0.div_le_upper_bound; lia).
    rewrite (take_ge (drop k X)), (take_ge (drop k y));
      [done|rewrite length_drop; lia..]. }
  split.
  { unfold split_sequences. by rewrite train_size_of_floor. }
  split; [apply take_drop|]. split; [apply take_drop|].
  split; [intros i j a b; apply prefix_split_order|].
  intros rows_of Hchron a b Ha Hb.
  apply list_elem_of_lookup in Ha as [i Ha], Hb as [j Hb].
  destruct (prefix_split_order X k i j a b Ha Hb) as (p & q & Hpq & Hp & Hq).
  apply (Hchron p q); [done|by rewrite list_lookup_fmap, Hp
                         |by rewrite list_lookup_fmap, Hq].
Qed.

(** ** Hyper-parameter search *)

Section GridSearchProperties.

Variable train_lstm train_gru :
  list window → list cell → list window → list cell →
  nat → nat → Q → option cell.

(** Training and evaluation return a score whenever both the training set
    and the test set hold at least one sequence. *)
Hypothesis train_lstm_returns :
  ∀ X_train y_train X_test y_test u b lr,
    X_train ≠ [] → X_test ≠ [] →
    is_Some (train_lstm X_train y_train X_test y_test u b lr).
Hypothesis train_gru_returns :
  ∀ X_train y_train X_test y_test u b lr,
    X_train ≠ [] → X_test ≠ [] →
    is_Some (train_gru X_train y_train X_test y_test u b lr).

Lemma split_sequences_nonempty {A B} (X : list A) (y : list B) :
  2 ≤ length X →
  ∃ X_train X_test y_train y_test,
    split_sequences X y = (X_train, X_test, y_train, y_test)
    ∧ X_train ≠ [] ∧ X_test ≠ [].
Proof.
  intros Hn. unfold split_sequences. rewrite train_size_of_floor.
  do 4 eexists. split; [done|].
  assert (Hk : 4 * length X / 5 < length X)
    by (apply Nat.Div0.div_lt_upper_bound; lia).
  assert (Hk0 : 0 < 4 * length X / 5) by (apply Nat.div_str_pos; lia).
  split; intros Hnil; apply (f_equal length) in Hnil.
  - rewrite length_take in Hnil. cbn [length] in Hnil. lia.
  - rewrite length_drop in Hnil. cbn [length] in Hnil. lia.
Qed.

(** One pass per combination: the sequences of its window are built and
    split, both networks are trained and evaluated on that split with the
    units, batch size and learning rate of the combination, and two
    entries are appended, an LSTM entry and a GRU entry that hold the
    hyper-parameters and the two scores. *)
Lemma grid_search_loop_spec data combos results :
  well_formed data →
  is_Some (index_of "Close" (columns data)) →
  Forall (λ c : nat * nat * nat * Q, c.1.1.1 + 2 ≤ len data) combos →
  ∃ new,
    grid_search_loop train_lstm train_gru data combos results
      = Some (results ++ new)
    ∧ config_of <$> new = combos ≫= configs_of_combo
    ∧ ∀ k w u b lr,
        combos !! k = Some (w, u, b, lr) →
        ∃ X y lstm_mse gru_mse,
          create_sequences data w = Some (X, y)
          ∧ (let '(X_train, X_test, y_train, y_test) := split_sequences X y in
             train_lstm X_train y_train X_test y_test u b lr = Some lstm_mse
             ∧ train_gru X_train y_train X_test y_test u b lr = Some gru_mse)
          ∧ new !! (2 * k) = Some (mkResult "LSTM" w u b lr lstm_mse)
          ∧ new !! (2 * k + 1) = Some (mkResult "GRU" w u b lr gru_mse).
Proof using train_lstm_returns train_gru_returns.
  intros Hwf [cpos Hc]. revert results.
  induction combos as [|[[[w u] b] lr] combos IH]; intros results Hall.
  - exists []. rewrite app_nil_r. split; [done|]. split; [done|].
    intros k ? ? ? ? Hk. by rewrite lookup_nil in Hk.
  - inversion Hall as [|? ? Hw Hall']; subst. simpl in Hw.
    destruct (create_sequences_result data w cpos Hwf Hc)
      as (X & y & Heq & HX & Hy & _).
    destruct (split_sequences_nonempty X y)
      as (X_train & X_test & y_train & y_test & Hsplit & Htr & Hte); [lia|].
    destruct (train_lstm_returns X_train y_train X_test y_test u b lr Htr Hte)
      as [lstm_mse Hl].
    destruct (train_gru_returns X_train y_train X_test y_test u b lr Htr Hte)
      as [gru_mse Hg].
    cbn [grid_search_loop]. rewrite Heq. cbn [mbind option_bind fst snd].
    rewrite Hsplit, Hl, Hg. cbn [mbind option_bind].
    destruct (IH ((results ++ [mkResult "LSTM" w u b lr lstm_mse])
                    ++ [mkResult "GRU" w u b lr gru_mse]) Hall')
      as (new & Hnew & Hcfg & Hruns).
    exists (mkResult "LSTM" w u b lr lstm_mse
              :: mkResult "GRU" w u b lr gru_mse :: new).
    rewrite Hnew, <- !app_assoc. split; [done|]. split.
    { cbn [fmap list_fmap]. cbn [mbind list_bind]. rewrite Hcfg.
      reflexivity. }
    intros [|k] w' u' b' lr' Hk.
    + injection Hk as <- <- <- <-.
      exists X, y, lstm_mse, gru_mse. split; [exact Heq|].
      rewrite Hsplit. by split.
    + destruct (Hruns k w' u' b' lr' Hk)
        as (X' & y' & l' & g' & H1 & H2 & H3 & H4).
      exists X', y', l', g'. split; [exact H1|]. split; [exact H2|].
      replace (2 * S k) with (S (S (2 * k))) by lia.
      replace (S (S (2 * k)) + 1) with (S (S (2 * k + 1))) by lia.
      by split.
Qed.

Lemma count_config_fmap c results :
  count_config c results
    = length (List.filter (config_eqb c) (config_of <$> results)).
Proof.
  unfold count_config. induction results as [|r results IH]; [done|].
  cbn [fmap list_fmap List.filter]. fold (fmap config_of results).
  destruct (config_eqb c (config_of r)); simpl; by rewrite IH.
Qed.

(** C8. On a frame with a Close column and at least 32 rows, with training
    calls that return, the search returns a results table of exactly 72
    entries.  Every one of the 36 combinations of window size, units,
    batch size and learning rate is evaluated, in the order of the
    Cartesian product: for combination number [k] the sequences of its
    window size are built and split, the LSTM and the GRU network are
    trained and evaluated on that split with the units, batch size and
    learning rate of the combination, and entries [2k] and [2k + 1] of the
    table are the LSTM and the GRU entry with these hyper-parameters and
    the two scores obtained.  Hence each of the two architectures has
    exactly one entry for every combination. *)
Theorem grid_search_evaluates_every_combination_once (data : DataFrame) :
  well_formed data →
  is_Some (index_of "Close" (columns data)) →
  32 ≤ len data →
  ∃ results,
    grid_search train_lstm train_gru data = Some results
    ∧ length results = 72
    ∧ length hyperparameters = 36
    ∧ config_of <$> results = hyperparameters ≫= configs_of_combo
    ∧ (∀ m w u b lr,
        m ∈ ["LSTM"; "GRU"] → w ∈ window_sizes → u ∈ units_options →
        b ∈ batch_sizes → lr ∈ learning_rates →
        count_config (m, w, u, b, lr) results = 1)
    ∧ ∀ k w u b lr,
        hyperparameters !! k = Some (w, u, b, lr) →
        ∃ X y lstm_mse gru_mse,
          create_sequences data w = Some (X, y)
          ∧ (let '(X_train, X_test, y_train, y_test) := split_sequences X y in
             train_lstm X_train y_train X_test y_test u b lr = Some lstm_mse
             ∧ train_gru X_train y_train X_test y_test u b lr = Some gru_mse)
          ∧ results !! (2 * k) = Some (mkResult "LSTM" w u b lr lstm_mse)
          ∧ results !! (2 * k + 1) = Some (mkResult "GRU" w u b lr gru_mse).
Proof using train_lstm_returns train_gru_returns.
  intros Hwf Hc Hlen.
  destruct (grid_search_loop_spec data hyperparameters [] Hwf Hc)
    as (results & Hres & Hcfg & Hruns).
  { apply Forall_forall. intros [[[w u] b] lr] Hin. simpl.
    assert (w ≤ 30); [|lia].
    unfold hyperparameters, product4 in Hin.
    repeat (apply list_elem_of_bind in Hin as (? & Hin & ?)).
    apply list_elem_of_singleton in Hin. injection Hin as -> -> -> ->.
    match goal with H : _ ∈ window_sizes |- _ =>
      unfold window_sizes in H;
      repeat (apply elem_of_cons in H as [->|H]; [lia|]);
      by apply elem_of_nil in H
    end. }
  exists results. split; [exact Hres|].
  split.
  { rewrite <- (length_fmap config_of), Hcfg. reflexivity. }
  split; [reflexivity|]. split; [exact Hcfg|].
  split; [|exact Hruns].
  intros m w u b lr Hm Hw Hu Hb Hlr.
  rewrite count_config_fmap, Hcfg.
  unfold window_sizes, units_options, batch_sizes, learning_rates in *.
  repeat match goal with
         | H : _ ∈ _ :: _ |- _ => apply elem_of_cons in H as [->|H]
         | H : _ ∈ [] |- _ => by apply elem_of_nil in H
         end; reflexivity.
Qed.

End GridSearchProperties.

(** ** The min-max scaler *)

Section ScalerArithmetic.

#[local] Open Scope Q_scope.

Lemma handle_zeros_pos d : 0 < d → handle_zeros_in_scale d = d.
Proof.
  intros Hd. unfold handle_zeros_in_scale.
  destruct (Qeq_bool d 0) eqn:E; [|done].
  apply Qeq_bool_eq in E. lra.
Qed.

Lemma scaled_value lo hi x :
  lo < hi →
  x * (1 / (hi - lo)) + (0 - lo * (1 / (hi - lo))) == (x - lo) / (hi - lo).
Proof. intros H. field. lra. Qed.

Lemma scaled_in_unit_interval lo hi x :
  lo < hi → lo <= x <= hi → 0 <= (x - lo) / (hi - lo) <= 1.
Proof.
  intros H [Hl Hh]. split.
  - apply Qle_shift_div_l; lra.
  - apply Qle_shift_div_r; lra.
Qed.

Lemma unscaled_value lo hi y :
  lo < hi →
  (y - (0 - lo * (1 / (hi - lo)))) / (1 / (hi - lo)) == y * (hi - lo) + lo.
Proof. intros H. field. lra. Qed.

Lemma scale_roundtrip lo hi x :
  lo < hi → (x - lo) / (hi - lo) * (hi - lo) + lo == x.
Proof. intros H. field. lra. Qed.

(** The extremum that skips NaN: it bounds every number of the list and
    is one of them. *)
Lemma nanmin_Some xs lo :
  nanmin xs = Some lo →
  (∃ x, Some x ∈ xs ∧ x == lo) ∧ ∀ x, Some x ∈ xs → lo <= x.
Proof.
  revert lo. unfold nanmin.
  induction xs as [|[a|] xs IH]; intros lo; cbn [nan_fold foldr].
  - done.
  - fold (nan_fold Qmin xs). destruct (nan_fold Qmin xs) as [m|] eqn:Hm.
    + intros [= <-]. destruct (IH m eq_refl) as [(x & Hx & Hxm) Hall].
      split.
      * destruct (Q.min_spec a m) as [[_ E]|[_ E]].
        -- exists a. split; [left|by symmetry].
        -- exists x. split; [by right|]. by rewrite E.
      * intros y [[= ->]|Hy]%elem_of_cons.
        -- apply Q.le_min_l.
        -- eapply Qle_trans; [apply Q.le_min_r|by apply Hall].
    + intros [= <-]. split.
      * exists a. split; [left|reflexivity].
      * intros y [[= ->]|Hy]%elem_of_cons; [apply Qle_refl|].
        exfalso. clear IH. induction xs as [|[b|] xs IH'].
        -- by apply elem_of_nil in Hy.
        -- cbn [nan_fold foldr] in Hm. fold (nan_fold Qmin xs) in Hm.
           by destruct (nan_fold Qmin xs).
        -- apply elem_of_cons in Hy as [[=]|Hy]. by apply IH'.
  - fold (nan_fold Qmin xs). intros Hm.
    destruct (IH lo Hm) as [(x & Hx & Hxm) Hall]. split.
    + exists x. split; [by right|done].
    + intros y [[=]|Hy]%elem_of_cons. by apply Hall.
Qed.

Lemma nanmax_Some xs hi :
  nanmax xs = Some hi →
  (∃ x, Some x ∈ xs ∧ x == hi) ∧ ∀ x, Some x ∈ xs → x <= hi.
Proof.
  revert hi. unfold nanmax.
  induction xs as [|[a|] xs IH]; intros hi; cbn [nan_fold foldr].
  - done.
  - fold (nan_fold Qmax xs). destruct (nan_fold Qmax xs) as [m|] eqn:Hm.
    + intros [= <-]. destruct (IH m eq_refl) as [(x & Hx & Hxm) Hall].
      split.
      * destruct (Q.max_spec a m) as [[_ E]|[_ E]].
        -- exists x. split; [by right|]. by rewrite E.
        -- exists a. split; [left|by symmetry].
      * intros y [[= ->]|Hy]%elem_of_cons.
        -- apply Q.le_max_l.
        -- eapply Qle_trans; [by apply Hall|apply Q.le_max_r].
    + intros [= <-]. split.
      * exists a. split; [left|reflexivity].
      * intros y [[= ->]|Hy]%elem_of_cons; [apply Qle_refl|].
        exfalso. clear IH. induction xs as [|[b|] xs IH'].
        -- by apply elem_of_nil in Hy.
        -- cbn [nan_fold foldr] in Hm. fold (nan_fold Qmax xs) in Hm.
           by destruct (nan_fold Qmax xs).
        -- apply elem_of_cons in Hy as [[=]|Hy]. by apply IH'.
  - fold (nan_fold Qmax xs). intros Hm.
    destruct (IH hi Hm) as [(x & Hx & Hxm) Hall]. split.
    + exists x. split; [by right|done].
    + intros y [[=]|Hy]%elem_of_cons. by apply Hall.
Qed.

Lemma nan_fold_is_Some f xs x : Some x ∈ xs → is_Some (nan_fold f xs).
Proof.
  induction xs as [|[a|] xs IH]; cbn [nan_fold foldr].
  - by intros ?%elem_of_nil.
  - intros _. fold (nan_fold f xs). destruct (nan_fold f xs); eauto.
  - intros [[=]|Hx]%elem_of_cons. by apply IH.
Qed.

(** A column with two distinct numbers has its minimum below its
    maximum. *)
Lemma distinct_values_range xs a b :
  Some a ∈ xs → Some b ∈ xs → ¬ a == b →
  ∃ lo hi, nanmin xs = Some lo ∧ nanmax xs = Some hi ∧ lo < hi.
Proof.
  intros Ha Hb Hab.
  destruct (nan_fold_is_Some Qmin xs a Ha) as [lo Hlo].
  destruct (nan_fold_is_Some Qmax xs a Ha) as [hi Hhi].
  exists lo, hi. split; [done|]. split; [done|].
  destruct (nanmin_Some xs lo Hlo) as [_ Hmin].
  destruct (nanmax_Some xs hi Hhi) as [_ Hmax].
  pose proof (Hmin a Ha). pose proof (Hmin b Hb).
  pose proof (Hmax a Ha). pose proof (Hmax b Hb).
  destruct (Qlt_le_dec lo hi) as [|Hle]; [done|].
  exfalso. apply Hab. lra.
Qed.

End ScalerArithmetic.

Lemma fit_Some X m :
  X ≠ [] → 0 < m →
  Forall (λ row : list cell, length row = m) X →
  ∃ scaler,
    fit X = Some scaler
    ∧ length (scale_ scaler) = m
    ∧ length (min_ scaler) = m
    ∧ ∀ j, j < m →
        let lo := nanmin (column j X) in
        let hi := nanmax (column j X) in
        let s := cell_div (Some 1%Q)
                   (cell_map handle_zeros_in_scale (cell_sub hi lo)) in
        data_min_ scaler !! j = Some lo
        ∧ data_max_ scaler !! j = Some hi
        ∧ scale_ scaler !! j = Some s
        ∧ min_ scaler !! j = Some (cell_sub (Some 0%Q) (cell_mul lo s)).
Proof.
  intros HX Hm Hrect. destruct X as [|row0 X']; [done|].
  assert (Hrow0 : length row0 = m) by by inversion Hrect.
  unfold fit. rewrite Hrow0.
  destruct (Nat.eqb_spec m 0) as [|_]; [lia|].
  eexists. split; [done|]. cbn [scale_ min_ data_min_ data_max_].
  set (X := row0 :: X') in *.
  split.
  { by rewrite length_fmap, length_zip_with, !length_fmap, length_seq,
      Nat.min_id. }
  split.
  { rewrite length_zip_with, !length_fmap, length_zip_with, !length_fmap,
      length_seq. lia. }
  intros j Hj. cbn zeta.
  assert (Hmin : ((λ j, nanmin (column j X)) <$> seq 0 m) !! j
                 = Some (nanmin (column j X))).
  { by rewrite list_lookup_fmap, lookup_seq_lt. }
  assert (Hmax : ((λ j, nanmax (column j X)) <$> seq 0 m) !! j
                 = Some (nanmax (column j X))).
  { by rewrite list_lookup_fmap, lookup_seq_lt. }
  split; [done|]. split; [done|].
  assert (Hs : ((λ r, cell_div (Some 1%Q) (cell_map handle_zeros_in_scale r))
                  <$> zip_with cell_sub
                        ((λ j, nanmax (column j X)) <$> seq 0 m)
                        ((λ j, nanmin (column j X)) <$> seq 0 m)) !! j
               = Some (cell_div (Some 1%Q)
                         (cell_map handle_zeros_in_scale
                            (cell_sub (nanmax (column j X))
                               (nanmin (column j X)))))).
  { by rewrite list_lookup_fmap, lookup_zip_with, Hmax, Hmin. }
  split; [done|].
  by rewrite lookup_zip_with, Hmin, Hs.
Qed.

Lemma column_lookup (X : array2) m j i c :
  Forall (λ row : list cell, length row = m) X → j < m →
  column j X !! i = Some c ↔ ∃ row, X !! i = Some row ∧ row !! j = Some c.
Proof.
  intros Hrect Hj. unfold column. rewrite list_lookup_fmap.
  rewrite Forall_lookup in Hrect. split.
  - destruct (X !! i) as [row|] eqn:Hrow; simpl; [|done].
    destruct (lookup_lt_is_Some_2 row j) as [c' Hc'].
    { rewrite (Hrect _ _ Hrow). done. }
    rewrite Hc'. simpl. intros [= <-]. eauto.
  - intros (row & -> & Hc). simpl. by rewrite Hc.
Qed.

Lemma transform_rect scaler X m :
  length (scale_ scaler) = m → length (min_ scaler) = m →
  Forall (λ row : list cell, length row = m) X →
  Forall (λ row : list cell, length row = m) (transform scaler X).
Proof.
  intros Hs Hm Hrect. unfold transform. apply Forall_fmap.
  eapply Forall_impl; [exact Hrect|]. intros row Hrow. simpl in *.
  rewrite !length_zip_with. lia.
Qed.

Lemma inverse_transform_rect scaler X m :
  length (scale_ scaler) = m → length (min_ scaler) = m →
  Forall (λ row : list cell, length row = m) X →
  Forall (λ row : list cell, length row = m) (inverse_transform scaler X).
Proof.
  intros Hs Hm Hrect. unfold inverse_transform. apply Forall_fmap.
  eapply Forall_impl; [exact Hrect|]. intros row Hrow. simpl in *.
  rewrite !length_zip_with. lia.
Qed.

Lemma transform_entry scaler X m j i c s mn :
  Forall (λ row : list cell, length row = m) X → j < m →
  scale_ scaler !! j = Some s → min_ scaler !! j = Some mn →
  column j X !! i = Some c →
  column j (transform scaler X) !! i = Some (cell_add (cell_mul c s) mn).
Proof.
  intros Hrect Hj Hs Hmn Hc.
  apply (column_lookup X m) in Hc as (row & Hrow & Hc); [|done..].
  unfold column, transform. rewrite !list_lookup_fmap, Hrow. simpl.
  by rewrite !lookup_zip_with, Hc, Hs, Hmn.
Qed.

Lemma inverse_transform_entry scaler X m j i c s mn :
  Forall (λ row : list cell, length row = m) X → j < m →
  scale_ scaler !! j = Some s → min_ scaler !! j = Some mn →
  column j X !! i = Some c →
  column j (inverse_transform scaler X) !! i
    = Some (cell_div (cell_sub c mn) s).
Proof.
  intros Hrect Hj Hs Hmn Hc.
  apply (column_lookup X m) in Hc as (row & Hrow & Hc); [|done..].
  unfold column, inverse_transform. rewrite !list_lookup_fmap, Hrow. simpl.
  by rewrite !lookup_zip_with, Hc, Hmn, Hs.
Qed.

(** The fitted scaler and the transformed table, for a column whose
    observed minimum [lo] is below its observed maximum [hi]. *)
Lemma fit_transform_column X m j lo hi :
  Forall (λ row : list cell, length row = m) X → j < m →
  nanmin (column j X) = Some lo → nanmax (column j X) = Some hi →
  (lo < hi)%Q →
  let s := (1 / (hi - lo))%Q in
  let mn := (0 - lo * s)%Q in
  ∃ scaler X',
    fit_transform X = Some (scaler, X')
    ∧ X' = transform scaler X
    ∧ length X' = length X
    ∧ Forall (λ row : list cell, length row = m) X'
    ∧ data_min_ scaler !! j = Some (Some lo)
    ∧ data_max_ scaler !! j = Some (Some hi)
    ∧ scale_ scaler !! j = Some (Some s)
    ∧ min_ scaler !! j = Some (Some mn).
Proof.
  intros Hrect Hj Hlo Hhi Hlt s mn.
  assert (HX : X ≠ []) by (by intros ->).
  destruct (fit_Some X m HX ltac:(lia) Hrect)
    as (scaler & Hfit & Hls & Hlm & Hattr).
  destruct (Hattr j Hj) as (Hmin & Hmax & Hscale & Hmn). clear Hattr.
  rewrite Hlo, Hhi in *. cbn [cell_sub cell_map cell_div cell_mul lift2] in *.
  rewrite handle_zeros_pos in * by lra.
  exists scaler, (transform scaler X).
  unfold fit_transform. rewrite Hfit. simpl.
  split; [done|]. split; [done|].
  split; [unfold transform; by rewrite length_fmap|].
  split; [by apply transform_rect|]. done.
Qed.

(** The normalizer cell wraps the scaled array in the header and the
    index of its input. *)
Lemma normalize_Some apple_data scaler X' :
  fit_transform (values apple_data) = Some (scaler, X') →
  length X' = len apple_data →
  ∃ normalized_data,
    normalize apple_data = Some (scaler, normalized_data)
    ∧ columns normalized_data = columns apple_data
    ∧ date <$> rows normalized_data = date <$> rows apple_data
    ∧ values normalized_data = X'.
Proof.
  intros Hft Hlen. exists (with_values apple_data X').
  unfold normalize. rewrite Hft. simpl. split; [done|]. split; [done|].
  unfold values, with_values, len in *. simpl. split.
  - clear Hft. revert X' Hlen.
    induction (rows apple_data) as [|r l IH]; intros [|v X'] Hlen;
      simpl in *; try done.
    f_equal. apply IH. lia.
  - apply fmap_zip_with_r; [done|lia].
Qed.

Lemma values_rectangular data :
  well_formed data →
  Forall (λ row : list cell, length row = length (columns data)) (values data).
Proof. intros Hwf. unfold values. by apply Forall_fmap. Qed.

(** C5. Let a column of the loaded table hold at least two distinct
    numbers.  Then the normalizer cell returns; its output has the header
    and the index of its input; the fitted minimum [lo] and maximum [hi]
    of the column are its least and greatest number; and every entry of
    the column is scaled into [[0, 1]]: a number [x] becomes
    [(x - lo) / (hi - lo)], which lies between 0 and 1, is 0 for the
    minimum and 1 for the maximum; a missing entry stays missing.
    (Numbers are exact rationals.) *)
Theorem minmax_scaled_in_unit_interval (apple_data : DataFrame) (j : nat) :
  well_formed apple_data →
  j < length (columns apple_data) →
  (∃ a b, Some a ∈ column j (values apple_data)
          ∧ Some b ∈ column j (values apple_data) ∧ ¬ (a == b)%Q) →
  ∃ scaler normalized_data lo hi,
    normalize apple_data = Some (scaler, normalized_data)
    ∧ columns normalized_data = columns apple_data
    ∧ date <$> rows normalized_data = date <$> rows apple_data
    ∧ data_min_ scaler !! j = Some (Some lo)
    ∧ data_max_ scaler !! j = Some (Some hi)
    ∧ (∀ x, Some x ∈ column j (values apple_data) → (lo <= x <= hi)%Q)
    ∧ (∃ x, Some x ∈ column j (values apple_data) ∧ (x == lo)%Q)
    ∧ (∃ x, Some x ∈ column j (values apple_data) ∧ (x == hi)%Q)
    ∧ ∀ i, i < len apple_data →
        match column j (values apple_data) !! i with
        | Some (Some x) =>
            ∃ y, column j (values normalized_data) !! i = Some (Some y)
                 ∧ (0 <= y <= 1)%Q
                 ∧ (y == (x - lo) / (hi - lo))%Q
                 ∧ ((x == lo)%Q → (y == 0)%Q)
                 ∧ ((x == hi)%Q → (y == 1)%Q)
        | _ => column j (values normalized_data) !! i = Some None
        end.
Proof.
  intros Hwf Hj (a & b & Ha & Hb & Hab).
  pose proof (values_rectangular apple_data Hwf) as Hrect.
  destruct (distinct_values_range _ a b Ha Hb Hab)
    as (lo & hi & Hlo & Hhi & Hlt).
  destruct (fit_transform_column _ _ j lo hi Hrect Hj Hlo Hhi Hlt)
    as (scaler & X' & Hft & HX' & Hlen & Hrect' & Hmin & Hmax & Hs & Hmn).
  destruct (normalize_Some apple_data scaler X' Hft)
    as (normalized_data & Hnorm & Hcols & Hdates & Hvals).
  { rewrite Hlen. unfold values, len. by rewrite length_fmap. }
  destruct (nanmin_Some _ _ Hlo) as [Hlo_in Hlo_le].
  destruct (nanmax_Some _ _ Hhi) as [Hhi_in Hhi_le].
  exists scaler, normalized_data, lo, hi.
  repeat (split; [done|]).
  split; [intros x Hx; split; [by apply Hlo_le|by apply Hhi_le]|].
  split; [done|]. split; [done|].
  intros i Hi. rewrite Hvals, HX'.
  destruct (lookup_lt_is_Some_2 (column j (values apple_data)) i) as [c Hc].
  { unfold column, values, len in *. by rewrite !length_fmap. }
  rewrite Hc.
  rewrite (transform_entry scaler _ _ j i c _ _ Hrect Hj Hs Hmn Hc).
  destruct c as [x|]; [|done].
  cbn [cell_add cell_mul lift2].
  eexists. split; [done|].
  assert (Hx : (lo <= x <= hi)%Q).
  { split; [apply Hlo_le|apply Hhi_le];
      by eapply list_elem_of_lookup_2. }
  pose proof (scaled_value lo hi x Hlt) as Hval.
  pose proof (scaled_in_unit_interval lo hi x Hlt Hx) as Hint.
  rewrite Hval. split; [done|]. split; [reflexivity|].
  split; intros Heq; rewrite Heq; field; lra.
Qed.

(** C6. For a column of the loaded table whose observed minimum [lo] is
    strictly below its observed maximum [hi], undoing the scaling with the
    stored minimum and maximum recovers the data: for every entry,
    [x' * (hi - lo) + lo], with [x'] the scaled value, is the original
    value, and this is what [inverse_transform] computes on the
    normalized values; a missing entry stays missing.  (Numbers are exact
    rationals, compared as rationals.) *)
Theorem minmax_inverse_recovers_input
    (apple_data : DataFrame) (j : nat) (lo hi : Q) :
  well_formed apple_data →
  j < length (columns apple_data) →
  nanmin (column j (values apple_data)) = Some lo →
  nanmax (column j (values apple_data)) = Some hi →
  (lo < hi)%Q →
  ∃ scaler normalized_data,
    normalize apple_data = Some (scaler, normalized_data)
    ∧ data_min_ scaler !! j = Some (Some lo)
    ∧ data_max_ scaler !! j = Some (Some hi)
    ∧ length (inverse_transform scaler (values normalized_data))
        = len apple_data
    ∧ ∀ i, i < len apple_data →
        ∃ c c' c'',
          column j (values apple_data) !! i = Some c
          ∧ column j (values normalized_data) !! i = Some c'
          ∧ column j (inverse_transform scaler (values normalized_data)) !! i
              = Some c''
          ∧ cell_eq (cell_add (cell_mul c' (Some (hi - lo)%Q)) (Some lo)) c
          ∧ cell_eq c'' c.
Proof.
  intros Hwf Hj Hlo Hhi Hlt.
  pose proof (values_rectangular apple_data Hwf) as Hrect.
  destruct (fit_transform_column _ _ j lo hi Hrect Hj Hlo Hhi Hlt)
    as (scaler & X' & Hft & HX' & Hlen & Hrect' & Hmin & Hmax & Hs & Hmn).
  assert (Hlen' : length X' = len apple_data).
  { rewrite Hlen. unfold values, len. by rewrite length_fmap. }
  destruct (normalize_Some apple_data scaler X' Hft Hlen')
    as (normalized_data & Hnorm & Hcols & Hdates & Hvals).
  exists scaler, normalized_data. repeat (split; [done|]).
  rewrite Hvals. split.
  { unfold inverse_transform. by rewrite length_fmap. }
  intros i Hi.
  destruct (lookup_lt_is_Some_2 (column j (values apple_data)) i) as [c Hc].
  { unfold column, values, len in *. by rewrite !length_fmap. }
  pose proof (transform_entry scaler _ _ j i c _ _ Hrect Hj Hs Hmn Hc)
    as Hc'.
  rewrite <- HX' in Hc'.
  pose proof (inverse_transform_entry scaler _ _ j i _ _ _ Hrect' Hj
                Hs Hmn Hc') as Hc''.
  eexists c, _, _. split; [done|]. split; [exact Hc'|].
  split; [exact Hc''|].
  destruct c as [x|]; cbn [cell_add cell_mul cell_sub cell_div lift2 cell_eq];
    [|done].
  split.
  - rewrite scaled_value by done. by apply scale_roundtrip.
  - rewrite unscaled_value by done. rewrite scaled_value by done.
    by apply scale_roundtrip.
Qed.

(** ** Series operations *)

Lemma shift_length s : length (shift s) = length s.
Proof. unfold shift. rewrite length_take. simpl. lia. Qed.

Lemma shift_lookup_0 s : s ≠ [] → shift s !! 0 = Some None.
Proof. destruct s; [done|]. intros _. reflexivity. Qed.

Lemma shift_lookup_S s k : S k < length s → shift s !! S k = s !! k.
Proof. intros Hk. unfold shift. by rewrite lookup_take_lt by lia. Qed.

Lemma max_axis1_length a b c :
  length a = length b → length b = length c →
  length (max_axis1 a b c) = length a.
Proof.
  revert b c. induction a as [|x a IH]; intros [|y b] [|z c]; simpl;
    try done.
  intros [= Hab] [= Hbc]. by rewrite IH.
Qed.

Lemma max_axis1_lookup a b c k x y z :
  a !! k = Some x → b !! k = Some y → c !! k = Some z →
  max_axis1 a b c !! k = Some (nanmax [x; y; z]).
Proof.
  revert a b c. induction k as [|k IH]; intros [|x' a] [|y' b] [|z' c];
    try done; simpl.
  - by intros [= ->] [= ->] [= ->].
  - apply IH.
Qed.

Lemma observed_defined (l : list Q) : observed (Some <$> l) = l.
Proof.
  unfold observed. induction l as [|x l IH]; [done|].
  cbn. unfold observed in IH. by rewrite IH.
Qed.

(** The rolling mean of a series without NaN: NaN until the window is
    full, then the sum of the window over its size. *)
Lemma rolling_mean_defined w (l : list Q) t :
  0 < w → t < length l →
  rolling_mean w (Some <$> l) !! t
    = Some (if S t <? w then None
            else Some (Qsum (drop (S t - w) (take (S t) l))
                       / inject_Z (Z.of_nat w))%Q).
Proof.
  intros Hw Ht. unfold rolling_mean.
  rewrite list_lookup_fmap, lookup_seq_lt by (by rewrite length_fmap).
  simpl. f_equal. unfold rolling_window, window_mean.
  rewrite <- fmap_take, <- fmap_drop, observed_defined.
  rewrite length_drop, length_take.
  destruct (Nat.ltb_spec (S t) w) as [Hlt|Hge].
  - destruct (Nat.ltb_spec (S t `min` length l - (S t - w)) w); [done|lia].
  - destruct (Nat.ltb_spec (S t `min` length l - (S t - w)) w); [lia|].
    do 4 f_equal. lia.
Qed.

Lemma rolling_mean_length w s : length (rolling_mean w s) = length s.
Proof. unfold rolling_mean. by rewrite length_fmap, length_seq. Qed.

Lemma drop_take_fmap_seq {A} (f : nat → A) n a k :
  a + k ≤ n → drop a (take (a + k) (f <$> seq 0 n)) = f <$> seq a k.
Proof.
  intros Hn. apply list_eq. intros i.
  rewrite lookup_drop, !list_lookup_fmap.
  destruct (decide (i < k)) as [Hi|Hi].
  - rewrite lookup_take_lt by lia. rewrite list_lookup_fmap.
    rewrite !lookup_seq_lt by lia. done.
  - rewrite lookup_take_ge by lia. by rewrite lookup_seq_ge by lia.
Qed.

(** ** Average true range *)

Lemma true_range_lookup highs lows closes k :
  length highs = length lows → length lows = length closes →
  k < length highs →
  true_range (Some <$> highs) (Some <$> lows) (Some <$> closes) !! k
    = Some (Some (day_true_range highs lows closes k)).
Proof.
  intros Hhl Hlc Hk.
  destruct (lookup_lt_is_Some_2 highs k) as [h Hh]; [lia|].
  destruct (lookup_lt_is_Some_2 lows k) as [l Hl]; [lia|].
  unfold true_range, day_true_range.
  rewrite !nth_lookup, Hh, Hl. simpl.
  assert (Hshift : shift (Some <$> closes) !! k
                   = Some (prev_close_of closes k)).
  { destruct k as [|k].
    - apply shift_lookup_0. destruct closes; [simpl in *; lia|done].
    - rewrite shift_lookup_S by (rewrite length_fmap; lia).
      rewrite list_lookup_fmap. simpl.
      destruct (lookup_lt_is_Some_2 closes k) as [c Hc]; [lia|].
      by rewrite Hc. }
  rewrite (max_axis1_lookup _ _ _ k (Some (h - l)%Q)
             (cell_map Qabs (cell_sub (Some h) (prev_close_of closes k)))
             (cell_map Qabs (cell_sub (Some l) (prev_close_of closes k)))).
  - by destruct (prev_close_of closes k).
  - unfold series_sub. rewrite lookup_zip_with, !list_lookup_fmap, Hh, Hl.
    reflexivity.
  - unfold series_abs, series_sub.
    rewrite list_lookup_fmap, lookup_zip_with, list_lookup_fmap, Hh, Hshift.
    reflexivity.
  - unfold series_abs, series_sub.
    rewrite list_lookup_fmap, lookup_zip_with, list_lookup_fmap, Hl, Hshift.
    reflexivity.
Qed.

Lemma true_range_defined highs lows closes :
  length highs = length lows → length lows = length closes →
  true_range (Some <$> highs) (Some <$> lows) (Some <$> closes)
    = Some <$> (day_true_range highs lows closes <$> seq 0 (length highs)).
Proof.
  intros Hhl Hlc. apply list_eq. intros k.
  destruct (decide (k < length highs)) as [Hk|Hk].
  - rewrite true_range_lookup by done.
    by rewrite !list_lookup_fmap, lookup_seq_lt.
  - rewrite !lookup_ge_None_2; [done|..].
    + rewrite !length_fmap, length_seq. lia.
    + unfold true_range. rewrite max_axis1_length.
      * unfold series_sub. rewrite length_zip_with, !length_fmap. lia.
      * unfold series_abs, series_sub.
        rewrite length_fmap, !length_zip_with, shift_length, !length_fmap.
        lia.
      * unfold series_abs, series_sub.
        rewrite !length_fmap, !length_zip_with, shift_length, !length_fmap.
        lia.
Qed.

(** C2 (as amended). On a table whose High, Low and Close columns hold
    numbers only, the ATR_14 column is NaN on the rows [t < 13] and, on
    every row [t >= 13], it is the arithmetic mean over the 14 rows
    [t - 13 .. t] of the true range, where the true range of a row is the
    greatest of high minus low, |high minus previous close| and |low minus
    previous close|, and high minus low on the first row. *)
Theorem atr_is_mean_of_true_range
    (normalized_data : DataFrame) (highs lows closes : list Q) :
  get_column normalized_data "High" = Some (Some <$> highs) →
  get_column normalized_data "Low" = Some (Some <$> lows) →
  get_column normalized_data "Close" = Some (Some <$> closes) →
  ∃ atr,
    ATR_14 normalized_data = Some atr
    ∧ length atr = len normalized_data
    ∧ ∀ t, t < len normalized_data →
        (t < 13 → atr !! t = Some None)
        ∧ (13 ≤ t →
           ∃ v, atr !! t = Some (Some v)
                ∧ (v == mean_of_last_14
                          (day_true_range highs lows closes) t)%Q).
Proof.
  intros Hh Hl Hc.
  assert (Hlen : ∀ name (s : list Q),
            get_column normalized_data name = Some (Some <$> s) →
            length s = len normalized_data).
  { intros name s Hs. unfold get_column in Hs.
    destruct (index_of name (columns normalized_data)); [|done].
    simpl in Hs. apply length_mapM in Hs.
    rewrite length_fmap in Hs. by unfold len. }
  pose proof (Hlen _ _ Hh) as Hnh. pose proof (Hlen _ _ Hl) as Hnl.
  pose proof (Hlen _ _ Hc) as Hnc.
  unfold ATR_14. rewrite Hh, Hl, Hc. simpl.
  rewrite true_range_defined by lia.
  eexists. split; [done|]. split.
  { by rewrite rolling_mean_length, !length_fmap, length_seq. }
  intros t Ht.
  rewrite rolling_mean_defined by (rewrite ?length_fmap, ?length_seq; lia).
  split.
  - intros Hlt. destruct (Nat.ltb_spec (S t) 14); [done|lia].
  - intros Hge. destruct (Nat.ltb_spec (S t) 14); [lia|].
    eexists. split; [done|].
    unfold mean_of_last_14.
    replace (S t - 14) with (t - 13) by lia.
    replace (S t) with (t - 13 + 14) by lia.
    rewrite drop_take_fmap_seq by lia. reflexivity.
Qed.

(** C2 as stated fails on the fifteen days of [gap_example]: row 13
    already has an ATR_14 value, and on row 14 the value is not the mean
    of the true range taken without absolute values. *)
Lemma atr_differs_from_signed_mean :
  get_column gap_example "High" = Some (Some <$> gap_highs)
  ∧ get_column gap_example "Low" = Some (Some <$> gap_lows)
  ∧ get_column gap_example "Close" = Some (Some <$> gap_closes)
  ∧ ∃ atr v13 v14,
      ATR_14 gap_example = Some atr
      ∧ atr !! 13 = Some (Some v13)
      ∧ atr !! 14 = Some (Some v14)
      ∧ (v14 == 23 # 140)%Q
      ∧ (mean_of_last_14 (spec_true_range gap_highs gap_lows gap_closes) 14
           == 37 # 280)%Q
      ∧ ¬ (v14 == mean_of_last_14
                    (spec_true_range gap_highs gap_lows gap_closes) 14)%Q.
Proof.
  split; [reflexivity|]. split; [reflexivity|]. split; [reflexivity|].
  eexists _, _, _. split; [vm_compute; reflexivity|].
  split; [reflexivity|]. split; [reflexivity|].
  split; [reflexivity|]. split; [reflexivity|].
  vm_compute. discriminate.
Qed.

(** ** Relative strength index *)

Section RelativeStrength.

#[local] Open Scope Q_scope.




Lemma Qsum_nonneg l : Forall (λ q, 0 <= q) l → 0 <= Qsum l.
Proof.
  induction 1 as [|q l Hq _ IH]; simpl; [apply Qle_refl|].
  change 0 with (0 + 0). by apply Qplus_le_compat.
Qed.





End RelativeStrength.


(** * The theorems at concrete tables *)

Lemma five_days_well_formed : well_formed five_days.
Proof. repeat constructor. Qed.

Lemma five_days_no_missing : no_missing five_days.
Proof. repeat constructor. Qed.

Lemma five_days_has_close : is_Some (index_of "Close" (columns five_days)).
Proof. by exists 1. Qed.

(** [create_sequences] on five days with windows of two days. *)
Example create_sequences_five_days :
  create_sequences five_days 2
  = Some ([ [[Some (1 # 10); Some (2 # 10); Some (5 # 10)];
             [Some (2 # 10); Some (3 # 10); Some (4 # 10)]];
            [[Some (2 # 10); Some (3 # 10); Some (4 # 10)];
             [Some (3 # 10); Some (5 # 10); Some (9 # 10)]];
            [[Some (3 # 10); Some (5 # 10); Some (9 # 10)];
             [Some (5 # 10); Some (4 # 10); Some (1 # 10)]] ],
          [Some (5 # 10); Some (4 # 10); Some (7 # 10)])%Q.
Proof. reflexivity. Qed.

(** The baseline cell on five days: four rows remain, each with the next
    day's Close as its Target. *)
Example add_target_five_days :
  add_target five_days
  = Some (mkDF ["Open"; "Close"; "Volume"; "Target"]
            [mkRow 1 [Some (1 # 10); Some (2 # 10); Some (5 # 10);
                      Some (3 # 10)];
             mkRow 2 [Some (2 # 10); Some (3 # 10); Some (4 # 10);
                      Some (5 # 10)];
             mkRow 3 [Some (3 # 10); Some (5 # 10); Some (9 # 10);
                      Some (4 # 10)];
             mkRow 4 [Some (5 # 10); Some (4 # 10); Some (1 # 10);
                      Some (7 # 10)]])%Q.
Proof. reflexivity. Qed.

(** The scaler on the raw table: the first column has minimum 1 and
    maximum 3, the missing entry stays missing. *)
Example fit_transform_raw_table :
  snd <$> fit_transform (values raw_frame)
  = Some [[Some (0 # 4); Some (0 # 400)];
          [Some (4 # 4); None];
          [Some (2 # 4); Some (400 # 400)]]%Q.
Proof. reflexivity. Qed.

Example rolling_mean_of_three :
  rolling_mean 2 [Some 1; Some 3; None; Some 5; Some 7]%Q
  = [None; Some (4 # 2); None; None; Some (12 # 2)]%Q.
Proof. reflexivity. Qed.

Example shift_back_of_three :
  shift_back [Some 1; Some 2; Some 3]%Q = [Some 2; Some 3; None]%Q.
Proof. reflexivity. Qed.

Example relative_strength_without_losses :
  rsi_of_rs (xdiv (XNum (1 # 2)) (XNum 0)) = XNum (100 + - 0)%Q.
Proof. reflexivity. Qed.

Lemma sequences_contain_their_target_witness :
  ∃ data tpos X y,
    add_target five_days = Some data
    ∧ len data = 4
    ∧ index_of "Target" (columns data) = Some tpos
    ∧ create_sequences data 2 = Some (X, y)
    ∧ length X = len data - 2.
Proof.
  destruct (sequences_contain_their_target five_days 2
              five_days_well_formed five_days_no_missing
              five_days_has_close)
    as (data & tpos & X & y & H1 & H2 & H3 & H4 & H5 & _).
  - unfold len. simpl. lia.
  - by exists data, tpos, X, y.
Defined.

Lemma baseline_target_is_next_close_witness :
  ∃ data X y,
    add_target five_days = Some data
    ∧ baseline_features data = Some (X, y)
    ∧ len data = 4 ∧ len X = 4 ∧ length y = 4.
Proof.
  destruct (baseline_target_is_next_close five_days
              five_days_well_formed five_days_no_missing
              five_days_has_close)
    as (data & X & y & H1 & H2 & H3 & H4 & H5 & _).
  by exists data, X, y.
Defined.

Lemma create_sequences_windows_witness :
  ∃ X y,
    create_sequences five_days 2 = Some (X, y)
    ∧ length X = 3 ∧ length y = 3.
Proof.
  destruct (create_sequences_windows five_days 2
              five_days_well_formed five_days_has_close)
    as (X & y & H1 & H2 & H3 & _).
  - unfold len. simpl. lia.
  - by exists X, y.
Defined.

Lemma raw_table_well_formed : well_formed raw_frame.
Proof. repeat constructor. Qed.

Lemma minmax_scaled_in_unit_interval_witness :
  ∃ scaler normalized_data lo hi,
    normalize raw_frame = Some (scaler, normalized_data)
    ∧ data_min_ scaler !! 0 = Some (Some lo)
    ∧ data_max_ scaler !! 0 = Some (Some hi)
    ∧ ∀ x, Some x ∈ column 0 (values raw_frame) → (lo <= x <= hi)%Q.
Proof.
  destruct (minmax_scaled_in_unit_interval raw_frame 0
              raw_table_well_formed)
    as (scaler & nd & lo & hi & H1 & _ & _ & H4 & H5 & H6 & _).
  - simpl. lia.
  - exists 1%Q, 3%Q. split; [by left|]. split; [right; by left|].
    vm_compute. discriminate.
  - by exists scaler, nd, lo, hi.
Defined.

Lemma minmax_inverse_recovers_input_witness :
  ∃ scaler normalized_data,
    normalize raw_frame = Some (scaler, normalized_data)
    ∧ length (inverse_transform scaler (values normalized_data)) = 3.
Proof.
  destruct (minmax_inverse_recovers_input raw_frame 0 1%Q 3%Q
              raw_table_well_formed)
    as (scaler & nd & H1 & _ & _ & H4 & _).
  - simpl. lia.
  - reflexivity.
  - reflexivity.
  - reflexivity.
  - by exists scaler, nd.
Defined.

Lemma atr_is_mean_of_true_range_witness :
  ∃ atr,
    ATR_14 gap_example = Some atr
    ∧ length atr = 15
    ∧ atr !! 12 = Some None
    ∧ ∃ v, atr !! 14 = Some (Some v)
           ∧ (v == mean_of_last_14
                     (day_true_range gap_highs gap_lows gap_closes) 14)%Q.
Proof.
  destruct (atr_is_mean_of_true_range gap_example
              gap_highs gap_lows gap_closes eq_refl eq_refl eq_refl)
    as (atr & H1 & H2 & H3).
  exists atr. split; [done|]. split; [done|].
  split.
  - apply (H3 12); unfold len; simpl; lia.
  - apply (H3 14); unfold len; simpl; lia.
Defined.

Lemma forty_days_well_formed : well_formed forty_days.
Proof. apply Forall_fmap, Forall_true. done. Qed.

Lemma grid_search_evaluates_every_combination_once_witness :
  ∃ results,
    grid_search constant_score constant_score forty_days = Some results
    ∧ length results = 72
    ∧ results !! 70
      = Some (mkResult "LSTM" 30 128 64 (5 # 10000)%Q (Some 0%Q))
    ∧ results !! 71
      = Some (mkResult "GRU" 30 128 64 (5 # 10000)%Q (Some 0%Q)).
Proof.
  destruct (grid_search_evaluates_every_combination_once
              constant_score constant_score
              ltac:(intros; by eexists) ltac:(intros; by eexists)
              forty_days forty_days_well_formed)
    as (results & H1 & H2 & _ & _ & _ & Hruns).
  - by exists 0.
  - unfold len. simpl. lia.
  - destruct (Hruns 35 30 128 64 (5 # 10000)%Q eq_refl)
      as (X & y & lstm_mse & gru_mse & _ & Htrain & Hlstm & Hgru).
    destruct (split_sequences X y) as [[[X_train X_test] y_train] y_test].
    destruct Htrain as [Hl Hg].
    injection Hl as <-. injection Hg as <-.
    by exists results.
Defined.

Lemma splits_are_chronological_prefixes_witness :
  train_test_split [1; 2; 3; 4; 5; 6; 7] [10; 20; 30; 40; 50; 60; 70] (2 # 10)
    = Some ([1; 2; 3; 4; 5], [6; 7], [10; 20; 30; 40; 50], [60; 70])
  ∧ split_sequences [1; 2; 3; 4; 5; 6; 7] [10; 20; 30; 40; 50; 60; 70]
    = ([1; 2; 3; 4; 5], [6; 7], [10; 20; 30; 40; 50], [60; 70]).
Proof.
  destruct (splits_are_chronological_prefixes
              [1; 2; 3; 4; 5; 6; 7] [10; 20; 30; 40; 50; 60; 70] eq_refl)
    as (H1 & H2 & _).
  split; [apply H1; simpl; lia|exact H2].
Defined.


(** * Further properties *)

(** ** Moving averages *)

Section MovingAverages.

#[local] Open Scope Q_scope.

Lemma Qsum_bounds lo hi (l : list Q) :
  Forall (λ q, lo <= q <= hi) l →
  lo * inject_Z (Z.of_nat (length l)) <= Qsum l
  ∧ Qsum l <= hi * inject_Z (Z.of_nat (length l)).
Proof.
  induction 1 as [|q l [Hq1 Hq2] _ [IH1 IH2]].
  - cbn. rewrite !Qmult_0_r. split; apply Qle_refl.
  - cbn [length Qsum foldr]. fold (Qsum l).
    rewrite Nat2Z.inj_succ, <- Z.add_1_r, inject_Z_plus.
    change (inject_Z 1) with 1. lra.
Qed.

Lemma observed_elem_of (win : list cell) q :
  q ∈ observed win → Some q ∈ win.
Proof.
  unfold observed. induction win as [|[x|] win IH]; cbn.
  - by intros ?%elem_of_nil.
  - intros [->|Hq]%elem_of_cons; [left|right; by apply IH].
  - intros Hq. right. by apply IH.
Qed.

(** The mean of a window lies between any bounds of its numbers. *)
Lemma window_mean_bounds lo hi k (win : list cell) v :
  (0 < k)%nat →
  (∀ q, Some q ∈ win → lo <= q <= hi) →
  window_mean k win = Some v →
  lo <= v <= hi.
Proof.
  intros Hk Hwin. unfold window_mean.
  destruct (Nat.ltb_spec (length (observed win)) k) as [|Hlen]; [done|].
  intros [= <-].
  assert (Hall : Forall (λ q, lo <= q <= hi) (observed win)).
  { apply Forall_forall. intros q Hq. by apply Hwin, observed_elem_of. }
  destruct (Qsum_bounds lo hi _ Hall) as [H1 H2].
  assert (Hn : 0 < inject_Z (Z.of_nat (length (observed win)))).
  { change 0 with (inject_Z 0). rewrite <- Zlt_Qlt. lia. }
  split.
  - apply Qle_shift_div_l; [done|]. exact H1.
  - apply Qle_shift_div_r; [done|]. exact H2.
Qed.


Lemma observed_length (win : list cell) :
  (length (observed win) ≤ length win)%nat
  ∧ (length (observed win) = length win ↔ Forall (λ c, isna c = false) win).
Proof.
  unfold observed. induction win as [|[x|] win [IH1 IH2]]; cbn.
  - split; [lia|]. split; [constructor|done].
  - split; [lia|]. rewrite Forall_cons. split.
    + intros [= H]. split; [done|by apply IH2].
    + intros [_ H]. f_equal. by apply IH2.
  - split; [lia|]. rewrite Forall_cons. split; [lia|by intros [? _]].
Qed.

Lemma rolling_window_length k (s : list cell) t :
  (t < length s)%nat → length (rolling_window k s t) = (k `min` S t)%nat.
Proof.
  intros Ht. unfold rolling_window. rewrite length_drop, length_take. lia.
Qed.

Lemma rolling_window_lookup k (s : list cell) t i :
  (t < length s)%nat → (i < k `min` S t)%nat →
  rolling_window k s t !! i = s !! (S t - k + i)%nat.
Proof.
  intros Ht Hi. unfold rolling_window.
  rewrite lookup_drop, lookup_take_lt by lia. done.
Qed.

(** X1. A simple moving average over [k] rows has a value on row [t]
    exactly when the window is full ([t >= k - 1]) and each of the [k]
    latest closes is a number; it is NaN during the warm-up and whenever a
    close of the window is missing. *)
Theorem sma_defined_iff (k : nat) (close : list cell) (t : nat) :
  (0 < k)%nat → (t < length close)%nat →
  (SMA k close !! t ≠ Some None
   ↔ (k ≤ S t)%nat
     ∧ ∀ i, (S t - k ≤ i ≤ t)%nat → ∃ q, close !! i = Some (Some q)).
Proof.
  intros Hk Ht. unfold SMA, rolling_mean.
  rewrite list_lookup_fmap, lookup_seq_lt by done. cbn.
  pose proof (rolling_window_length k close t Ht) as Hlen.
  destruct (observed_length (rolling_window k close t)) as [Hle Hall].
  unfold window_mean.
  destruct (Nat.ltb_spec (length (observed (rolling_window k close t))) k)
    as [Hlt|Hge].
  - split; [done|]. intros [Hkt Hnum]. exfalso.
    assert (length (observed (rolling_window k close t))
            = length (rolling_window k close t)); [|lia].
    apply Hall, Forall_lookup. intros i c Hc.
    assert (Hi : (i < k `min` S t)%nat).
    { rewrite <- Hlen. by eapply lookup_lt_Some. }
    rewrite rolling_window_lookup in Hc by done.
    destruct (Hnum (S t - k + i)%nat) as [q Hq]; [lia|].
    rewrite Hq in Hc. by injection Hc as <-.
  - split; [|done]. intros _.
    assert (Hkt : (k ≤ S t)%nat) by lia. split; [done|].
    assert (Heq : length (observed (rolling_window k close t))
                  = length (rolling_window k close t)) by lia.
    apply Hall in Heq. rewrite Forall_lookup in Heq.
    intros i Hi.
    destruct (lookup_lt_is_Some_2 (rolling_window k close t)
                (i - (S t - k))%nat) as [c Hc]; [lia|].
    pose proof (Heq _ _ Hc) as Hna.
    rewrite rolling_window_lookup in Hc by lia.
    replace (S t - k + (i - (S t - k)))%nat with i in Hc by lia.
    destruct c as [q|]; [by exists q|done].
Qed.

(** X2. Where a simple moving average has a value, it is the mean of the
    [k] latest closes and lies between any two bounds of the closes: a
    moving average of prices scaled into [[0, 1]] stays in [[0, 1]]. *)
Theorem sma_is_bounded_mean (k : nat) (close : list cell) (t : nat)
    (v lo hi : Q) :
  (0 < k)%nat →
  (∀ q, Some q ∈ close → lo <= q <= hi) →
  SMA k close !! t = Some (Some v) →
  v = Qsum (observed (rolling_window k close t)) / inject_Z (Z.of_nat k)
  ∧ length (observed (rolling_window k close t)) = k
  ∧ lo <= v <= hi.
Proof.
  intros Hk Hb Hv. unfold SMA, rolling_mean in Hv.
  assert (Ht : (t < length close)%nat).
  { apply lookup_lt_Some in Hv. by rewrite length_fmap, length_seq in Hv. }
  rewrite list_lookup_fmap, lookup_seq_lt in Hv by done. cbn in Hv.
  injection Hv as Hv.
  assert (Hlen : length (observed (rolling_window k close t)) = k).
  { pose proof (rolling_window_length k close t Ht).
    destruct (observed_length (rolling_window k close t)) as [Hle _].
    unfold window_mean in Hv.
    destruct (Nat.ltb_spec (length (observed (rolling_window k close t))) k);
      [done|lia]. }
  split; [|split; [done|]].
  - unfold window_mean in Hv. rewrite Hlen, Nat.ltb_irrefl in Hv.
    by injection Hv as <-.
  - eapply window_mean_bounds; [exact Hk| |exact Hv].
    intros q Hq. apply Hb. unfold rolling_window in Hq.
    by eapply subseteq_take, subseteq_drop, Hq.
Qed.

End MovingAverages.

(** ** Exponential moving average *)

Section ExponentialAverage.

#[local] Open Scope Q_scope.

Variable alpha : Q.
Hypothesis alpha_pos : 0 < alpha.
Hypothesis alpha_le_1 : alpha <= 1.

Lemma convex_combination lo hi o a w x :
  0 <= o → 0 < a → lo <= w <= hi → lo <= x <= hi →
  lo <= (o * w + a * x) / (o + a) <= hi.
Proof.
  intros Ho Ha [Hw1 Hw2] [Hx1 Hx2]. split.
  - apply Qle_shift_div_l; [lra|]. nra.
  - apply Qle_shift_div_r; [lra|]. nra.
Qed.

Lemma ewm_step_counted st cur :
  ewm_counted st → ewm_counted (ewm_step alpha st cur).
Proof.
  unfold ewm_counted, ewm_step. intros Hst.
  destruct (weighted st) as [w|] eqn:Ew; destruct cur as [x|];
    cbn [weighted nobs is_observation isna].
  - split; [done|lia].
  - split; [done|]. intros H. apply Hst. lia.
  - split; [done|lia].
  - rewrite Nat.add_0_r. tauto.
Qed.

Lemma ewm_step_invariant lo hi st cur :
  ewm_invariant lo hi st →
  (∀ q, cur = Some q → lo <= q <= hi) →
  ewm_invariant lo hi (ewm_step alpha st cur).
Proof using alpha_pos alpha_le_1.
  intros (Hold & Hnobs & Hw) Hcur. unfold ewm_invariant.
  split; [|split].
  - unfold ewm_step.
    destruct (weighted st); destruct cur; cbn [old_wt]; (lra || nra).
  - by apply ewm_step_counted.
  - unfold ewm_step.
    destruct (weighted st) as [w|] eqn:Ew; destruct cur as [x|];
      cbn [weighted]; intros w' [= <-].
    + destruct (Qeq_bool w x); [by apply Hw|].
      apply convex_combination; [nra|done|by apply Hw|by apply Hcur].
    + by apply Hw.
    + by apply Hcur.
Qed.

Lemma ewm_loop_length minp st vals :
  length (ewm_loop alpha minp st vals) = length vals.
Proof.
  revert st. induction vals as [|cur vals IH]; intros st; simpl; [done|].
  by rewrite IH.
Qed.

Lemma ewm_loop_bounds lo hi st vals :
  ewm_invariant lo hi st →
  (∀ q, Some q ∈ vals → lo <= q <= hi) →
  ∀ t v, ewm_loop alpha 1 st vals !! t = Some (Some v) → lo <= v <= hi.
Proof using alpha_pos alpha_le_1.
  revert st. induction vals as [|cur vals IH]; intros st Hinv Hvals t v;
    [done|].
  assert (Hinv' : ewm_invariant lo hi (ewm_step alpha st cur)).
  { apply ewm_step_invariant; [done|]. intros q ->. apply Hvals. by left. }
  destruct t as [|t]; cbn [ewm_loop lookup list_lookup].
  - unfold ewm_output.
    destruct (1 <=? nobs (ewm_step alpha st cur))%nat; [|done].
    intros [= Hw]. by apply Hinv'.
  - apply IH; [done|]. intros q Hq. apply Hvals. by right.
Qed.


(** Once there was an observation the loop gives a number on every row;
    before that, a row is NaN exactly when no value up to it is an
    observation. *)
Lemma ewm_loop_defined st vals t :
  ewm_counted st →
  (t < length vals)%nat →
  (ewm_loop alpha 1 st vals !! t = Some None
   ↔ weighted st = None ∧ ∀ i, (i ≤ t)%nat → vals !! i = Some None).
Proof.
  revert st t. induction vals as [|cur vals IH]; intros st t Hst Ht;
    [simpl in Ht; lia|].
  pose proof (ewm_step_counted st cur Hst) as Hst'.
  assert (Hw' : weighted (ewm_step alpha st cur) = None
                ↔ weighted st = None ∧ cur = None).
  { unfold ewm_step. destruct (weighted st); destruct cur; cbn;
      split; (done || by intros [? ?]). }
  destruct t as [|t]; cbn [ewm_loop lookup list_lookup].
  - unfold ewm_output.
    destruct (Nat.leb_spec 1 (nobs (ewm_step alpha st cur))) as [Hn|Hn].
    + split.
      * intros [= Hw]. apply Hw' in Hw as [? ->]. split; [done|].
        intros i Hi. by replace i with 0%nat by lia.
      * intros [Hw Hall]. f_equal. apply Hw'. split; [done|].
        specialize (Hall 0%nat ltac:(lia)). by injection Hall.
    + assert (Hw : weighted (ewm_step alpha st cur) = None)
        by (apply Hst'; lia).
      apply Hw' in Hw as [Hw ->]. split; [|done]. intros _.
      split; [done|]. intros i Hi. by replace i with 0%nat by lia.
  - rewrite IH by (done || (simpl in Ht; lia)). rewrite Hw'. split.
    + intros [[Hw ->] Hall]. split; [done|].
      intros [|i] Hi; [done|]. apply Hall. lia.
    + intros [Hw Hall]. split.
      * split; [done|]. specialize (Hall 0%nat ltac:(lia)).
        by injection Hall.
      * intros i Hi. apply (Hall (S i)). lia.
Qed.

(** On a series of numbers the loop follows the textbook recurrence
    [e' = (1 - alpha) e + alpha x]. *)
Lemma ewm_loop_recurrence (l : list Q) w n :
  (1 ≤ n)%nat →
  ∃ e : list Q,
    ewm_loop alpha 1 (mkEwm (Some w) 1 n) (Some <$> l) = Some <$> e
    ∧ (∀ x, l !! 0%nat = Some x →
         ∃ b, e !! 0%nat = Some b ∧ b == (1 - alpha) * w + alpha * x)
    ∧ ∀ t a x, e !! t = Some a → l !! S t = Some x →
        ∃ b, e !! S t = Some b ∧ b == (1 - alpha) * a + alpha * x.
Proof using alpha_pos alpha_le_1.
  revert w n. induction l as [|x l IH]; intros w n Hn.
  - exists []. split; [done|]. split; intros; done.
  - cbn [fmap list_fmap ewm_loop ewm_step weighted old_wt nobs
         is_observation isna].
    set (w' := if Qeq_bool w x then w
               else (1 * (1 - alpha) * w + alpha * x)
                    / (1 * (1 - alpha) + alpha)).
    assert (Hw' : w' == (1 - alpha) * w + alpha * x).
    { unfold w'. destruct (Qeq_bool w x) eqn:E.
      - apply Qeq_bool_eq in E. rewrite <- E. ring.
      - field. lra. }
    destruct (IH w' (n + 1)%nat) as (e & He & H0 & Hrec); [lia|].
    exists (w' :: e). split.
    { unfold ewm_output. cbn [nobs weighted].
      destruct (Nat.leb_spec 1 (n + 1)); [|lia].
      fold (@fmap list _ _ _ Some l). rewrite He. done. }
    split.
    + intros y [= <-]. by exists w'.
    + intros [|t] a y; cbn [lookup list_lookup].
      * intros [= <-] Hy. by apply H0.
      * apply Hrec.
Qed.

End ExponentialAverage.

Lemma alpha_of_span_10 :
  let alpha := (1 / (1 + (10 - 1) / 2))%Q in
  (0 < alpha)%Q ∧ (alpha <= 1)%Q ∧ (alpha == 2 # 11)%Q.
Proof. cbv zeta. split; [|split]; [reflexivity|discriminate|reflexivity]. Qed.

(** On a row without an observation the loop repeats its previous
    output. *)
Lemma ewm_loop_gap (alpha : Q) (minp : nat) (st : ewm_state)
    (vals : list cell) (t : nat) :
  vals !! t = Some None →
  (ewm_output minp st :: ewm_loop alpha minp st vals) !! S t
  = (ewm_output minp st :: ewm_loop alpha minp st vals) !! t.
Proof.
  revert st t. induction vals as [|cur vals IH]; intros st t Hgap; [done|].
  destruct t as [|t].
  - injection Hgap as ->. cbn [ewm_loop lookup list_lookup]. f_equal.
    unfold ewm_output, ewm_step.
    destruct (weighted st); cbn [weighted nobs is_observation isna];
      by rewrite Nat.add_0_r.
  - cbn [ewm_loop]. apply (IH (ewm_step alpha st cur) t Hgap).
Qed.

(** X3. The EMA_10 column has as many rows as the close column and no
    warm-up: a row is NaN exactly when no close up to that row is a
    number.  A missing close inside the series repeats the running
    average instead of giving NaN: on a row after the first whose close
    is missing, EMA_10 has the entry of the row before. *)
Theorem ema_is_nan_only_before_first_close (close : list cell) (t : nat) :
  t < length close →
  length (EMA_10 close) = length close
  ∧ (EMA_10 close !! t = Some None
     ↔ ∀ i, i ≤ t → close !! i = Some None)
  ∧ (0 < t → close !! t = Some None →
     EMA_10 close !! t = EMA_10 close !! (t - 1)).
Proof.
  intros Ht. unfold EMA_10, ewm_mean.
  destruct close as [|v0 vals]; [simpl in Ht; lia|].
  cbn [length]. rewrite ewm_loop_length. split; [done|].
  set (st := mkEwm v0 1%Q (is_observation v0)).
  assert (Hst : ewm_counted st).
  { unfold ewm_counted, st. destruct v0; cbn; split; done. }
  assert (Hout : ewm_output 1 st = v0).
  { unfold ewm_output, st. by destruct v0. }
  split.
  - destruct t as [|t]; cbn [lookup list_lookup].
    + rewrite Hout. split.
      * intros [= ->] i Hi. by replace i with 0 by lia.
      * intros Hall. specialize (Hall 0 ltac:(lia)). by injection Hall as ->.
    + simpl in Ht. rewrite ewm_loop_defined by (done || lia). split.
      * intros [Hw Hall] [|i] Hi; [simpl; f_equal; exact Hw|].
        apply Hall. lia.
      * intros Hall. split.
        -- specialize (Hall 0 ltac:(lia)). by injection Hall.
        -- intros i Hi. apply (Hall (S i)). lia.
  - intros Hpos Hgap. destruct t as [|t]; [lia|].
    replace (S t - 1) with t by lia.
    apply ewm_loop_gap. exact Hgap.
Qed.

(** X4. Every value of the EMA_10 column lies between any two bounds of
    the closes: the exponential average of prices scaled into [[0, 1]]
    stays in [[0, 1]]. *)
Theorem ema_is_bounded (close : list cell) (t : nat) (v lo hi : Q) :
  (∀ q, Some q ∈ close → (lo <= q <= hi)%Q) →
  EMA_10 close !! t = Some (Some v) →
  (lo <= v <= hi)%Q.
Proof.
  intros Hb. unfold EMA_10, ewm_mean.
  destruct close as [|v0 vals]; [done|].
  destruct alpha_of_span_10 as (Hpos & Hle & _).
  set (st := mkEwm v0 1%Q (is_observation v0)).
  assert (Hst : ewm_invariant lo hi st).
  { unfold ewm_invariant, ewm_counted, st. cbn.
    split; [discriminate|]. split; [destruct v0; cbn; split; done|].
    intros w ->. apply Hb. by left. }
  destruct t as [|t]; cbn [lookup list_lookup].
  - unfold ewm_output. destruct (1 <=? nobs st); [|done].
    intros [= Hw]. by apply Hst.
  - apply (ewm_loop_bounds _ Hpos Hle lo hi st); [done|].
    intros q Hq. apply Hb. by right.
Qed.

(** X5. On a close column of numbers the EMA_10 column starts with the
    first close and then follows the recurrence
    [EMA[t+1] = (9/11) EMA[t] + (2/11) Close[t+1]]. *)
Theorem ema_follows_recurrence (closes : list Q) :
  ∃ ema : list Q,
    EMA_10 (Some <$> closes) = Some <$> ema
    ∧ length ema = length closes
    ∧ ema !! 0 = closes !! 0
    ∧ ∀ t a x, ema !! t = Some a → closes !! S t = Some x →
        ∃ b, ema !! S t = Some b
             ∧ (b == (9 # 11) * a + (2 # 11) * x)%Q.
Proof.
  destruct closes as [|x0 l].
  { exists []. repeat split; intros; done. }
  destruct alpha_of_span_10 as (Hpos & Hle & Halpha).
  destruct (ewm_loop_recurrence _ Hpos Hle l x0 1 ltac:(lia))
    as (e & He & H0 & Hrec).
  exists (x0 :: e). unfold EMA_10, ewm_mean.
  cbn [fmap list_fmap is_observation isna].
  fold (@fmap list _ _ _ Some l). rewrite He.
  split; [done|]. split.
  { apply (f_equal length) in He.
    rewrite ewm_loop_length, !length_fmap in He. simpl. by rewrite He. }
  split; [done|].
  intros [|t] a x; cbn [lookup list_lookup].
  - intros [= <-] Hx. destruct (H0 x Hx) as (b & Hb & Hval).
    exists b. split; [done|]. rewrite Hval, Halpha. ring.
  - intros Ha Hx. destruct (Hrec t a x Ha Hx) as (b & Hb & Hval).
    exists b. split; [done|]. rewrite Hval, Halpha. ring.
Qed.

(** ** Average true range and relative strength on numbers *)

Section IndicatorsOnNumbers.

#[local] Open Scope Q_scope.

Lemma day_true_range_nonneg highs lows closes k :
  (1 ≤ k)%nat → (k ≤ length closes)%nat →
  0 <= day_true_range highs lows closes k.
Proof.
  intros Hk Hlen. unfold day_true_range, true_range_of.
  destruct k as [|k]; [lia|]. cbn [prev_close_of].
  destruct (lookup_lt_is_Some_2 closes k) as [pc ->]; [lia|].
  eapply Qle_trans; [apply (Qabs_nonneg (nth (S k) highs 0 - pc))|].
  eapply Qle_trans; [apply Q.le_max_l|apply Q.le_max_r].
Qed.

Lemma Qsum_fmap_nonneg (f : nat → Q) (ks : list nat) :
  (∀ k, k ∈ ks → 0 <= f k) → 0 <= Qsum (f <$> ks).
Proof.
  intros Hf. apply Qsum_nonneg, Forall_fmap, Forall_forall.
  intros k Hk. by apply Hf.
Qed.











End IndicatorsOnNumbers.

(** X6. On a table whose High, Low and Close columns hold numbers only,
    every ATR_14 value from row 14 on is not negative, whatever the order
    of the scaled high and low: each true range of its window is at least
    an absolute value.  (Row 13 also averages the first row, whose true
    range is high minus low alone.) *)
Theorem atr_nonnegative_from_row_14
    (normalized_data : DataFrame) (highs lows closes : list Q)
    (atr : list cell) (t : nat) (v : Q) :
  get_column normalized_data "High" = Some (Some <$> highs) →
  get_column normalized_data "Low" = Some (Some <$> lows) →
  get_column normalized_data "Close" = Some (Some <$> closes) →
  ATR_14 normalized_data = Some atr →
  14 ≤ t →
  atr !! t = Some (Some v) →
  (0 <= v)%Q.
Proof.
  intros Hh Hl Hc Hatr Ht Hv.
  assert (Hlen : ∀ name (s : list Q),
            get_column normalized_data name = Some (Some <$> s) →
            length s = len normalized_data).
  { intros name s Hs. unfold get_column in Hs.
    destruct (index_of name (columns normalized_data)); [|done].
    simpl in Hs. apply length_mapM in Hs.
    rewrite length_fmap in Hs. by unfold len. }
  pose proof (Hlen _ _ Hh) as Hnh. pose proof (Hlen _ _ Hl) as Hnl.
  pose proof (Hlen _ _ Hc) as Hnc.
  unfold ATR_14 in Hatr. rewrite Hh, Hl, Hc in Hatr. simpl in Hatr.
  injection Hatr as <-.
  rewrite true_range_defined in Hv by lia.
  assert (Htn : t < length highs).
  { apply lookup_lt_Some in Hv.
    by rewrite rolling_mean_length, !length_fmap, length_seq in Hv. }
  rewrite rolling_mean_defined in Hv
    by (rewrite ?length_fmap, ?length_seq; lia).
  destruct (Nat.ltb_spec (S t) 14); [lia|].
  injection Hv as <-.
  replace (S t - 14) with (t - 13) by lia.
  replace (S t) with (t - 13 + 14) by lia.
  rewrite drop_take_fmap_seq by lia.
  apply Qle_shift_div_l; [done|]. rewrite Qmult_0_l.
  apply Qsum_fmap_nonneg. intros k Hk%elem_of_seq.
  apply day_true_range_nonneg; lia.
Qed.


(** ** The scaler on any column *)

Section ScalerOnAnyColumn.

#[local] Open Scope Q_scope.

Lemma handle_zeros_positive d : 0 <= d → 0 < handle_zeros_in_scale d.
Proof.
  intros Hd. unfold handle_zeros_in_scale.
  destruct (Qeq_bool d 0) eqn:E; [reflexivity|].
  apply Qeq_bool_neq in E. lra.
Qed.

Lemma handle_zeros_constant d : d == 0 → handle_zeros_in_scale d = 1.
Proof.
  intros Hd. unfold handle_zeros_in_scale. by rewrite (Qeq_eq_bool _ _ Hd).
Qed.

(** The fitted scale and offset of a column that holds a number: no
    assumption on its range. *)
Lemma fit_transform_any_column (X : array2) m j :
  Forall (λ row : list cell, length row = m) X → (j < m)%nat →
  (∃ a, Some a ∈ column j X) →
  ∃ scaler lo hi,
    fit_transform X = Some (scaler, transform scaler X)
    ∧ nanmin (column j X) = Some lo
    ∧ nanmax (column j X) = Some hi
    ∧ lo <= hi
    ∧ (∀ x, Some x ∈ column j X → lo <= x <= hi)
    ∧ scale_ scaler !! j = Some (Some (1 / handle_zeros_in_scale (hi - lo)))
    ∧ min_ scaler !! j
      = Some (Some (0 - lo * (1 / handle_zeros_in_scale (hi - lo)))).
Proof.
  intros Hrect Hj [a Ha].
  destruct (nan_fold_is_Some Qmin _ a Ha) as [lo Hlo].
  destruct (nan_fold_is_Some Qmax _ a Ha) as [hi Hhi].
  assert (HX : X ≠ []) by (intros ->; by apply elem_of_nil in Ha).
  destruct (fit_Some X m HX ltac:(lia) Hrect)
    as (scaler & Hfit & Hls & Hlm & Hattr).
  destruct (Hattr j Hj) as (Hmin & Hmax & Hscale & Hmn). clear Hattr.
  fold (nanmin (column j X)) in Hlo. fold (nanmax (column j X)) in Hhi.
  rewrite Hlo, Hhi in *. cbn [cell_sub cell_map cell_div cell_mul lift2] in *.
  destruct (nanmin_Some _ _ Hlo) as [_ Hlo_le].
  destruct (nanmax_Some _ _ Hhi) as [_ Hhi_le].
  exists scaler, lo, hi. unfold fit_transform. rewrite Hfit.
  split; [done|]. split; [done|]. split; [done|].
  split; [eapply Qle_trans; [by apply Hlo_le|by apply Hhi_le]|].
  split; [intros x Hx; split; [by apply Hlo_le|by apply Hhi_le]|].
  done.
Qed.

Lemma scaled_any_in_unit_interval lo hi x :
  lo <= x <= hi →
  let s := 1 / handle_zeros_in_scale (hi - lo) in
  0 <= x * s + (0 - lo * s) <= 1.
Proof.
  intros [Hl Hh] s. unfold s, handle_zeros_in_scale.
  destruct (Qeq_bool (hi - lo) 0) eqn:E.
  - apply Qeq_bool_eq in E.
    assert (x * (1 / 1) + (0 - lo * (1 / 1)) == x - lo) as -> by field.
    lra.
  - apply Qeq_bool_neq in E. assert (lo < hi) by lra.
    rewrite scaled_value by done. by apply scaled_in_unit_interval.
Qed.

Lemma scaled_monotone d lo x1 x2 :
  0 <= d → x1 <= x2 →
  let s := 1 / handle_zeros_in_scale d in
  x1 * s + (0 - lo * s) <= x2 * s + (0 - lo * s).
Proof.
  intros Hd Hx s. pose proof (handle_zeros_positive d Hd) as Hpos.
  assert (Hs : 0 < s).
  { unfold s. apply Qlt_shift_div_l; [done|]. rewrite Qmult_0_l. reflexivity. }
  nra.
Qed.

End ScalerOnAnyColumn.

(** X8. The scaler never fails on a column that holds a number and never
    leaves [[0, 1]]: whatever the range of the column, constant columns
    included, every number is scaled to a number between 0 and 1, and
    scaling keeps the order of the values of a column. *)
Theorem minmax_any_column_scaled_in_order (X : array2) (m j : nat) :
  Forall (λ row : list cell, length row = m) X →
  j < m →
  (∃ a, Some a ∈ column j X) →
  ∃ scaler X',
    fit_transform X = Some (scaler, X')
    ∧ length X' = length X
    ∧ (∀ i x, column j X !! i = Some (Some x) →
         ∃ y, column j X' !! i = Some (Some y) ∧ (0 <= y <= 1)%Q)
    ∧ (∀ i, column j X !! i = Some None → column j X' !! i = Some None)
    ∧ ∀ i1 i2 x1 x2 y1 y2,
        column j X !! i1 = Some (Some x1) →
        column j X !! i2 = Some (Some x2) →
        column j X' !! i1 = Some (Some y1) →
        column j X' !! i2 = Some (Some y2) →
        (x1 <= x2)%Q → (y1 <= y2)%Q.
Proof.
  intros Hrect Hj Ha.
  destruct (fit_transform_any_column X m j Hrect Hj Ha)
    as (scaler & lo & hi & Hft & Hlo & Hhi & Hle & Hb & Hs & Hmn).
  exists scaler, (transform scaler X). split; [done|].
  split; [unfold transform; by rewrite length_fmap|].
  split; [|split].
  - intros i x Hx.
    rewrite (transform_entry scaler X m j i _ _ _ Hrect Hj Hs Hmn Hx).
    cbn [cell_add cell_mul lift2]. eexists. split; [done|].
    apply scaled_any_in_unit_interval, Hb.
    by eapply list_elem_of_lookup_2.
  - intros i Hx.
    by rewrite (transform_entry scaler X m j i _ _ _ Hrect Hj Hs Hmn Hx).
  - intros i1 i2 x1 x2 y1 y2 H1 H2.
    rewrite (transform_entry scaler X m j i1 _ _ _ Hrect Hj Hs Hmn H1).
    rewrite (transform_entry scaler X m j i2 _ _ _ Hrect Hj Hs Hmn H2).
    cbn [cell_add cell_mul lift2]. intros [= <-] [= <-] Hx.
    apply scaled_monotone; [lra|done].
Qed.

(** X9. A column whose numbers are all equal is scaled to zeros: its
    range counts as 1, so nothing is divided by zero. *)
Theorem minmax_constant_column_is_zero (X : array2) (m j : nat) (c : Q) :
  Forall (λ row : list cell, length row = m) X →
  j < m →
  (∃ a, Some a ∈ column j X) →
  (∀ x, Some x ∈ column j X → (x == c)%Q) →
  ∃ scaler X',
    fit_transform X = Some (scaler, X')
    ∧ ∀ i x, column j X !! i = Some (Some x) →
        ∃ y, column j X' !! i = Some (Some y) ∧ (y == 0)%Q.
Proof.
  intros Hrect Hj Ha Hconst.
  destruct (fit_transform_any_column X m j Hrect Hj Ha)
    as (scaler & lo & hi & Hft & Hlo & Hhi & Hle & Hb & Hs & Hmn).
  exists scaler, (transform scaler X). split; [done|].
  intros i x Hx.
  rewrite (transform_entry scaler X m j i _ _ _ Hrect Hj Hs Hmn Hx).
  cbn [cell_add cell_mul lift2]. eexists. split; [done|].
  destruct (nanmin_Some _ _ Hlo) as [(a1 & Ha1 & Hlo1) _].
  destruct (nanmax_Some _ _ Hhi) as [(a2 & Ha2 & Hhi1) _].
  assert (Hxc : (x == c)%Q) by (apply Hconst; by eapply list_elem_of_lookup_2).
  assert (Hloc : (lo == c)%Q) by (rewrite <- Hlo1; by apply Hconst).
  assert (Hhic : (hi == c)%Q) by (rewrite <- Hhi1; by apply Hconst).
  rewrite handle_zeros_constant by (rewrite Hloc, Hhic; ring).
  rewrite Hxc, Hloc. field.
Qed.

(** ** The post-normalizer *)

Lemma write_cells_length idxs v cs :
  length (write_cells idxs v cs) = length cs.
Proof.
  unfold write_cells. revert v cs.
  induction idxs as [|i idxs IH]; intros [|x v] cs; simpl; try done.
  by rewrite IH, length_insert.
Qed.

Lemma insert_complete (cs : list cell) i x :
  forallb (λ c, negb (isna c)) cs = true →
  forallb (λ c, negb (isna c)) (<[i := Some x]> cs) = true.
Proof.
  intros Hcs. destruct (decide (i < length cs)) as [Hi|Hi].
  - by rewrite forallb_insert.
  - by rewrite list_insert_ge by lia.
Qed.

Lemma write_cells_complete idxs v cs :
  Forall (λ c, isna c = false) v →
  forallb (λ c, negb (isna c)) cs = true →
  forallb (λ c, negb (isna c)) (write_cells idxs v cs) = true.
Proof.
  unfold write_cells. revert v cs.
  induction idxs as [|i idxs IH]; intros [|x v] cs Hv Hcs; simpl; try done.
  inversion Hv as [|? ? Hx Hv']; subst. destruct x as [x|]; [|done].
  apply IH; [done|]. by apply insert_complete.
Qed.

Lemma write_cells_other idxs v cs i :
  i ∉ idxs → write_cells idxs v cs !! i = cs !! i.
Proof.
  unfold write_cells. revert v cs.
  induction idxs as [|i' idxs IH]; intros [|x v] cs Hi; simpl; try done.
  apply not_elem_of_cons in Hi as [Hne Hi].
  rewrite IH by done. by apply list_lookup_insert_ne.
Qed.

Lemma write_cells_written idxs v cs k i x :
  NoDup idxs → idxs !! k = Some i → v !! k = Some x → i < length cs →
  write_cells idxs v cs !! i = Some x.
Proof.
  unfold write_cells. revert v cs k.
  induction idxs as [|i' idxs IH]; intros [|x' v] cs k Hnd Hi Hx Hlen;
    try done.
  apply NoDup_cons in Hnd as [Hnotin Hnd]. destruct k as [|k]; simpl in *.
  - injection Hi as ->. injection Hx as ->.
    fold (write_cells idxs v (<[i := x]> cs)).
    rewrite write_cells_other by done. by apply list_lookup_insert_eq.
  - apply (IH v _ k); [done..|]. by rewrite length_insert.
Qed.

Lemma positions_lookup cols names idxs k name :
  positions cols names = Some idxs → names !! k = Some name →
  ∃ i, idxs !! k = Some i ∧ index_of name cols = Some i.
Proof.
  intros Hpos Hname. apply mapM_Some_1 in Hpos.
  destruct (Forall2_lookup_l _ _ _ _ _ Hpos Hname) as (i & Hi & Hidx).
  by exists i.
Qed.

Lemma positions_elem_of cols names idxs i :
  positions cols names = Some idxs → i ∈ idxs →
  ∃ name, name ∈ names ∧ index_of name cols = Some i.
Proof.
  intros Hpos [k Hk]%list_elem_of_lookup. apply mapM_Some_1 in Hpos.
  destruct (Forall2_lookup_r _ _ _ _ _ Hpos Hk) as (name & Hname & Hidx).
  exists name. split; [by eapply list_elem_of_lookup_2|done].
Qed.

Lemma positions_NoDup cols names idxs :
  positions cols names = Some idxs → NoDup names → NoDup idxs.
Proof.
  intros Hpos Hnd. apply NoDup_alt. intros k1 k2 i H1 H2.
  apply mapM_Some_1 in Hpos.
  destruct (Forall2_lookup_r _ _ _ _ _ Hpos H1) as (n1 & Hn1 & Hi1).
  destruct (Forall2_lookup_r _ _ _ _ _ Hpos H2) as (n2 & Hn2 & Hi2).
  apply index_of_lookup in Hi1, Hi2.
  assert (n1 = n2) as -> by congruence.
  by eapply NoDup_lookup.
Qed.

(** The chosen values of a well-formed frame: one row per row, one entry
    per chosen column, taken from that column. *)
Lemma select_values_Some data idxs :
  well_formed data →
  Forall (λ i, i < length (columns data)) idxs →
  ∃ X, select_values data idxs = Some X
       ∧ length X = len data
       ∧ Forall (λ row : list cell, length row = length idxs) X
       ∧ ∀ t r row, rows data !! t = Some r → X !! t = Some row →
           ∀ k i, idxs !! k = Some i → row !! k = cells r !! i.
Proof.
  intros Hwf Hidx. unfold select_values.
  destruct (mapM_is_Some_2 (λ r, mapM (λ i, cells r !! i) idxs) (rows data))
    as [X HX].
  { eapply Forall_impl; [exact Hwf|]. intros r Hr. simpl in *.
    apply mapM_is_Some_2. eapply Forall_impl; [exact Hidx|].
    intros i Hi. simpl in *. apply lookup_lt_is_Some_2. lia. }
  exists X. split; [done|]. apply mapM_Some_1 in HX.
  split; [symmetry; by eapply Forall2_length|].
  split.
  - apply Forall_lookup. intros t row Hrow.
    destruct (Forall2_lookup_r _ _ _ _ _ HX Hrow) as (r & Hr & Hsel).
    apply length_mapM in Hsel. done.
  - intros t r row Hr Hrow k i Hk.
    destruct (Forall2_lookup_l _ _ _ _ _ HX Hr) as (row' & Hrow' & Hsel).
    assert (row' = row) as -> by congruence.
    apply mapM_Some_1 in Hsel.
    destruct (Forall2_lookup_l _ _ _ _ _ Hsel Hk) as (c & Hc & Hcell).
    by rewrite Hc, Hcell.
Qed.

Lemma dropna_well_formed data : well_formed data → well_formed (dropna data).
Proof.
  unfold well_formed, dropna. simpl. intros Hwf.
  apply Forall_forall. intros r Hr%list_elem_of_In.
  apply filter_In in Hr as [Hr%list_elem_of_In _].
  rewrite Forall_forall in Hwf. by apply Hwf.
Qed.

Lemma dropna_no_missing data : no_missing (dropna data).
Proof.
  unfold no_missing, dropna. simpl.
  apply Forall_forall. intros r Hr%list_elem_of_In.
  by apply filter_In in Hr as [_ Hr].
Qed.

Lemma indicators_NoDup : NoDup indicators_to_normalize.
Proof.
  unfold indicators_to_normalize.
  repeat (apply NoDup_cons; split;
          [intros H; repeat (apply elem_of_cons in H as [H|H];
                             [discriminate|]);
           by apply elem_of_nil in H|]).
  apply NoDup_nil_2.
Qed.

(** The scaler leaves no NaN in a table that has none. *)
Lemma transform_complete (X : array2) m scaler :
  X ≠ [] → 0 < m →
  Forall (λ row : list cell, length row = m) X →
  Forall (Forall (λ c : cell, isna c = false)) X →
  fit X = Some scaler →
  Forall (Forall (λ c : cell, isna c = false)) (transform scaler X).
Proof.
  intros HX Hm Hrect Hcomplete Hfit.
  destruct (fit_Some X m HX Hm Hrect) as (scaler' & Hfit' & Hls & Hlm & Hattr).
  assert (scaler' = scaler) as -> by congruence.
  unfold transform. apply Forall_fmap, Forall_lookup. intros t row Hrow.
  simpl. apply Forall_lookup. intros j c Hc.
  apply lookup_zip_with_Some in Hc as (a & mn & -> & Ha & Hmn).
  apply lookup_zip_with_Some in Ha as (x & s & -> & Hx & Hs).
  assert (Hj : j < m) by (rewrite <- Hls; by eapply lookup_lt_Some).
  destruct (Hattr j Hj) as (_ & _ & Hscale & Hmin).
  (* the column holds the number of this row *)
  rewrite Forall_lookup in Hcomplete. pose proof (Hcomplete _ _ Hrow) as Hr.
  rewrite Forall_lookup in Hr. pose proof (Hr _ _ Hx) as Hxna.
  destruct x as [x|]; [|done].
  assert (Hin : Some x ∈ column j X).
  { apply list_elem_of_lookup. exists t.
    apply (column_lookup X m); [done..|]. by exists row. }
  destruct (nan_fold_is_Some Qmin _ _ Hin) as [lo Hlo].
  destruct (nan_fold_is_Some Qmax _ _ Hin) as [hi Hhi].
  fold (nanmin (column j X)) in Hlo. fold (nanmax (column j X)) in Hhi.
  rewrite Hlo, Hhi in Hscale, Hmin.
  rewrite Hs in Hscale. injection Hscale as ->.
  rewrite Hmn in Hmin. injection Hmin as ->. done.
Qed.

(** How the post-normalizer cell arrives at its result. *)
Lemma post_normalize_Some data scaler data' :
  post_normalize data = Some (scaler, data') →
  ∃ idxs X,
    positions (columns data) indicators_to_normalize = Some idxs
    ∧ select_values (dropna data) idxs = Some X
    ∧ fit X = Some scaler
    ∧ data' = assign_values (dropna data) idxs (transform scaler X).
Proof.
  unfold post_normalize. cbn [columns dropna].
  destruct (positions (columns data) indicators_to_normalize)
    as [idxs|] eqn:Hpos; [|done].
  cbn [mbind option_bind].
  destruct (select_values _ idxs) as [X|] eqn:Hsel; [|done].
  cbn [mbind option_bind]. unfold fit_transform.
  destruct (fit X) as [s|] eqn:Hfit; [|done]. cbn.
  intros H. injection H as H1 H2. subst. by exists idxs, X.
Qed.

Lemma positions_in_range cols names idxs :
  positions cols names = Some idxs →
  Forall (λ i, i < length cols) idxs.
Proof.
  intros Hpos. apply Forall_forall. intros i Hi.
  destruct (positions_elem_of _ _ _ _ Hpos Hi) as (name & _ & Hidx).
  by eapply index_of_lt.
Qed.

Lemma post_normalize_clean
    (data_with_indicators : DataFrame) (scaler : MinMaxScaler)
    (data : DataFrame) :
  well_formed data_with_indicators →
  post_normalize data_with_indicators = Some (scaler, data) →
  columns data = columns data_with_indicators
  ∧ date <$> rows data = date <$> rows (dropna data_with_indicators)
  ∧ 0 < len data
  ∧ well_formed data
  ∧ no_missing data.
Proof.
  intros Hwf Hpn.
  destruct (post_normalize_Some _ _ _ Hpn) as (idxs & X & Hpos & Hsel & Hfit & ->).
  pose proof (dropna_well_formed _ Hwf) as Hwf'.
  pose proof (dropna_no_missing data_with_indicators) as Hnm.
  pose proof (positions_in_range _ _ _ Hpos) as Hrange.
  destruct (select_values_Some (dropna data_with_indicators) idxs Hwf' Hrange)
    as (X' & Hsel' & HlenX & Hrect & Hentries).
  assert (X' = X) as -> by congruence.
  assert (HX : X ≠ []) by (intros ->; done).
  assert (Hm : length idxs = 7).
  { apply mapM_Some_1, Forall2_length in Hpos. by rewrite <- Hpos. }
  assert (HXc : Forall (Forall (λ c : cell, isna c = false)) X).
  { apply Forall_lookup. intros t row Hrow.
    destruct (lookup_lt_is_Some_2 (rows (dropna data_with_indicators)) t)
      as [r Hr].
    { apply lookup_lt_Some in Hrow. unfold len in HlenX. lia. }
    apply Forall_lookup. intros k c Hc.
    destruct (lookup_lt_is_Some_2 idxs k) as [i Hi].
    { rewrite Forall_lookup in Hrect. rewrite <- (Hrect _ _ Hrow).
      by eapply lookup_lt_Some. }
    rewrite (Hentries _ _ _ Hr Hrow _ _ Hi) in Hc.
    eapply row_complete_lookup; [|exact Hc].
    unfold no_missing in Hnm. rewrite Forall_lookup in Hnm. by eapply Hnm. }
  pose proof (transform_complete X (length idxs) scaler HX ltac:(lia)
                Hrect HXc Hfit)
    as HTc.
  assert (HlenT : length (transform scaler X)
                  = length (rows (dropna data_with_indicators))).
  { unfold transform. rewrite length_fmap. exact HlenX. }
  unfold assign_values. cbn [columns rows].
  split; [done|]. split.
  { clear -HlenT. revert HlenT.
    generalize (transform scaler X). 
    induction (rows (dropna data_with_indicators)) as [|r l IH];
      intros [|v vs] Hlen; simpl in *; try done.
    f_equal. apply IH. lia. }
  split.
  { unfold len. cbn [rows]. rewrite length_zip_with, HlenT, Nat.min_id.
    unfold len in HlenX. rewrite <- HlenX. destruct X; [done|simpl; lia]. }
  split.
  - unfold well_formed. cbn [rows columns]. apply Forall_lookup.
    intros t r' Hr'.
    apply lookup_zip_with_Some in Hr' as (r & v & -> & Hr & Hv).
    cbn [cells]. rewrite write_cells_length.
    unfold well_formed in Hwf'. rewrite Forall_lookup in Hwf'.
    by apply (Hwf' _ _ Hr).
  - unfold no_missing. cbn [rows]. apply Forall_lookup.
    intros t r' Hr'.
    apply lookup_zip_with_Some in Hr' as (r & v & -> & Hr & Hv).
    unfold row_complete. cbn [cells]. apply write_cells_complete.
    + rewrite Forall_lookup in HTc. by eapply HTc.
    + unfold no_missing in Hnm. rewrite Forall_lookup in Hnm.
      by apply (Hnm _ _ Hr).
Qed.

Lemma dropna_of_complete (data : DataFrame) :
  no_missing data → dropna data = data.
Proof.
  destruct data as [cols rs]. unfold dropna, no_missing. cbn [rows columns].
  intros H. f_equal. induction H as [|r l Hr _ IH]; [done|].
  simpl. rewrite Hr. by f_equal.
Qed.

(** X10. When the post-normalizer cell returns, its result has the header
    of its input and the index labels of the rows that survived, as many
    rows as survived and at least one, one cell per column in every row,
    and no NaN, so that dropping rows with NaN once more changes nothing:
    it is a dataset as the baseline and sequence cells expect it. *)
Theorem post_normalize_result_is_clean
    (data_with_indicators : DataFrame) (scaler : MinMaxScaler)
    (data : DataFrame) :
  well_formed data_with_indicators →
  post_normalize data_with_indicators = Some (scaler, data) →
  columns data = columns data_with_indicators
  ∧ date <$> rows data = date <$> rows (dropna data_with_indicators)
  ∧ len data = len (dropna data_with_indicators)
  ∧ 0 < len data
  ∧ well_formed data
  ∧ no_missing data
  ∧ dropna data = data.
Proof.
  intros Hwf Hpn.
  destruct (post_normalize_clean _ _ _ Hwf Hpn)
    as (Hcols & Hdates & Hpos & Hwf' & Hnm).
  split; [exact Hcols|]. split; [exact Hdates|].
  split.
  { apply (f_equal length) in Hdates. rewrite !length_fmap in Hdates.
    exact Hdates. }
  split; [exact Hpos|]. split; [exact Hwf'|]. split; [exact Hnm|].
  by apply dropna_of_complete.
Qed.

(** X11. The post-normalizer cell changes the indicator columns only:
    in every surviving row, each other column (prices, volume) keeps the
    value it had. *)
Theorem post_normalize_keeps_other_columns
    (data_with_indicators : DataFrame) (scaler : MinMaxScaler)
    (data : DataFrame) (t : nat) (r r' : Row) (name : string) :
  post_normalize data_with_indicators = Some (scaler, data) →
  rows (dropna data_with_indicators) !! t = Some r →
  rows data !! t = Some r' →
  name ∉ indicators_to_normalize →
  date r' = date r
  ∧ row_get (columns data) r' name
    = row_get (columns data_with_indicators) r name.
Proof.
  intros Hpn Hr Hr' Hname.
  destruct (post_normalize_Some _ _ _ Hpn)
    as (idxs & X & Hpos & Hsel & Hfit & ->).
  unfold assign_values in *. cbn [rows columns] in *.
  apply lookup_zip_with_Some in Hr' as (r0 & v & -> & Hr0 & Hv).
  assert (r0 = r) as -> by congruence. split; [done|].
  unfold row_get. cbn [cells columns dropna].
  destruct (index_of name (columns data_with_indicators)) as [i|] eqn:Hi;
    [|done].
  cbn [mbind option_bind]. apply write_cells_other.
  intros Hin.
  destruct (positions_elem_of _ _ _ _ Hpos Hin) as (name' & Hname' & Hidx).
  apply index_of_lookup in Hi, Hidx. congruence.
Qed.

(** X12. After the post-normalizer cell every value of an indicator
    column is a number between 0 and 1. *)
Theorem post_normalize_indicators_in_unit_interval
    (data_with_indicators : DataFrame) (scaler : MinMaxScaler)
    (data : DataFrame) (t : nat) (r' : Row) (name : string) :
  well_formed data_with_indicators →
  post_normalize data_with_indicators = Some (scaler, data) →
  rows data !! t = Some r' →
  name ∈ indicators_to_normalize →
  ∃ y, row_get (columns data) r' name = Some (Some y) ∧ (0 <= y <= 1)%Q.
Proof.
  intros Hwf Hpn Hr' Hname.
  destruct (post_normalize_Some _ _ _ Hpn)
    as (idxs & X & Hpos & Hsel & Hfit & ->).
  pose proof (dropna_well_formed _ Hwf) as Hwf'.
  pose proof (dropna_no_missing data_with_indicators) as Hnm.
  pose proof (positions_in_range _ _ _ Hpos) as Hrange.
  pose proof (positions_NoDup _ _ _ Hpos indicators_NoDup) as Hnd.
  destruct (select_values_Some (dropna data_with_indicators) idxs Hwf' Hrange)
    as (X' & Hsel' & HlenX & Hrect & Hentries).
  assert (X' = X) as -> by congruence.
  unfold assign_values in *. cbn [rows columns] in *.
  apply lookup_zip_with_Some in Hr' as (r & v & -> & Hr & Hv).
  apply list_elem_of_lookup in Hname as [k Hk].
  destruct (positions_lookup _ _ _ _ _ Hpos Hk) as (i & Hik & Hidx).
  unfold row_get. cbn [columns dropna]. rewrite Hidx.
  cbn [mbind option_bind cells].
  (* the entry of the table that was scaled *)
  unfold transform in Hv. rewrite list_lookup_fmap in Hv.
  destruct (X !! t) as [row|] eqn:Hrow; [|done].
  injection Hv as <-.
  pose proof (Hentries _ _ _ Hr Hrow _ _ Hik) as Hcell.
  assert (Hi : i < length (cells r)).
  { unfold well_formed in Hwf'. rewrite Forall_lookup in Hwf'.
    rewrite (Hwf' _ _ Hr). by eapply index_of_lt. }
  destruct (lookup_lt_is_Some_2 (cells r) i Hi) as [c Hc].
  assert (Hcna : isna c = false).
  { eapply row_complete_lookup; [|exact Hc].
    unfold no_missing in Hnm. rewrite Forall_lookup in Hnm. by eapply Hnm. }
  destruct c as [x|]; [|done]. rewrite Hc in Hcell.
  assert (Hk' : k < length idxs) by by eapply lookup_lt_Some.
  assert (Hcol : column k X !! t = Some (Some x)).
  { apply (column_lookup X (length idxs)); [done..|]. by exists row. }
  destruct (fit_transform_any_column X (length idxs) k Hrect Hk')
    as (scaler' & lo & hi & Hft & Hlo & Hhi & Hle & Hb & Hs & Hmn).
  { exists x. by eapply list_elem_of_lookup_2. }
  assert (scaler' = scaler) as ->.
  { unfold fit_transform in Hft. rewrite Hfit in Hft. by injection Hft. }
  pose proof (transform_entry scaler X _ k t _ _ _ Hrect Hk' Hs Hmn Hcol)
    as Hy.
  unfold column, transform in Hy.
  rewrite !list_lookup_fmap, Hrow in Hy. cbn in Hy.
  eexists. split.
  - eapply write_cells_written; [done|exact Hik| |done].
    destruct (zip_with cell_add (zip_with cell_mul row (scale_ scaler))
                (min_ scaler) !! k) as [c|] eqn:Hz.
    + cbn in Hy. injection Hy as ->. reflexivity.
    + exfalso. apply lookup_ge_None in Hz.
      rewrite !length_zip_with in Hz.
      rewrite Forall_lookup in Hrect. pose proof (Hrect _ _ Hrow).
      apply lookup_lt_Some in Hs, Hmn. lia.
  - apply scaled_any_in_unit_interval, Hb.
    by eapply list_elem_of_lookup_2.
Qed.

(** X13. The post-normalizer cell raises when an indicator column is
    missing, and also when every row holds a NaN, as in a table shorter
    than the warm-up of its indicators: the scaler then gets no row. *)
Theorem post_normalize_raises (data_with_indicators : DataFrame) :
  ((∃ name, name ∈ indicators_to_normalize
            ∧ index_of name (columns data_with_indicators) = None)
   ∨ Forall (λ r, row_complete r = false) (rows data_with_indicators)) →
  post_normalize data_with_indicators = None.
Proof.
  intros [(name & Hname & Hidx)|Hall]; unfold post_normalize;
    cbn [columns dropna].
  - destruct (positions _ indicators_to_normalize) as [idxs|] eqn:Hpos;
      [|done].
    apply list_elem_of_lookup in Hname as [k Hk].
    destruct (positions_lookup _ _ _ _ _ Hpos Hk) as (i & _ & Hi).
    congruence.
  - destruct (positions _ indicators_to_normalize) as [idxs|]; [|done].
    cbn [mbind option_bind]. unfold select_values.
    assert (Hnil : rows (dropna data_with_indicators) = []).
    { unfold dropna. cbn [rows].
      induction Hall as [|r l Hr _ IH]; [done|]. simpl. by rewrite Hr. }
    rewrite Hnil. reflexivity.
Qed.

(** ** Edge behaviour of the sequence builder and of the splits *)

(** X14. On a well-formed frame [create_sequences] raises exactly when
    the window is shorter than the frame and there is no Close column;
    with a window at least as long as the frame it returns two empty
    lists, Close column or not. *)
Theorem create_sequences_raises_iff (data : DataFrame) (window_size : nat) :
  well_formed data →
  (create_sequences data window_size = None
   ↔ window_size < len data ∧ index_of "Close" (columns data) = None)
  ∧ (len data ≤ window_size → create_sequences data window_size = Some ([], [])).
Proof.
  intros Hwf. split; [split|].
  - intros Hnone.
    destruct (index_of "Close" (columns data)) as [cpos|] eqn:Hc.
    { destruct (create_sequences_result data window_size cpos Hwf Hc)
        as (X & y & Heq & _). congruence. }
    split; [|done].
    destruct (decide (window_size < len data)) as [|Hge]; [done|].
    unfold create_sequences in Hnone.
    replace (len data - window_size) with 0 in Hnone by lia. done.
  - intros [Hlt Hc]. unfold create_sequences.
    destruct (len data - window_size) as [|n] eqn:Hn; [lia|].
    cbn [seq create_sequences_loop]. unfold iloc.
    destruct (rows data !! (0 + window_size)) as [r|]; [|done].
    cbn [mbind option_bind]. unfold row_get. by rewrite Hc.
  - intros Hge. unfold create_sequences.
    by replace (len data - window_size) with 0 by lia.
Qed.

(** X15. Consecutive sequences overlap in all but one row: sequence
    [i + 1] is sequence [i] without its first row, followed by row
    [i + w] of the frame, and the target of sequence [i] is the Close
    entry of that row, the last row of sequence [i + 1]. *)
Theorem create_sequences_slide
    (data : DataFrame) (w cpos : nat) (X : list window) (y : list cell)
    (i : nat) :
  well_formed data →
  index_of "Close" (columns data) = Some cpos →
  create_sequences data w = Some (X, y) →
  0 < w →
  S i < len data - w →
  ∃ s s' r,
    X !! i = Some s
    ∧ X !! S i = Some s'
    ∧ rows data !! (i + w) = Some r
    ∧ s' = drop 1 s ++ [cells r]
    ∧ y !! i = cells r !! cpos.
Proof.
  intros Hwf Hc Hcs Hw Hi.
  destruct (create_sequences_result data w cpos Hwf Hc)
    as (X' & y' & Heq & HX & Hy & Hk).
  assert (X' = X ∧ y' = y) as [-> ->] by (split; congruence).
  destruct (Hk i ltac:(lia)) as (HXi & r & c & Hr & Hcell & Hyi).
  destruct (Hk (S i) ltac:(lia)) as (HXi' & _).
  eexists _, _, r. split; [exact HXi|]. split; [exact HXi'|].
  split; [done|]. split; [|by rewrite Hyi, Hcell].
  apply list_eq. intros j.
  assert (Hl1 : length (cells <$> take w (drop (S i) (rows data))) = w).
  { rewrite length_fmap, length_take, length_drop. unfold len in *. lia. }
  assert (Hl2 : length (drop 1 (cells <$> take w (drop i (rows data))))
                = w - 1).
  { rewrite length_drop, length_fmap, length_take, length_drop.
    unfold len in *. lia. }
  destruct (decide (j < w - 1)) as [Hj|Hj].
  - rewrite lookup_app_l by lia. rewrite lookup_drop.
    rewrite !window_lookup by lia. do 2 f_equal. lia.
  - rewrite lookup_app_r by lia. rewrite Hl2.
    destruct (decide (j = w - 1)) as [->|Hne].
    + rewrite Nat.sub_diag. cbn. rewrite window_lookup by lia.
      replace (S i + (w - 1)) with (i + w) by lia. by rewrite Hr.
    + rewrite !lookup_ge_None_2; [done|simpl; lia|lia].
Qed.

(** X16. The baseline split [train_test_split(X, y, test_size=0.2,
    shuffle=False)] raises exactly when the two inputs differ in length
    or there are fewer than two samples; when it returns, neither part is
    empty and the two parts together have every sample. *)
Theorem train_test_split_raises_iff {A B} (X : list A) (y : list B) :
  (train_test_split X y (2 # 10) = None
   ↔ length X ≠ length y ∨ length X < 2)
  ∧ ∀ X_train X_test y_train y_test,
      train_test_split X y (2 # 10) = Some (X_train, X_test, y_train, y_test) →
      X_train ≠ [] ∧ X_test ≠ []
      ∧ length X_train + length X_test = length X
      ∧ length y_train = length X_train
      ∧ length y_test = length X_test.
Proof.
  assert (Hsmall : ∀ n, n < 2 → validate_shuffle_split n (2 # 10) = None).
  { intros [|[|n]] Hn; [reflexivity..|lia]. }
  assert (Hk : ∀ n, 2 ≤ n → 0 < 4 * n / 5 < n).
  { intros n Hn. split; [apply Nat.div_str_pos; lia|].
    apply Nat.Div0.div_lt_upper_bound. lia. }
  split; [split|].
  - unfold train_test_split.
    destruct (Nat.eqb_spec (length X) (length y)) as [Heq|Hne]; [|by left].
    destruct (decide (length X < 2)) as [|Hge]; [by right|].
    rewrite validate_shuffle_split_sizes by lia. done.
  - unfold train_test_split. intros [Hne|Hlt].
    + by destruct (Nat.eqb_spec (length X) (length y)).
    + destruct (length X =? length y); [|done]. by rewrite Hsmall.
  - intros X_train X_test y_train y_test. unfold train_test_split.
    destruct (Nat.eqb_spec (length X) (length y)) as [Heq|Hne]; [|done].
    destruct (decide (length X < 2)) as [Hlt|Hge].
    { by rewrite Hsmall. }
    rewrite validate_shuffle_split_sizes by lia.
    cbn [mbind option_bind fst snd].
    specialize (Hk (length X) ltac:(lia)).
    set (k := 4 * length X / 5) in *. clearbody k.
    intros [= <- <- <- <-].
    split; [|split; [|split; [|split]]].
    + intros Hnil%(f_equal length). rewrite length_take in Hnil.
      cbn [length] in Hnil. lia.
    + intros Hnil%(f_equal length).
      rewrite length_take, length_drop in Hnil. cbn [length] in Hnil. lia.
    + rewrite !length_take, !length_drop. lia.
    + rewrite !length_take. lia.
    + rewrite !length_take, !length_drop. lia.
Qed.

(** X17. The split of the sequence cells never raises; it puts
    [floor(0.8 n)] sequences in the training set and the others in the
    test set, so the test set is empty only without any sequence and the
    training set is empty whenever there are fewer than two sequences. *)
Theorem split_sequences_sizes {A B} (X : list A) (y : list B) :
  length X = length y →
  ∃ X_train X_test y_train y_test,
    split_sequences X y = (X_train, X_test, y_train, y_test)
    ∧ length X_train = 4 * length X / 5
    ∧ length X_test = length X - 4 * length X / 5
    ∧ length y_train = length X_train
    ∧ length y_test = length X_test
    ∧ (X_test = [] ↔ X = [])
    ∧ (X_train = [] ↔ length X < 2).
Proof.
  intros Hlen. unfold split_sequences. rewrite train_size_of_floor.
  do 4 eexists. split; [done|].
  set (k := 4 * length X / 5) in *.
  assert (Hle : k ≤ length X).
  { apply Nat.Div0.div_le_upper_bound. lia. }
  assert (Hlt : 0 < length X → k < length X).
  { intros. apply Nat.Div0.div_lt_upper_bound. lia. }
  assert (Hpos : 2 ≤ length X → 0 < k).
  { intros. apply Nat.div_str_pos. lia. }
  assert (Hsmall : length X < 2 → k = 0).
  { unfold k. destruct (length X) as [|[|n]]; [reflexivity..|lia]. }
  clearbody k.
  split; [rewrite length_take; lia|].
  split; [by rewrite length_drop|].
  split; [rewrite !length_take; lia|].
  split; [rewrite !length_drop; lia|].
  split; split.
  - intros Hnil%(f_equal length). rewrite length_drop in Hnil.
    cbn [length] in Hnil. destruct X; [done|]. cbn [length] in *. lia.
  - intros ->. by rewrite drop_nil.
  - intros Hnil%(f_equal length). rewrite length_take in Hnil.
    cbn [length] in Hnil. destruct (decide (length X < 2)); [done|]. lia.
  - intros Hn. rewrite (Hsmall Hn). by rewrite take_0.
Qed.

(** X18. Running the baseline cell again on the frame it left behind
    drops one more row: the Target column is written anew from the Close
    column and the new last row loses its target.  The header stays. *)
Theorem add_target_twice (data0 : DataFrame) :
  well_formed data0 →
  no_missing data0 →
  is_Some (index_of "Close" (columns data0)) →
  ∃ data1 data2,
    add_target data0 = Some data1
    ∧ add_target data1 = Some data2
    ∧ len data1 = len data0 - 1
    ∧ len data2 = len data0 - 2
    ∧ columns data2 = columns data1.
Proof.
  intros Hwf Hnm [cpos Hc].
  destruct (add_target_result data0 cpos Hwf Hnm Hc)
    as (close & Hclose & Hlen & Hlook & Hadd).
  fold (with_target data0 close) in Hadd.
  pose proof (with_target_well_formed data0 close Hwf) as Hwf1.
  pose proof (with_target_len data0 close Hlen) as Hlen1.
  assert (Hc1 : index_of "Close" (columns (with_target data0 close))
                = Some cpos).
  { unfold with_target. simpl. by rewrite set_column_index_of_other. }
  assert (Ht1 : is_Some (index_of "Target"
                           (columns (with_target data0 close)))).
  { eexists. apply set_column_index_of. }
  assert (Hnm1 : no_missing (with_target data0 close)).
  { assert (Hd : dropna (set_column data0 "Target" (shift_back close))
                 = with_target data0 close).
    { unfold add_target in Hadd. rewrite Hclose in Hadd.
      cbn [mbind option_bind] in Hadd. congruence. }
    rewrite <- Hd. apply dropna_no_missing. }
  remember (with_target data0 close) as data1 eqn:Hd1. clear Hd1.
  destruct (add_target_result data1 cpos Hwf1 Hnm1 Hc1)
    as (close1 & Hclose1 & Hlen1' & _ & Hadd1).
  fold (with_target data1 close1) in Hadd1.
  exists data1, (with_target data1 close1).
  split; [done|]. split; [done|]. split; [done|]. split.
  - rewrite with_target_len by done. lia.
  - unfold with_target, set_column. cbn [columns].
    destruct Ht1 as [tpos ->]. done.
Qed.

(** X19. What the post-normalizer cell returns is fit for the cells after
    it: with a Close column, the baseline cell returns on it and leaves
    one row less, and [create_sequences] returns on that frame for every
    window size, with one sequence per row beyond the window. *)
Theorem pipeline_after_post_normalize
    (data_with_indicators : DataFrame) (scaler : MinMaxScaler)
    (data0 : DataFrame) (window_size : nat) :
  well_formed data_with_indicators →
  is_Some (index_of "Close" (columns data_with_indicators)) →
  post_normalize data_with_indicators = Some (scaler, data0) →
  ∃ data X y,
    add_target data0 = Some data
    ∧ len data = len (dropna data_with_indicators) - 1
    ∧ create_sequences data window_size = Some (X, y)
    ∧ length X = len data - window_size
    ∧ length y = len data - window_size.
Proof.
  intros Hwf [cpos Hc] Hpn.
  destruct (post_normalize_clean _ _ _ Hwf Hpn)
    as (Hcols & Hdates & Hpos & Hwf0 & Hnm0).
  rewrite <- Hcols in Hc.
  destruct (add_target_result data0 cpos Hwf0 Hnm0 Hc)
    as (close & Hclose & Hlen & Hlook & Hadd).
  fold (with_target data0 close) in Hadd.
  pose proof (with_target_well_formed data0 close Hwf0) as Hwf1.
  pose proof (with_target_len data0 close Hlen) as Hlen1.
  assert (Hc1 : index_of "Close" (columns (with_target data0 close))
                = Some cpos).
  { unfold with_target. simpl. by rewrite set_column_index_of_other. }
  destruct (create_sequences_result _ window_size cpos Hwf1 Hc1)
    as (X & y & Heq & HX & Hy & _).
  exists (with_target data0 close), X, y.
  split; [done|]. split; [|done].
  rewrite Hlen1. f_equal.
  apply (f_equal length) in Hdates. rewrite !length_fmap in Hdates.
  exact Hdates.
Qed.

(** ** Error metrics *)

Section ErrorMetrics.

#[local] Open Scope Q_scope.

Lemma Qsum_nonneg_zero (l : list Q) :
  Forall (λ q, 0 <= q) l → (Qsum l == 0 ↔ Forall (λ q, q == 0) l).
Proof.
  induction 1 as [|q l Hq Hl IH]; cbn [Qsum foldr].
  - split; [constructor|reflexivity].
  - fold (Qsum l). pose proof (Qsum_nonneg l Hl) as Hs.
    rewrite Forall_cons, <- IH. split; [intros; split; lra|intros [? ?]; lra].
Qed.

Lemma differences_zero (l k : list Q) :
  length l = length k →
  (Forall (λ d, d == 0) (zip_with Qminus l k) ↔ Forall2 Qeq l k).
Proof.
  revert k. induction l as [|a l IH]; intros [|b k] Hlen; simpl in *;
    try done.
  rewrite Forall_cons, Forall2_cons, IH by lia.
  split; (intros [? ?]; split; [lra|done]).
Qed.

Lemma square_is_abs_square (d : Q) : d * d == Qabs d * Qabs d.
Proof.
  destruct (Qlt_le_dec d 0) as [Hd|Hd].
  - rewrite (Qabs_neg d) by lra. ring.
  - by rewrite (Qabs_pos d).
Qed.

Lemma Qsquare_nonneg (x : Q) : 0 <= x * x.
Proof.
  destruct (Qlt_le_dec x 0) as [Hx|Hx].
  - assert (x * x == (- x) * (- x)) as -> by ring.
    apply Qmult_le_0_compat; lra.
  - by apply Qmult_le_0_compat.
Qed.

(** The sum of the squares of [|d| - a] over the errors. *)
Lemma sum_of_shifted_squares (ds : list Q) (a : Q) :
  0 <= Qsum ((λ d, d * d) <$> ds) - 2 * a * Qsum (Qabs <$> ds)
       + inject_Z (Z.of_nat (length ds)) * a * a.
Proof.
  induction ds as [|d ds IH].
  - cbn. ring_simplify. apply Qle_refl.
  - cbn [fmap list_fmap Qsum foldr length].
    fold (fmap (M:=list) (λ d, d * d) ds). fold (fmap (M:=list) Qabs ds).
    fold (Qsum ((λ d, d * d) <$> ds)). fold (Qsum (Qabs <$> ds)).
    rewrite Nat2Z.inj_succ, <- Z.add_1_r, inject_Z_plus.
    change (inject_Z 1) with 1.
    pose proof (square_is_abs_square d) as Hsq.
    pose proof (Qsquare_nonneg (Qabs d - a)).
    nra.
Qed.

(** Cauchy-Schwarz for the errors: the square of the sum of the absolute
    errors is at most the number of errors times the sum of squares. *)
Lemma abs_sum_squared (ds : list Q) :
  Qsum (Qabs <$> ds) * Qsum (Qabs <$> ds)
  <= inject_Z (Z.of_nat (length ds)) * Qsum ((λ d, d * d) <$> ds).
Proof.
  induction ds as [|d ds IH].
  - cbn. apply Qle_refl.
  - pose proof (sum_of_shifted_squares ds (Qabs d)) as Hshift.
    cbn [fmap list_fmap Qsum foldr length].
    fold (fmap (M:=list) (λ d, d * d) ds). fold (fmap (M:=list) Qabs ds).
    fold (Qsum ((λ d, d * d) <$> ds)). fold (Qsum (Qabs <$> ds)).
    rewrite Nat2Z.inj_succ, <- Z.add_1_r, inject_Z_plus.
    change (inject_Z 1) with 1.
    rewrite (square_is_abs_square d).
    nra.
Qed.

End ErrorMetrics.

Section ErrorMetricProperties.

#[local] Open Scope Q_scope.

Lemma mean_of_errors_None f y_true y_pred :
  mean_of_errors f y_true y_pred = None
  ↔ length y_true ≠ length y_pred ∨ y_true = [].
Proof.
  unfold mean_of_errors.
  destruct (Nat.eqb_spec (length y_true) (length y_pred)) as [Heq|Hne];
    cbn [andb].
  - destruct y_true as [|a l]; cbn.
    + split; [by right|done].
    + split; [done|]. intros [?|?]; done.
  - split; [by left|done].
Qed.

Lemma mean_of_errors_Some f y_true y_pred m :
  mean_of_errors f y_true y_pred = Some m →
  length y_true = length y_pred
  ∧ 0 < inject_Z (Z.of_nat (length y_true))
  ∧ length (zip_with Qminus y_true y_pred) = length y_true
  ∧ m = Qsum (f <$> zip_with Qminus y_true y_pred)
        / inject_Z (Z.of_nat (length y_true)).
Proof.
  unfold mean_of_errors.
  destruct (Nat.eqb_spec (length y_true) (length y_pred)) as [Heq|Hne];
    [|done].
  destruct (Nat.ltb_spec 0 (length y_true)) as [Hpos|Hz]; [|done].
  cbn [andb]. intros [= <-]. split; [done|]. split.
  - change 0 with (inject_Z 0). rewrite <- Zlt_Qlt. lia.
  - split; [|done]. rewrite length_zip_with. lia.
Qed.

Lemma mean_zero_iff (s n : Q) : 0 < n → (s / n == 0 ↔ s == 0).
Proof.
  intros Hn. split; intros Hs.
  - assert (s == s / n * n) as -> by (field; lra). rewrite Hs. ring.
  - rewrite Hs. field. lra.
Qed.

End ErrorMetricProperties.

(** X20. The two error metrics raise exactly when predictions and targets
    differ in number or there is no sample; otherwise both are numbers
    that are not negative, and each is zero exactly when every prediction
    equals its target. *)
Theorem error_metrics_zero_iff_exact (y_true y_pred : list Q) :
  (mean_squared_error y_true y_pred = None
   ↔ length y_true ≠ length y_pred ∨ y_true = [])
  ∧ (mean_absolute_error y_true y_pred = None
     ↔ length y_true ≠ length y_pred ∨ y_true = [])
  ∧ (∀ mse, mean_squared_error y_true y_pred = Some mse →
       (0 <= mse)%Q ∧ ((mse == 0)%Q ↔ Forall2 Qeq y_true y_pred))
  ∧ (∀ mae, mean_absolute_error y_true y_pred = Some mae →
       (0 <= mae)%Q ∧ ((mae == 0)%Q ↔ Forall2 Qeq y_true y_pred)).
Proof.
  split; [apply mean_of_errors_None|]. split; [apply mean_of_errors_None|].
  split.
  - intros mse (Hlen & Hn & _ & ->)%mean_of_errors_Some.
    assert (Hall : Forall (λ q, (0 <= q)%Q)
                     ((λ d, d * d)%Q <$> zip_with Qminus y_true y_pred)).
    { apply Forall_fmap, Forall_true. intros d. apply Qsquare_nonneg. }
    split.
    + apply Qle_shift_div_l; [done|]. rewrite Qmult_0_l.
      by apply Qsum_nonneg.
    + rewrite mean_zero_iff, Qsum_nonneg_zero, <- differences_zero by done.
      rewrite Forall_fmap. apply Forall_iff. intros d. simpl.
      split; intros Hd.
      * destruct (Qlt_le_dec d 0); destruct (Qlt_le_dec 0 d); nra.
      * rewrite Hd. reflexivity.
  - intros mae (Hlen & Hn & _ & ->)%mean_of_errors_Some.
    assert (Hall : Forall (λ q, (0 <= q)%Q)
                     (Qabs <$> zip_with Qminus y_true y_pred)).
    { apply Forall_fmap, Forall_true. intros d. apply Qabs_nonneg. }
    split.
    + apply Qle_shift_div_l; [done|]. rewrite Qmult_0_l.
      by apply Qsum_nonneg.
    + rewrite mean_zero_iff, Qsum_nonneg_zero, <- differences_zero by done.
      rewrite Forall_fmap. apply Forall_iff. intros d. simpl.
      split; intros Hd.
      * destruct (Qlt_le_dec d 0) as [Hneg|Hpos].
        -- rewrite Qabs_neg in Hd by lra. lra.
        -- rewrite Qabs_pos in Hd by done. done.
      * rewrite Hd. reflexivity.
Qed.

(** X21. The mean absolute error never exceeds the root of the mean
    squared error: its square is at most the mean squared error. *)
Theorem mae_squared_le_mse (y_true y_pred : list Q) (mse mae : Q) :
  mean_squared_error y_true y_pred = Some mse →
  mean_absolute_error y_true y_pred = Some mae →
  (mae * mae <= mse)%Q.
Proof.
  intros (Hlen & Hn & Hlz & ->)%mean_of_errors_Some
         (_ & _ & _ & ->)%mean_of_errors_Some.
  pose proof (abs_sum_squared (zip_with Qminus y_true y_pred)) as Hcs.
  rewrite Hlz in Hcs.
  set (n := inject_Z (Z.of_nat (length y_true))) in *.
  set (S := Qsum (Qabs <$> zip_with Qminus y_true y_pred)) in *.
  set (T := Qsum ((λ d, d * d)%Q <$> zip_with Qminus y_true y_pred)) in *.
  apply Qle_shift_div_l; [done|].
  assert (Heq : (S / n * (S / n) * n == S * S / n)%Q) by (field; lra).
  rewrite Heq. apply Qle_shift_div_r; [done|].
  by rewrite (Qmult_comm T n).
Qed.

(** ** The metric object *)

Lemma absolute_error_mean_is_mae y_true y_pred mae :
  mean_absolute_error y_true y_pred = Some mae →
  ∃ a, absolute_error_mean y_true y_pred = Some a ∧ (a == mae)%Q.
Proof.
  intros (Hlen & Hn & _ & ->)%mean_of_errors_Some.
  unfold absolute_error_mean. destruct y_true as [|y0 l]; [done|].
  eexists. split; [done|].
  assert (Hsum : ∀ l k : list Q,
            (Qsum (Qabs <$> zip_with Qminus k l)
             == Qsum (Qabs <$> zip_with Qminus l k))%Q).
  { clear. induction l as [|a l IH]; intros [|b k]; try reflexivity.
    cbn [zip_with fmap list_fmap Qsum foldr].
    fold (fmap (M:=list) Qabs (zip_with Qminus k l)).
    fold (fmap (M:=list) Qabs (zip_with Qminus l k)).
    fold (Qsum (Qabs <$> zip_with Qminus k l)).
    fold (Qsum (Qabs <$> zip_with Qminus l k)).
    rewrite IH. rewrite (Qabs_Qminus b a). reflexivity. }
  by rewrite Hsum.
Qed.

(** X22. The sequence cell asks one metric object for both errors, and
    the object keeps its state: the first value it returns is the mean
    absolute error of the LSTM predictions, but the second is the average
    of the LSTM and the GRU errors, and equals the error of the GRU
    predictions only when the two errors coincide. *)
Theorem second_mae_is_an_average
    (y_test lstm_predictions gru_predictions : list Q) (lstm gru : Q) :
  mean_absolute_error y_test lstm_predictions = Some lstm →
  mean_absolute_error y_test gru_predictions = Some gru →
  ∃ lstm_mae gru_mae,
    report_maes y_test lstm_predictions gru_predictions
      = Some (Some lstm_mae, Some gru_mae)
    ∧ (lstm_mae == lstm)%Q
    ∧ (gru_mae == (lstm + gru) / 2)%Q
    ∧ ((gru_mae == gru)%Q ↔ (lstm == gru)%Q).
Proof.
  intros Hl Hg.
  destruct (absolute_error_mean_is_mae _ _ _ Hl) as (a & Ha & Hal).
  destruct (absolute_error_mean_is_mae _ _ _ Hg) as (b & Hb & Hbg).
  apply mean_of_errors_Some in Hl as (Hlen1 & _).
  apply mean_of_errors_Some in Hg as (Hlen2 & _).
  apply Nat.eqb_eq in Hlen1, Hlen2.
  unfold report_maes, metric_call, update_state, new_mean_metric.
  cbn [total count]. rewrite Hlen1.
  cbn [mbind option_bind fst snd total count]. rewrite Hlen2.
  cbn [mbind option_bind fst snd].
  rewrite Ha, Hb. unfold result. cbn [total count cell_add cell_div lift2].
  change (Qeq_bool (0 + 1) 0) with false.
  change (Qeq_bool (0 + 1 + 1) 0) with false.
  eexists _, _. split; [done|].
  split; [rewrite Hal; field|].
  assert (Hsecond : ((0 + a + b) / (0 + 1 + 1) == (lstm + gru) / 2)%Q).
  { rewrite Hal, Hbg. field. }
  split; [exact Hsecond|]. rewrite Hsecond.
  assert (Hhalf : ((lstm + gru) / 2 == (lstm + gru) * (1 # 2))%Q) by field.
  rewrite Hhalf. split; intros H; lra.
Qed.

(** ** Batches *)

Lemma join_batches {A} (n m : nat) (l : list A) :
  0 < n → length l ≤ m * n →
  mjoin ((λ k, take n (drop (k * n) l)) <$> seq 0 m) = l.
Proof.
  intros Hn. revert l. induction m as [|m IH]; intros l Hlen.
  - simpl in *. by destruct l; [|simpl in Hlen; lia].
  - cbn [seq fmap list_fmap mjoin list_join].
    rewrite <- fmap_S_seq, <- list_fmap_compose.
    change (0 * n) with 0. rewrite drop_0.
    transitivity (take n l ++ drop n l); [|apply take_drop]. f_equal.
    rewrite <- (IH (drop n l)) by (rewrite length_drop; lia).
    f_equal. apply list_fmap_ext. intros _ k _. simpl.
    rewrite drop_drop. do 2 f_equal.
Qed.

(** X23. Batching loses nothing and keeps the order: the dataset pairs
    sequence [i] with target [i], the batches put end to end are the
    dataset, every batch holds at least one and at most [batch_size]
    pairs, and every batch but the last holds exactly [batch_size]. *)
Theorem batches_cover_the_dataset
    {A B} (X : list A) (y : list B) (batch_size : nat) :
  length X = length y →
  0 < batch_size →
  ∃ dataset batches,
    from_tensor_slices X y = Some dataset
    ∧ batch batch_size dataset = Some batches
    ∧ dataset.*1 = X ∧ dataset.*2 = y
    ∧ mjoin batches = dataset
    ∧ length batches = (length X + batch_size - 1) / batch_size
    ∧ Forall (λ b, 0 < length b ≤ batch_size) batches
    ∧ ∀ k b, batches !! k = Some b → S k < length batches →
        length b = batch_size.
Proof.
  intros Hlen Hb. unfold from_tensor_slices, batch.
  rewrite (proj2 (Nat.eqb_eq _ _) Hlen).
  destruct (Nat.eqb_spec batch_size 0) as [|_]; [lia|].
  eexists _, _. split; [done|]. split; [done|].
  split; [by apply fst_zip; lia|]. split; [by apply snd_zip; lia|].
  assert (Hz : length (zip X y) = length X).
  { rewrite length_zip. lia. }
  rewrite Hz.
  set (m := (length X + batch_size - 1) / batch_size).
  assert (Hm1 : length X ≤ m * batch_size).
  { unfold m.
    pose proof (Nat.div_mod_eq (length X + batch_size - 1) batch_size).
    pose proof (Nat.mod_upper_bound (length X + batch_size - 1) batch_size).
    nia. }
  assert (Hm2 : 0 < m → (m - 1) * batch_size < length X).
  { unfold m. intros Hpos.
    pose proof (Nat.div_mod_eq (length X + batch_size - 1) batch_size).
    nia. }
  clearbody m.
  split; [apply join_batches; lia|].
  split; [by rewrite length_fmap, length_seq|].
  split.
  - apply Forall_lookup. intros k b Hk. rewrite list_lookup_fmap in Hk.
    destruct (seq 0 m !! k) as [k'|] eqn:Hk'; [|done].
    apply lookup_seq in Hk' as [-> Hkm]. injection Hk as <-.
    rewrite length_take, length_drop, Hz. simpl.
    assert (k * batch_size ≤ (m - 1) * batch_size) by nia. lia.
  - intros k b Hk Hlast. rewrite length_fmap, length_seq in Hlast.
    rewrite list_lookup_fmap in Hk.
    destruct (seq 0 m !! k) as [k'|] eqn:Hk'; [|done].
    apply lookup_seq in Hk' as [-> Hkm]. injection Hk as <-.
    rewrite length_take, length_drop, Hz. simpl.
    assert (S k * batch_size ≤ (m - 1) * batch_size) by nia. lia.
Qed.

(** ** The null report *)

Lemma filter_isna_length (l : list cell) :
  length (List.filter isna l) = 0 ↔ Forall (λ c, isna c = false) l.
Proof.
  induction l as [|c l IH]; simpl; [split; [constructor|done]|].
  rewrite Forall_cons. destruct (isna c); simpl.
  - split; [lia|by intros [? _]].
  - rewrite IH. tauto.
Qed.

(** X24. On a well-formed table the null report shows zero for every
    column exactly when no row holds a NaN, and then dropping the rows
    with NaN changes nothing. *)
Theorem null_report_zero_iff_complete (data : DataFrame) :
  well_formed data →
  (Forall (λ n, n = 0) (isnull_sum data) ↔ no_missing data)
  ∧ (no_missing data → dropna data = data).
Proof.
  intros Hwf. split.
  - unfold isnull_sum, no_missing. rewrite Forall_fmap. split.
    + intros Hzero. apply Forall_lookup. intros t r Hr.
      apply row_complete_spec. intros c [j Hc]%list_elem_of_lookup.
      assert (Hj : j < length (columns data)).
      { unfold well_formed in Hwf. rewrite Forall_lookup in Hwf.
        rewrite <- (Hwf _ _ Hr). by eapply lookup_lt_Some. }
      rewrite Forall_forall in Hzero.
      specialize (Hzero j ltac:(apply elem_of_seq; lia)). simpl in Hzero.
      apply filter_isna_length in Hzero. rewrite Forall_lookup in Hzero.
      apply (Hzero t). unfold column, values.
      by rewrite !list_lookup_fmap, Hr; simpl; rewrite Hc.
    + intros Hnm. apply Forall_forall. intros j Hj%elem_of_seq. simpl.
      apply filter_isna_length, Forall_lookup. intros t c Hc.
      unfold column, values in Hc. rewrite !list_lookup_fmap in Hc.
      destruct (rows data !! t) as [r|] eqn:Hr; [|done]. simpl in Hc.
      injection Hc as <-.
      destruct (cells r !! j) as [c|] eqn:Hcell.
      * simpl. eapply row_complete_lookup; [|exact Hcell].
        rewrite Forall_lookup in Hnm. by eapply Hnm.
      * exfalso. apply lookup_ge_None in Hcell.
        unfold well_formed in Hwf. rewrite Forall_lookup in Hwf.
        rewrite (Hwf _ _ Hr) in Hcell. lia.
  - apply dropna_of_complete.
Qed.

(** * The properties on the example inputs *)

Lemma cells_within_spec (lo hi : Q) (l : list cell) :
  cells_within lo hi l = true → ∀ q, Some q ∈ l → (lo <= q <= hi)%Q.
Proof.
  unfold cells_within. rewrite forallb_forall. intros H q Hq.
  apply list_elem_of_In in Hq. specialize (H _ Hq). simpl in H.
  apply andb_true_iff in H as [H1 H2].
  by split; apply Qle_bool_iff.
Qed.

Lemma sma_defined_iff_witness :
  SMA 2 closes_with_gap !! 4 ≠ Some None
  ↔ 2 ≤ 5 ∧ ∀ i, 5 - 2 ≤ i ≤ 4 → ∃ q, closes_with_gap !! i = Some (Some q).
Proof.
  apply (sma_defined_iff 2 closes_with_gap 4); simpl; lia.
Defined.

Lemma sma_is_bounded_mean_witness :
  ∃ v, SMA 2 closes_with_gap !! 4 = Some (Some v) ∧ (0 <= v <= 1)%Q.
Proof.
  assert (∃ v, SMA 2 closes_with_gap !! 4 = Some (Some v)) as [v H]
    by (eexists; reflexivity).
  exists v. split; [exact H|].
  apply (sma_is_bounded_mean 2 closes_with_gap 4 v 0 1);
    [lia | apply cells_within_spec; reflexivity | exact H].
Defined.

Lemma ema_is_nan_only_before_first_close_witness :
  length (EMA_10 closes_with_gap) = length closes_with_gap
  ∧ (EMA_10 closes_with_gap !! 2 = Some None
     ↔ ∀ i, i ≤ 2 → closes_with_gap !! i = Some None)
  ∧ EMA_10 closes_with_gap !! 2 = EMA_10 closes_with_gap !! 1.
Proof.
  destruct (ema_is_nan_only_before_first_close closes_with_gap 2)
    as (Hlen & Hnan & Hgap).
  - simpl. lia.
  - split; [exact Hlen|]. split; [exact Hnan|].
    apply Hgap; [lia|reflexivity].
Defined.

Lemma ema_is_bounded_witness :
  ∃ v, EMA_10 closes_with_gap !! 4 = Some (Some v) ∧ (0 <= v <= 1)%Q.
Proof.
  assert (∃ v, EMA_10 closes_with_gap !! 4 = Some (Some v)) as [v H]
    by (eexists; reflexivity).
  exists v. split; [exact H|].
  apply (ema_is_bounded closes_with_gap 4 v 0 1);
    [apply cells_within_spec; reflexivity | exact H].
Defined.

Lemma atr_nonnegative_from_row_14_witness :
  ∃ atr v,
    ATR_14 gap_example = Some atr
    ∧ atr !! 14 = Some (Some v)
    ∧ (0 <= v)%Q.
Proof.
  assert (∃ atr, ATR_14 gap_example = Some atr) as [atr Hatr]
    by (eexists; reflexivity).
  assert (∃ v, atr !! 14 = Some (Some v)) as [v Hv].
  { injection Hatr as <-. eexists. reflexivity. }
  exists atr, v. split; [exact Hatr|]. split; [exact Hv|].
  apply (atr_nonnegative_from_row_14 gap_example
           gap_highs gap_lows gap_closes atr 14 v);
    [reflexivity | reflexivity | reflexivity | exact Hatr | lia | exact Hv].
Defined.



Lemma minmax_any_column_scaled_in_order_witness :
  ∃ scaler X',
    fit_transform (values raw_frame) = Some (scaler, X')
    ∧ length X' = length (values raw_frame)
    ∧ column 1 X' !! 1 = Some None
    ∧ ∃ y, column 1 X' !! 2 = Some (Some y) ∧ (0 <= y <= 1)%Q.
Proof.
  destruct (minmax_any_column_scaled_in_order (values raw_frame) 2 1)
    as (scaler & X' & Hfit & Hlen & Hnum & Hnan & _).
  - by repeat constructor.
  - lia.
  - exists 10%Q. apply list_elem_of_In. simpl. tauto.
  - exists scaler, X'. split; [exact Hfit|]. split; [exact Hlen|].
    split; [by apply Hnan|]. by apply (Hnum 2 30%Q).
Defined.

Lemma minmax_constant_column_is_zero_witness :
  ∃ scaler X' y,
    fit_transform constant_feature_example = Some (scaler, X')
    ∧ column 0 X' !! 1 = Some (Some y)
    ∧ (y == 0)%Q.
Proof.
  destruct (minmax_constant_column_is_zero constant_feature_example 2 0
              (1 # 2)%Q)
    as (scaler & X' & Hfit & Hzero).
  - by repeat constructor.
  - lia.
  - exists (1 # 2)%Q. apply list_elem_of_In. simpl. tauto.
  - intros x Hx.
    apply (cells_within_spec (1 # 2) (1 # 2)) in Hx; [|reflexivity].
    destruct Hx. by apply Qle_antisym.
  - destruct (Hzero 1 (1 # 2)%Q eq_refl) as (y & Hy & Hy0).
    by exists scaler, X', y.
Defined.

Lemma indicator_example_well_formed : well_formed indicator_example.
Proof. by repeat constructor. Qed.

Lemma indicator_example_post_normalized :
  ∃ scaler data, post_normalize indicator_example = Some (scaler, data).
Proof. eexists _, _. reflexivity. Defined.

Lemma post_normalize_result_is_clean_witness :
  ∃ scaler data,
    post_normalize indicator_example = Some (scaler, data)
    ∧ columns data = columns indicator_example
    ∧ date <$> rows data = date <$> rows (dropna indicator_example)
    ∧ len data = len (dropna indicator_example)
    ∧ 0 < len data
    ∧ well_formed data
    ∧ no_missing data
    ∧ dropna data = data.
Proof.
  destruct indicator_example_post_normalized as (scaler & data & H).
  exists scaler, data. split; [exact H|].
  exact (post_normalize_result_is_clean indicator_example scaler data
           indicator_example_well_formed H).
Defined.

Lemma post_normalize_keeps_other_columns_witness :
  ∃ scaler data r r',
    post_normalize indicator_example = Some (scaler, data)
    ∧ rows (dropna indicator_example) !! 1 = Some r
    ∧ rows data !! 1 = Some r'
    ∧ date r' = date r
    ∧ row_get (columns data) r' "Volume"
      = row_get (columns indicator_example) r "Volume".
Proof.
  destruct indicator_example_post_normalized as (scaler & data & H).
  assert (∃ r, rows (dropna indicator_example) !! 1 = Some r) as [r Hr]
    by (eexists; reflexivity).
  assert (∃ r', rows data !! 1 = Some r') as [r' Hr'].
  { injection H as _ <-. eexists. reflexivity. }
  exists scaler, data, r, r'.
  split; [exact H|]. split; [exact Hr|]. split; [exact Hr'|].
  apply (post_normalize_keeps_other_columns indicator_example scaler data
           1 r r' "Volume" H Hr Hr').
  intros Hin%list_elem_of_In. simpl in Hin.
  repeat (destruct Hin as [Hin|Hin]; [discriminate Hin|]). exact Hin.
Defined.

Lemma post_normalize_indicators_in_unit_interval_witness :
  ∃ scaler data r' y,
    post_normalize indicator_example = Some (scaler, data)
    ∧ rows data !! 1 = Some r'
    ∧ row_get (columns data) r' "RSI_14" = Some (Some y)
    ∧ (0 <= y <= 1)%Q.
Proof.
  destruct indicator_example_post_normalized as (scaler & data & H).
  assert (∃ r', rows data !! 1 = Some r') as [r' Hr'].
  { injection H as _ <-. eexists. reflexivity. }
  destruct (post_normalize_indicators_in_unit_interval indicator_example
              scaler data 1 r' "RSI_14" indicator_example_well_formed H Hr')
    as (y & Hy & Hbounds).
  - apply list_elem_of_In. simpl. tauto.
  - by exists scaler, data, r', y.
Defined.

Lemma post_normalize_raises_witness :
  post_normalize five_days = None.
Proof.
  apply (post_normalize_raises five_days). left.
  exists "SMA_5". split; [|reflexivity].
  apply list_elem_of_In. simpl. tauto.
Defined.

Lemma create_sequences_raises_iff_witness :
  (create_sequences forty_days 30 = None
   ↔ 30 < len forty_days ∧ index_of "Close" (columns forty_days) = None)
  ∧ (len forty_days ≤ 30 → create_sequences forty_days 30 = Some ([], [])).
Proof.
  exact (create_sequences_raises_iff forty_days 30 forty_days_well_formed).
Defined.

Lemma create_sequences_slide_witness :
  ∃ X y s s' r,
    create_sequences five_days 2 = Some (X, y)
    ∧ X !! 0 = Some s
    ∧ X !! 1 = Some s'
    ∧ rows five_days !! 2 = Some r
    ∧ s' = drop 1 s ++ [cells r]
    ∧ y !! 0 = cells r !! 1.
Proof.
  assert (∃ X y, create_sequences five_days 2 = Some (X, y)) as (X & y & H)
    by (eexists _, _; reflexivity).
  destruct (create_sequences_slide five_days 2 1 X y 0
              five_days_well_formed eq_refl H)
    as (s & s' & r & H1 & H2 & H3 & H4 & H5).
  - lia.
  - unfold len. simpl. lia.
  - by exists X, y, s, s', r.
Defined.

Lemma split_sequences_sizes_witness :
  ∃ X_train X_test y_train y_test,
    split_sequences [1; 2; 3; 4; 5; 6] [10; 20; 30; 40; 50; 60]
      = (X_train, X_test, y_train, y_test)
    ∧ length X_train = 4
    ∧ length X_test = 2.
Proof.
  destruct (split_sequences_sizes [1; 2; 3; 4; 5; 6] [10; 20; 30; 40; 50; 60]
              eq_refl)
    as (X_train & X_test & y_train & y_test & H & H1 & H2 & _).
  by exists X_train, X_test, y_train, y_test.
Defined.

Lemma add_target_twice_witness :
  ∃ data1 data2,
    add_target five_days = Some data1
    ∧ add_target data1 = Some data2
    ∧ len data1 = 4
    ∧ len data2 = 3.
Proof.
  destruct (add_target_twice five_days five_days_well_formed
              five_days_no_missing five_days_has_close)
    as (data1 & data2 & H1 & H2 & H3 & H4 & _).
  by exists data1, data2.
Defined.

Lemma indicator_example_has_close :
  is_Some (index_of "Close" (columns indicator_example)).
Proof. by eexists. Qed.

Lemma pipeline_after_post_normalize_witness :
  ∃ scaler data0 data X y,
    post_normalize indicator_example = Some (scaler, data0)
    ∧ add_target data0 = Some data
    ∧ len data = 2
    ∧ create_sequences data 1 = Some (X, y)
    ∧ length X = 1
    ∧ length y = 1.
Proof.
  destruct indicator_example_post_normalized as (scaler & data0 & H).
  destruct (pipeline_after_post_normalize indicator_example scaler data0 1
              indicator_example_well_formed indicator_example_has_close H)
    as (data & X & y & H1 & H2 & H3 & H4 & H5).
  exists scaler, data0, data, X, y.
  split; [exact H|]. split; [exact H1|]. split; [exact H2|].
  split; [exact H3|]. rewrite H4, H5, H2. by split.
Defined.

Lemma mae_squared_le_mse_witness :
  ∃ mse mae,
    mean_squared_error targets_example first_predictions_example = Some mse
    ∧ mean_absolute_error targets_example first_predictions_example = Some mae
    ∧ (mae * mae <= mse)%Q.
Proof.
  assert (∃ mse, mean_squared_error targets_example
                   first_predictions_example = Some mse) as [mse Hmse]
    by (eexists; reflexivity).
  assert (∃ mae, mean_absolute_error targets_example
                   first_predictions_example = Some mae) as [mae Hmae]
    by (eexists; reflexivity).
  exists mse, mae. split; [exact Hmse|]. split; [exact Hmae|].
  exact (mae_squared_le_mse _ _ mse mae Hmse Hmae).
Defined.

Lemma second_mae_is_an_average_witness :
  ∃ gru lstm_mae gru_mae,
    mean_absolute_error targets_example second_predictions_example = Some gru
    ∧ (gru == 0)%Q
    ∧ report_maes targets_example first_predictions_example
        second_predictions_example
      = Some (Some lstm_mae, Some gru_mae)
    ∧ (lstm_mae == 1)%Q
    ∧ (gru_mae == 1 # 2)%Q.
Proof.
  assert (∃ lstm, mean_absolute_error targets_example
                    first_predictions_example = Some lstm
                  ∧ (lstm == 1)%Q) as (lstm & Hlstm & Hone)
    by (eexists; split; reflexivity).
  assert (∃ gru, mean_absolute_error targets_example
                   second_predictions_example = Some gru
                 ∧ (gru == 0)%Q) as (gru & Hgru & Hzero)
    by (eexists; split; reflexivity).
  destruct (second_mae_is_an_average targets_example
              first_predictions_example second_predictions_example
              lstm gru Hlstm Hgru)
    as (lstm_mae & gru_mae & H & H1 & H2 & _).
  exists gru, lstm_mae, gru_mae.
  split; [exact Hgru|]. split; [exact Hzero|]. split; [exact H|].
  split; [by rewrite H1|]. rewrite H2, Hone, Hzero. reflexivity.
Defined.

Lemma batches_cover_the_dataset_witness :
  ∃ dataset batches,
    from_tensor_slices [1; 2; 3; 4; 5] [10; 20; 30; 40; 50] = Some dataset
    ∧ batch 2 dataset = Some batches
    ∧ mjoin batches = dataset
    ∧ length batches = 3.
Proof.
  destruct (batches_cover_the_dataset [1; 2; 3; 4; 5] [10; 20; 30; 40; 50] 2)
    as (dataset & batches & H1 & H2 & _ & _ & H3 & H4 & _).
  - reflexivity.
  - lia.
  - by exists dataset, batches.
Defined.

Lemma null_report_zero_iff_complete_witness :
  (Forall (λ n, n = 0) (isnull_sum raw_frame) ↔ no_missing raw_frame)
  ∧ (no_missing raw_frame → dropna raw_frame = raw_frame).
Proof.
  exact (null_report_zero_iff_complete raw_frame raw_table_well_formed).
Defined.
